(** * graphql-toolkit core: import resolution and definition-pool completion

    A shallow embedding of [index.esm.js].  JavaScript objects used as
    dictionaries ([schemaMap], [visitedDefinitions], [options.cache],
    [options.processedFiles]) are finite maps and sets; thrown errors are
    the [Throw] branch of a result type; closures that push onto a captured
    array take that array as an accumulator and return the extended one.

    Strings are sequences of code units below 256.  Names that collide with
    members of [Object.prototype] (such as [constructor]) are outside the
    input domain of the dictionaries. *)

From stdpp Require Import gmap strings list sorting.
From Stdlib Require Import Ascii.
Set Warnings "-register-all,-clear-no-such-hyp".

(** ** Results of fallible code *)

Inductive Error :=
| TypeNotFound (typeName : string)
| InterfaceNotFound (interfaceName : string)
| FragmentNotFound (fragmentName : string)
| FieldTypeNotFound (fieldName typeName : string)
| DirectiveNotFound (directiveName : string)
| InvalidImport (importLine : string)
| NoTypeDefinitions (pointerList : list string)
| TypeError
| RangeError.

Inductive Result (A : Type) :=
| Ok (a : A)
| Throw (e : Error).
Arguments Ok {A} a.
Arguments Throw {A} e.

#[global] Instance Result_bind : MBind Result := λ A B k r,
  match r with
  | Ok a => k a
  | Throw e => Throw e
  end.

#[global] Instance Result_fmap : FMap Result := λ A B f r,
  match r with
  | Ok a => Ok (f a)
  | Throw e => Throw e
  end.

(** [array.forEach(f)] for a callback that updates an accumulator and may
    throw: the first exception aborts the iteration. *)
Definition forEach {A S} (f : A → S → Result S) : list A → S → Result S :=
  fix go (l : list A) (s : S) : Result S :=
    match l with
    | [] => Ok s
    | x :: l' => s' ← f x s; go l' s'
    end.

Definition nl : string := String (Ascii.ascii_of_nat 10) EmptyString.

(** The text of each error, as the source builds it.  An array inside a
    template literal is joined with commas. *)
Definition message (e : Error) : string :=
  match e with
  | TypeNotFound t => "Couldn't find type " +:+ t +:+ " in any of the schemas."
  | InterfaceNotFound i => "Couldn't find interface " +:+ i +:+ " in any of the schemas."
  | FragmentNotFound f =>
      "Fragment " +:+ f +:+ ": Couldn't find fragment " +:+ f +:+ " in any of the documents."
  | FieldTypeNotFound f t =>
      "Field " +:+ f +:+ ": Couldn't find type " +:+ t +:+ " in any of the schemas."
  | DirectiveNotFound d =>
      "Directive " +:+ d +:+ ": Couldn't find type " +:+ d +:+ " in any of the schemas."
  | InvalidImport l =>
      nl +:+ "    Import statement is not valid: " +:+ l +:+ nl
      +:+ "    If you want to have comments starting with '# import', please use ''' instead!"
      +:+ nl
      +:+ "    You can only have 'import' statements in the following pattern;" +:+ nl
      +:+ "    # import [Type].[Field] from [File]" +:+ nl +:+ "  "
  | NoTypeDefinitions ps =>
      nl +:+ "      Unable to find any GraphQL type definitions for the following pointers: "
      +:+ nl +:+ "        "
      +:+ String.concat "," ((λ p, nl +:+ "          - " +:+ p +:+ nl +:+ "          ") <$> ps)
  | TypeError => "TypeError"
  | RangeError => "Maximum call stack size exceeded"
  end.

(** ** The document AST (the part of graphql-js the core reads) *)

Inductive TypeNode :=
| NamedType (name : string)
| ListType (type : TypeNode)
| NonNullType (type : TypeNode).

Record DirectiveNode := { dir_name : string }.

Record InputValueDefinition := {
  iv_name : string;
  iv_type : TypeNode;
  iv_directives : list DirectiveNode;
}.

(** An element of a [fields] array.  The parser only puts field definitions
    in object and interface types and input values in input objects, but the
    merge in [process_1] concatenates the [fields] of same-named nodes of any
    kind, and [concat] of a missing [fields] property appends [undefined]. *)
Inductive FieldEntry :=
| FieldDefinition (name : string) (arguments : list InputValueDefinition)
    (type : TypeNode) (directives : list DirectiveNode)
| InputValue (node : InputValueDefinition)
| UndefinedEntry.

Record EnumValueDefinition := {
  ev_name : string;
  ev_directives : list DirectiveNode;
}.

Record OperationTypeDefinition := {
  ot_operation : string;
  ot_type : string;
}.

(** A field without a selection set has [selectionSet = []]: the parser
    never produces an empty selection set. *)
Inductive SelectionNode :=
| Field (name : string) (directives : list DirectiveNode)
    (selectionSet : list SelectionNode)
| FragmentSpread (name : string) (directives : list DirectiveNode)
| InlineFragment (directives : list DirectiveNode)
    (selectionSet : list SelectionNode).

(** The definitions of a document.  Type-system extensions and anonymous
    operations are not modelled: what follows is about documents that
    hold none. *)
Inductive DefinitionNode :=
| SchemaDefinition (directives : list DirectiveNode)
    (operationTypes : list OperationTypeDefinition)
| ScalarTypeDefinition (name : string) (directives : list DirectiveNode)
| ObjectTypeDefinition (name : string) (interfaces : list string)
    (directives : list DirectiveNode) (fields : list FieldEntry)
| InterfaceTypeDefinition (name : string) (directives : list DirectiveNode)
    (fields : list FieldEntry)
| UnionTypeDefinition (name : string) (directives : list DirectiveNode)
    (types : list string)
| EnumTypeDefinition (name : string) (directives : list DirectiveNode)
    (values : list EnumValueDefinition)
| InputObjectTypeDefinition (name : string) (directives : list DirectiveNode)
    (fields : list FieldEntry)
| DirectiveDefinition (name : string) (arguments : list InputValueDefinition)
| OperationDefinition (name : string) (directives : list DirectiveNode)
    (selectionSet : list SelectionNode)
| FragmentDefinition (name : string) (typeCondition : string)
    (directives : list DirectiveNode) (selectionSet : list SelectionNode).

(** ['name' in d ? Some d.name.value : None] *)
Definition nameOf (d : DefinitionNode) : option string :=
  match d with
  | SchemaDefinition _ _ => None
  | ScalarTypeDefinition n _ | ObjectTypeDefinition n _ _ _
  | InterfaceTypeDefinition n _ _ | UnionTypeDefinition n _ _
  | EnumTypeDefinition n _ _ | InputObjectTypeDefinition n _ _
  | DirectiveDefinition n _ | OperationDefinition n _ _
  | FragmentDefinition n _ _ _ => Some n
  end.

(** ['name' in d ? d.name.value : 'schema'] *)
Definition defName (d : DefinitionNode) : string :=
  default "schema" (nameOf d).

Definition directivesOf (d : DefinitionNode) : list DirectiveNode :=
  match d with
  | SchemaDefinition ds _ | ScalarTypeDefinition _ ds
  | ObjectTypeDefinition _ _ ds _ | InterfaceTypeDefinition _ ds _
  | UnionTypeDefinition _ ds _ | EnumTypeDefinition _ ds _
  | InputObjectTypeDefinition _ ds _ | OperationDefinition _ ds _
  | FragmentDefinition _ _ ds _ => ds
  | DirectiveDefinition _ _ => []
  end.

(** ['fields' in d ? Some d.fields : None] *)
Definition fieldsOf (d : DefinitionNode) : option (list FieldEntry) :=
  match d with
  | ObjectTypeDefinition _ _ _ fs | InterfaceTypeDefinition _ _ fs
  | InputObjectTypeDefinition _ _ fs => Some fs
  | _ => None
  end.

(** [d.fields = fs] on a node that has the property. *)
Definition setFields (fs : list FieldEntry) (d : DefinitionNode) : DefinitionNode :=
  match d with
  | ObjectTypeDefinition n ifaces ds _ => ObjectTypeDefinition n ifaces ds fs
  | InterfaceTypeDefinition n ds _ => InterfaceTypeDefinition n ds fs
  | InputObjectTypeDefinition n ds _ => InputObjectTypeDefinition n ds fs
  | _ => d
  end.

(** [f.name.value] of a fields entry; reading it on [undefined] throws. *)
Definition entryName (f : FieldEntry) : option string :=
  match f with
  | FieldDefinition n _ _ _ => Some n
  | InputValue iv => Some (iv_name iv)
  | UndefinedEntry => None
  end.

(** ** lodash helpers *)

(** [keyBy(l, key)]: later elements overwrite earlier ones. *)
Definition keyBy {A} (key : A → string) (l : list A) : gmap string A :=
  foldl (λ m x, <[key x := x]> m) ∅ l.

(** [uniqBy(l, key)]: the first element of each key is kept. *)
Fixpoint uniqByFrom {A K} `{EqDecision K} (key : A → K) (seen : list K)
    (l : list A) : list A :=
  match l with
  | [] => []
  | x :: l' =>
      if bool_decide (key x ∈ seen) then uniqByFrom key seen l'
      else x :: uniqByFrom key (key x :: seen) l'
  end.

Definition uniqBy {A K} `{EqDecision K} (key : A → K) (l : list A) : list A :=
  uniqByFrom key [] l.

(** [flatten(ll)] *)
Definition flatten {A} (ll : list (list A)) : list A := List.concat ll.

(** [includes(l, x)] *)
Definition includes (l : list string) (x : string) : bool := bool_decide (x ∈ l).

(** ** Definition-pool completion *)

Definition builtinTypes : list string :=
  ["String"; "Float"; "Int"; "Boolean"; "ID"; "Upload"].

Definition builtinDirectives : list string :=
  ["deprecated"; "skip"; "include"; "cacheControl"; "key"; "external";
   "requires"; "provides"; "connection"; "client"].

Fixpoint getNamedType (type : TypeNode) : string :=
  match type with
  | NamedType n => n
  | ListType t | NonNullType t => getNamedType t
  end.

(** [definitionPool.some(d => 'name' in d && d.name.value === n)] *)
Definition inPool (definitionPool : list DefinitionNode) (n : string) : bool :=
  existsb (λ d, bool_decide (nameOf d = Some n)) definitionPool.

(** [d.kind === OBJECT_TYPE_DEFINITION && d.interfaces.some(i => i.name.value === n)] *)
Definition implementsInterface (interfaceName : string) (d : DefinitionNode) : bool :=
  match d with
  | ObjectTypeDefinition _ interfaces _ _ => includes interfaces interfaceName
  | _ => false
  end.

Section collect.
Variables (allDefinitions definitionPool : list DefinitionNode).
Variable schemaMap : gmap string DefinitionNode.

  (** The body of [collectNode], given the directive collector it calls. *)
Definition collectNodeWith
      (collectDirective : DirectiveNode → list DefinitionNode → Result (list DefinitionNode))
      (node : InputValueDefinition) (newTypeDefinitions : list DefinitionNode)
      : Result (list DefinitionNode) :=
    let nodeTypeName := getNamedType (iv_type node) in
    acc ← (if negb (inPool definitionPool nodeTypeName)
              && negb (includes builtinTypes nodeTypeName)
           then match schemaMap !! nodeTypeName with
                | None => Throw (FieldTypeNotFound (iv_name node) nodeTypeName)
                | Some argTypeMatch => Ok (newTypeDefinitions ++ [argTypeMatch])
                end
           else Ok newTypeDefinitions);
    forEach collectDirective (iv_directives node) acc.

  (** [collectDirective] and [collectNode] call each other through the
      lookup map: a directive that is not in the pool has the arguments of
      its definition collected, and their directives in turn.  [depth] is
      the number of nested directive definitions that may be entered; the
      recursion does not depend on the accumulator, so running out of
      depth with more depth than there are definitions means a directive
      definition was entered again below itself, where the source recurses
      until the call stack overflows. *)
Fixpoint collectDirective (depth : nat) (directive : DirectiveNode)
      (newTypeDefinitions : list DefinitionNode) : Result (list DefinitionNode) :=
    let directiveName := dir_name directive in
    if negb (inPool definitionPool directiveName)
       && negb (includes builtinDirectives directiveName)
    then match schemaMap !! directiveName with
         | None => Throw (DirectiveNotFound directiveName)
         | Some (DirectiveDefinition _ arguments as found) =>
             match depth with
             | 0 => Throw RangeError
             | S depth' =>
                 acc ← forEach (collectNodeWith (collectDirective depth'))
                         arguments newTypeDefinitions;
                 Ok (acc ++ [found])
             end
         | Some _ => Throw TypeError
         end
    else Ok newTypeDefinitions.

Definition stackDepth : nat := S (length allDefinitions).

Definition collectNode := collectNodeWith (collectDirective stackDepth).

  (** [collectNode] applied to an element of a [fields] array. *)
Definition collectField (field : FieldEntry) (newTypeDefinitions : list DefinitionNode)
      : Result (list DefinitionNode) :=
    match field with
    | FieldDefinition n _ t ds =>
        collectNode {| iv_name := n; iv_type := t; iv_directives := ds |} newTypeDefinitions
    | InputValue node => collectNode node newTypeDefinitions
    | UndefinedEntry => Throw TypeError
    end.

  (** [field.arguments.forEach(collectNode)] *)
Definition collectArguments (field : FieldEntry) (newTypeDefinitions : list DefinitionNode)
      : Result (list DefinitionNode) :=
    match field with
    | FieldDefinition _ arguments _ _ => forEach collectNode arguments newTypeDefinitions
    | _ => Throw TypeError
    end.

  (** The shared shape of the union-member, interface and root-operation
      lookups; [notFound] builds the error. *)
Definition collectNamed (notFound : string → Error) (typeName : string)
      (newTypeDefinitions : list DefinitionNode) : Result (list DefinitionNode) :=
    if negb (inPool definitionPool typeName)
    then match schemaMap !! typeName with
         | None => Throw (notFound typeName)
         | Some typeMatch => Ok (newTypeDefinitions ++ [typeMatch])
         end
    else Ok newTypeDefinitions.

Fixpoint collectFragments (node : SelectionNode)
      (newTypeDefinitions : list DefinitionNode) : Result (list DefinitionNode) :=
    let nested (directives : list DirectiveNode) :=
      forEach (λ selection acc,
                 acc1 ← forEach (collectDirective stackDepth) directives acc;
                 collectFragments selection acc1) in
    match node with
    | FragmentSpread fragmentName _ =>
        collectNamed FragmentNotFound fragmentName newTypeDefinitions
    | Field _ directives selectionSet => nested directives selectionSet newTypeDefinitions
    | InlineFragment directives selectionSet =>
        nested directives selectionSet newTypeDefinitions
    end.

Definition collectNewTypeDefinitions (newDefinition : DefinitionNode)
      : Result (list DefinitionNode) :=
    acc ← match newDefinition with
          | DirectiveDefinition _ _ => Ok []
          | _ => forEach (collectDirective stackDepth) (directivesOf newDefinition) []
          end;
    match newDefinition with
    | EnumTypeDefinition _ _ values =>
        forEach (λ value, forEach (collectDirective stackDepth) (ev_directives value))
          values acc
    | InputObjectTypeDefinition _ _ fields => forEach collectField fields acc
    | InterfaceTypeDefinition interfaceName _ fields =>
        acc1 ← forEach collectField fields acc;
        Ok (acc1 ++ filter (λ d, implementsInterface interfaceName d = true) allDefinitions)
    | UnionTypeDefinition _ _ types => forEach (collectNamed TypeNotFound) types acc
    | ObjectTypeDefinition _ interfaces _ fields =>
        acc1 ← forEach (collectNamed InterfaceNotFound) interfaces acc;
        forEach (λ field a, a1 ← collectField field a; collectArguments field a1)
          fields acc1
    | SchemaDefinition _ operationTypes =>
        forEach (λ operationType, collectNamed TypeNotFound (ot_type operationType))
          operationTypes acc
    | OperationDefinition _ _ selectionSet | FragmentDefinition _ _ _ selectionSet =>
        forEach collectFragments selectionSet acc
    | ScalarTypeDefinition _ _ | DirectiveDefinition _ _ => Ok acc
    end.
End collect.

(** One run of the [while] loop per call.  [reverse] is lodash's, which
    reverses its argument in place, so the reversed array is what the next
    iteration sees.  An iteration that [continue]s recurses on the tail of
    the worklist; one that processes a definition marks a new name as
    visited and uses up one unit of [fuel]. *)
Fixpoint completeLoop (fuel : nat) : list DefinitionNode → gset string →
    list DefinitionNode → list DefinitionNode →
    option (Result (list DefinitionNode * list DefinitionNode)) :=
  fix iterate (allDefinitions : list DefinitionNode)
      (visitedDefinitions : gset string) (definitionPool : list DefinitionNode)
      (newTypeDefinitions : list DefinitionNode) {struct newTypeDefinitions} :=
    match newTypeDefinitions with
    | [] => Some (Ok (allDefinitions, uniqBy nameOf definitionPool))
    | newDefinition :: rest =>
        let allDefinitions := reverse allDefinitions in
        let schemaMap := keyBy defName allDefinitions in
        let defName := defName newDefinition in
        if bool_decide (defName ∈ visitedDefinitions)
        then iterate allDefinitions visitedDefinitions definitionPool rest
        else match fuel with
             | 0 => None
             | S fuel' =>
                 match collectNewTypeDefinitions allDefinitions definitionPool
                         schemaMap newDefinition with
                 | Throw e => Some (Throw e)
                 | Ok collectedTypedDefinitions =>
                     completeLoop fuel' allDefinitions
                       ({[defName]} ∪ visitedDefinitions)
                       (definitionPool ++ collectedTypedDefinitions)
                       (rest ++ collectedTypedDefinitions)
                 end
             end
    end.

(** The loop processes at most one definition per distinct name, and every
    name comes from [allDefinitions] or the initial worklist. *)
Definition completeFuel (allDefinitions newTypeDefinitions : list DefinitionNode) : nat :=
  S (length allDefinitions + length newTypeDefinitions).

(** [completeDefinitionPool], returning the final state of the
    [allDefinitions] array next to the function's result. *)
Definition completeDefinitionPoolState
    (allDefinitions definitionPool newTypeDefinitions : list DefinitionNode)
    : Result (list DefinitionNode * list DefinitionNode) :=
  default (Throw RangeError)
    (completeLoop (completeFuel allDefinitions newTypeDefinitions)
       allDefinitions ∅ definitionPool newTypeDefinitions).

Definition completeDefinitionPool
    (allDefinitions definitionPool newTypeDefinitions : list DefinitionNode)
    : Result (list DefinitionNode) :=
  snd <$> completeDefinitionPoolState allDefinitions definitionPool newTypeDefinitions.


(** ** What a definition refers to

    The names that [collectNewTypeDefinitions] looks up when it processes
    a definition of each kind, each tagged with the allowlist that applies
    to it: the directives on the definition; enum values' directives;
    input-object fields' named types and directives; interface fields'
    types and directives; union members; an object's interfaces, its
    fields' types and directives and its field arguments' types and
    directives; a schema's root operation types; and, for operations and
    fragments, the fragment spreads found by walking selection sets, with
    the directives of every selection that has a nested selection set.
    The function looks up nothing for the arguments of an interface's
    fields, for a directive definition that is processed from the worklist,
    or for the directives of a selection without a selection set, so these
    are no references here. *)

Inductive RefKind := TypeUse | DirectiveUse | NameUse.

Definition allowlisted (k : RefKind) (n : string) : Prop :=
  match k with
  | TypeUse => n ∈ builtinTypes
  | DirectiveUse => n ∈ builtinDirectives
  | NameUse => False
  end.

Definition directiveRefs (ds : list DirectiveNode) : list (RefKind * string) :=
  (λ d, (DirectiveUse, dir_name d)) <$> ds.

Definition nodeRefs (node : InputValueDefinition) : list (RefKind * string) :=
  (TypeUse, getNamedType (iv_type node)) :: directiveRefs (iv_directives node).

Definition fieldRefs (f : FieldEntry) : list (RefKind * string) :=
  match f with
  | FieldDefinition _ _ t ds => (TypeUse, getNamedType t) :: directiveRefs ds
  | InputValue node => nodeRefs node
  | UndefinedEntry => []
  end.

Definition argumentRefs (f : FieldEntry) : list (RefKind * string) :=
  match f with
  | FieldDefinition _ arguments _ _ => arguments ≫= nodeRefs
  | _ => []
  end.

Fixpoint selectionRefs (node : SelectionNode) : list (RefKind * string) :=
  match node with
  | FragmentSpread n _ => [(NameUse, n)]
  | Field _ ds sels | InlineFragment ds sels =>
      sels ≫= (λ selection, directiveRefs ds ++ selectionRefs selection)
  end.

Definition references (d : DefinitionNode) : list (RefKind * string) :=
  directiveRefs (directivesOf d) ++
  match d with
  | EnumTypeDefinition _ _ values => values ≫= (λ v, directiveRefs (ev_directives v))
  | InputObjectTypeDefinition _ _ fields
  | InterfaceTypeDefinition _ _ fields => fields ≫= fieldRefs
  | UnionTypeDefinition _ _ types => (λ n, (NameUse, n)) <$> types
  | ObjectTypeDefinition _ interfaces _ fields =>
      ((λ n, (NameUse, n)) <$> interfaces)
      ++ (fields ≫= (λ f, fieldRefs f ++ argumentRefs f))
  | SchemaDefinition _ operationTypes => (λ o, (NameUse, ot_type o)) <$> operationTypes
  | OperationDefinition _ _ sels | FragmentDefinition _ _ _ sels => sels ≫= selectionRefs
  | ScalarTypeDefinition _ _ | DirectiveDefinition _ _ => []
  end.

Definition Collector : Type := list DefinitionNode → Result (list DefinitionNode).

Section collector_specs.
Variables (allDefinitions definitionPool : list DefinitionNode).
Variable schemaMap : gmap string DefinitionNode.

  (** A reference is resolved when it needs no definition (allowlisted or
      named in the pool) or when its match in the lookup map was added. *)
Definition Resolved (added : list DefinitionNode) (r : RefKind * string) : Prop :=
    allowlisted r.1 r.2 ∨ inPool definitionPool r.2 = true
    ∨ ∃ m, schemaMap !! r.2 = Some m ∧ m ∈ added.

  (** A collector only appends definitions of [allDefinitions], and when
      it returns, each of [refs] is resolved. *)
Definition Adds (f : Collector) (refs : list (RefKind * string)) : Prop :=
    ∀ acc acc', f acc = Ok acc' →
      ∃ added, acc' = acc ++ added
               ∧ Forall (λ m, m ∈ allDefinitions) added
               ∧ Forall (Resolved added) refs.

  (** A reference that needs no lookup. *)
Definition Settled (r : RefKind * string) : Prop :=
    allowlisted r.1 r.2 ∨ inPool definitionPool r.2 = true.

  (** A collector that leaves the accumulator alone: what happens when
      every reference is already settled by the pool. *)
Definition Quiet (f : Collector) : Prop := ∀ acc, f acc = Ok acc.

  (** An error that a lookup may raise: the identity it names is in
      neither the pool nor the lookup map. *)
Definition missingIdentity (e : Error) : option string :=
    match e with
    | TypeNotFound n | InterfaceNotFound n | FragmentNotFound n
    | FieldTypeNotFound _ n | DirectiveNotFound n => Some n
    | _ => None
    end.

Definition Sound (e : Error) : Prop :=
    e = TypeError ∨ e = RangeError
    ∨ ∃ n, missingIdentity e = Some n
           ∧ inPool definitionPool n = false ∧ schemaMap !! n = None.

Definition Fails (f : Collector) : Prop := ∀ acc e, f acc = Throw e → Sound e.
End collector_specs.

(** The shape the parser gives [fields]: field definitions in object
    types, no [undefined] entry anywhere. *)
Definition wellShaped (d : DefinitionNode) : Prop :=
  match d with
  | ObjectTypeDefinition _ _ _ fields =>
      Forall (λ f, ∃ n a t ds, f = FieldDefinition n a t ds) fields
  | InterfaceTypeDefinition _ _ fields | InputObjectTypeDefinition _ _ fields =>
      Forall (λ f, f ≠ UndefinedEntry) fields
  | _ => True
  end.

(** [interfaceImplementations] of the interface branch. *)
Definition implementations (allDefinitions : list DefinitionNode) (d : DefinitionNode)
    : list DefinitionNode :=
  match d with
  | InterfaceTypeDefinition interfaceName _ _ =>
      filter (λ x, implementsInterface interfaceName x = true) allDefinitions
  | _ => []
  end.

(** ** Closed pools *)

(** [n] names a definition of the pool. *)
Definition named (pool : list DefinitionNode) (n : string) : Prop :=
  ∃ d, d ∈ pool ∧ nameOf d = Some n.

(** Every reference made from the pool is allowlisted or names a
    definition of the pool. *)
Definition closed (pool : list DefinitionNode) : Prop :=
  ∀ d r, d ∈ pool → r ∈ references d → allowlisted r.1 r.2 ∨ named pool r.2.

(** The literal [schema] is the key that [defName] gives to nameless
    definitions.  A definition is free of it when it neither carries that
    name nor refers to it. *)
Definition schemaFree (d : DefinitionNode) : Prop :=
  nameOf d ≠ Some "schema" ∧ Forall (λ r : RefKind * string, r.2 ≠ "schema") (references d).

(** What the loop has established about a definition once it has
    processed it: its shape is sound, its references are settled by the
    pool, and the implementations of the interface it may be are in the
    pool by name. *)
Definition Finished (allDefinitions pool : list DefinitionNode) (d : DefinitionNode) : Prop :=
  wellShaped d
  ∧ Forall (Settled pool) (references d)
  ∧ Forall (λ x, ∃ p, p ∈ pool ∧ nameOf p = nameOf x) (implementations allDefinitions d).

(** The state of the loop, with the definitions it has already shifted
    off the worklist. *)
Record LoopInv (all0 allDefinitions : list DefinitionNode) (visited : gset string)
    (pool work shifted : list DefinitionNode) : Prop := {
  inv_all : ∀ x, x ∈ allDefinitions ↔ x ∈ all0;
  inv_free : Forall schemaFree (shifted ++ work);
  inv_uniq : uniqBy nameOf pool = uniqBy nameOf (shifted ++ work);
  inv_visited : ∀ n, n ∈ visited ↔ n ∈ defName <$> shifted;
  inv_finished : Forall (Finished all0 pool) (uniqBy nameOf shifted);
}.

(** [s] contains [n]. *)
Definition mentions (s n : string) : Prop := ∃ pre post, s = pre +:+ n +:+ post.

(** The failure of a lookup during completion, seen from the caller: a
    [TypeError] or stack overflow raised on the way, or an error whose
    message names an identity that neither the pool nor any definition of
    [allDefinitions] provides. *)
Definition lookupFailure (allDefinitions pool : list DefinitionNode) (e : Error) : Prop :=
  e = TypeError ∨ e = RangeError
  ∨ ∃ n, missingIdentity e = Some n
         ∧ inPool pool n = false
         ∧ (∀ x, x ∈ allDefinitions → defName x ≠ n)
         ∧ mentions (message e) n.

(** ** Sample documents *)

Module Sample.
Definition field (name type : string) : FieldEntry :=
    FieldDefinition name [] (NamedType type) [].

  (** [type Query { a: A }] *)
Definition Query : DefinitionNode := ObjectTypeDefinition "Query" [] [] [field "a" "A"].
  (** [type A { x: Int }], declared first, and [type A { b: B }], declared later. *)
Definition A_first : DefinitionNode := ObjectTypeDefinition "A" [] [] [field "x" "Int"].
Definition A_later : DefinitionNode := ObjectTypeDefinition "A" [] [] [field "b" "B"].
  (** [type B { id: ID }] *)
Definition B : DefinitionNode := ObjectTypeDefinition "B" [] [] [field "id" "ID"].
  (** [interface I { id: ID }] and [type T implements I { id: ID }] *)
Definition I : DefinitionNode := InterfaceTypeDefinition "I" [] [field "id" "ID"].
Definition T : DefinitionNode := ObjectTypeDefinition "T" ["I"] [] [field "id" "ID"].
  (** [type User implements Node { id: ID }] *)
Definition User : DefinitionNode := ObjectTypeDefinition "User" ["Node"] [] [field "id" "ID"].
  (** [schema { query: Query }] and a type that is itself called [schema]. *)
Definition schemaDef : DefinitionNode :=
    SchemaDefinition [] [{| ot_operation := "query"; ot_type := "Query" |}].
Definition typeCalledSchema : DefinitionNode :=
    ObjectTypeDefinition "schema" [] [] [field "b" "B"].
  (** [union U = A], declared first, and [union U = Missing]. *)
Definition U_first : DefinitionNode := UnionTypeDefinition "U" [] ["A"].
Definition U_later : DefinitionNode := UnionTypeDefinition "U" [] ["Missing"].
  (** [type Broken { a: Missing1 b: Missing2 }] *)
Definition Broken : DefinitionNode :=
    ObjectTypeDefinition "Broken" [] [] [field "a" "Missing1"; field "b" "Missing2"].
  (** [type Marked @B { m: Missing }], where [B] is a type. *)
Definition Marked : DefinitionNode :=
    ObjectTypeDefinition "Marked" [] [{| dir_name := "B" |}] [field "m" "Missing"].
  (** [directive @auth on FIELD_DEFINITION] and [type Guarded { a: auth }],
      which uses the directive's name as a type. *)
Definition authDirective : DefinitionNode := DirectiveDefinition "auth" [].
Definition Guarded : DefinitionNode := ObjectTypeDefinition "Guarded" [] [] [field "a" "auth"].
  (** [directive @loop(x: Int @loop) on OBJECT], and a type that carries it. *)
Definition loopDirective : DefinitionNode :=
    DirectiveDefinition "loop"
      [{| iv_name := "x"; iv_type := NamedType "Int";
          iv_directives := [{| dir_name := "loop" |}] |}].
Definition Looping : DefinitionNode :=
    ObjectTypeDefinition "Looping" [] [{| dir_name := "loop" |}] [field "m" "Missing"].
End Sample.

(** The state of the loop when it runs on a pool [P] that an earlier run
    returned: the worklist is a suffix of [P] followed by late arrivals, the
    part of [P] already shifted is marked visited, and whatever was added
    bears a name that [P] already has. *)
Definition SecondRun (all0 P allDefinitions : list DefinitionNode) (visited : gset string)
    (pool work : list DefinitionNode) : Prop :=
  (∀ x, x ∈ allDefinitions ↔ x ∈ all0)
  ∧ ∃ shifted todo late extra,
      P = shifted ++ todo ∧ work = todo ++ late ∧ pool = P ++ extra
      ∧ (∀ p, p ∈ shifted → defName p ∈ visited)
      ∧ Forall (λ x, nameOf x ∈ nameOf <$> P) late
      ∧ Forall (λ x, nameOf x ∈ nameOf <$> P) extra.

(** The state of the loop while a definition [d] with a reference that
    nothing provides is still waiting in the worklist. *)
Definition Waiting (all0 pool0 : list DefinitionNode) (d : DefinitionNode)
    (allDefinitions : list DefinitionNode) (visited : gset string)
    (pool work : list DefinitionNode) : Prop :=
  (∀ x, x ∈ allDefinitions ↔ x ∈ all0)
  ∧ (∃ extra, pool = pool0 ++ extra ∧ ∀ x, x ∈ extra → x ∈ all0)
  ∧ ∃ before after, work = before ++ (d :: after)
                    ∧ (defName d ∉ visited) ∧ defName d ∉ (defName <$> before).

(** ** Source collection *)

(** A schema object, represented by the document that
    [parse(printSchemaWithDirectives(schema))] gives for it. *)
Record GraphQLSchema := { schemaDocument : list DefinitionNode }.

Record Source := {
  location : string;
  document : option (list DefinitionNode);
  rawSDL : option string;
  schema : option GraphQLSchema;
}.

(** What a custom loader may hand back besides a schema or a document: an
    object whose [document] and other properties are spread into the
    source. *)
Record PartialSource := {
  ps_location : option string;
  ps_document : option (list DefinitionNode);
  ps_rawSDL : option string;
  ps_schema : option GraphQLSchema;
}.

Inductive LoaderResult :=
| SchemaResult (result : GraphQLSchema)
| DocumentResult (result : list DefinitionNode)
| ObjectResult (result : PartialSource)
| Falsy.

(** The arrays and the cache that the helpers of [createHelpers] close
    over. *)
Record Collected := {
  sources : list Source;
  cache : gmap string Source;
}.

Definition addSource (pointer : string) (source : Source) (noCache : bool)
    (st : Collected) : Collected :=
  {| sources := sources st ++ [source];
     cache := if noCache then cache st else <[pointer := source]> (cache st) |}.

Definition addResultOfCustomLoader (pointer : string) (result : LoaderResult)
    (st : Collected) : Collected :=
  match result with
  | SchemaResult result =>
      addSource pointer
        {| location := pointer; schema := Some result;
           document := Some (schemaDocument result); rawSDL := None |}
        true st
  | DocumentResult result =>
      addSource pointer
        {| location := pointer; document := Some result;
           rawSDL := None; schema := None |}
        false st
  | ObjectResult result =>
      match ps_document result with
      | Some _ =>
          addSource pointer
            {| location := default pointer (ps_location result);
               document := ps_document result;
               rawSDL := ps_rawSDL result; schema := ps_schema result |}
            false st
      | None => st
      end
  | Falsy => st
  end.

(** A custom loader, already resolved to a function. *)
Definition CustomLoader : Type := string → Result LoaderResult.

(** [collectCustomLoaderSync]; [next] is the rest of the stack.  The
    queued task runs when the synchronous queue is run. *)
Definition collectCustomLoaderSync (pointer : string) (loader : option CustomLoader)
    (next : Collected → Result Collected) (st : Collected) : Result Collected :=
  match loader with
  | Some loader =>
      result ← loader pointer;
      match result with
      | Falsy => Ok st
      | _ => Ok (addResultOfCustomLoader pointer result st)
      end
  | None => next st
  end.

(** A loader of the fallback chain; either capability may be absent. *)
Record Loader := {
  canLoadSync : option (string → Result bool);
  loadSync : option (string → Result (option Source));
}.

Fixpoint tryLoaders (pointer : string) (loaders : list Loader) : Result (option Source) :=
  match loaders with
  | [] => Ok None
  | loader :: loaders' =>
      match canLoadSync loader, loadSync loader with
      | Some canLoad, Some load =>
          can ← canLoad pointer;
          if can : bool then load pointer else tryLoaders pointer loaders'
      | _, _ => tryLoaders pointer loaders'
      end
  end.

Definition loadFileSync (pointer : string) (loaders : list Loader)
    (cache : gmap string Source) : Result (option Source) :=
  match cache !! pointer with
  | Some cached => Ok (Some cached)
  | None => tryLoaders pointer loaders
  end.

Definition collectFallbackSync (pointer : string) (loaders : list Loader)
    (st : Collected) : Result Collected :=
  source ← loadFileSync pointer loaders (cache st);
  match source with
  | Some source => Ok (addSource pointer source false st)
  | None => Ok st
  end.

(** [prepareResult]; [sortSources] stands for
    [validSources.sort((l, r) => compareStrings(l.location, r.location))]. *)
Definition prepareResult (sortSources : list Source → list Source) (sort : bool)
    (pointerList : list string) (validSources : list Source) : Result (list Source) :=
  if bool_decide (0 < length pointerList) && bool_decide (length validSources = 0)
  then Throw (NoTypeDefinitions pointerList)
  else Ok (if sort then sortSources validSources else validSources).

Module SampleSources.
Definition helloDocument : list DefinitionNode :=
    [ObjectTypeDefinition "Query" [] [] [Sample.field "hello" "String"]].
Definition fileSource (path : string) : Source :=
    {| location := path; document := Some helloDocument;
       rawSDL := Some "type Query { hello: String }"; schema := None |}.
Definition nothing : Collected := {| sources := []; cache := ∅ |}.
  (** A custom loader that returns a parsed document. *)
Definition documentLoader : CustomLoader := λ _, Ok (DocumentResult helloDocument).
  (** A fallback chain with one loader that loads every pointer. *)
Definition fileLoader : Loader :=
    {| canLoadSync := Some (λ _, Ok true);
       loadSync := Some (λ pointer, Ok (Some (fileSource pointer))) |}.
End SampleSources.

(** ** Import lines *)

(** Text is handled as a list of code units. *)
Abbreviation chars := String.list_ascii_of_string.
Abbreviation text := String.string_of_list_ascii.

Definition code (c : ascii) : nat := Ascii.nat_of_ascii c.

(** [\s], and what [trim] strips: tab, line feed, vertical tab, form feed,
    carriage return, space, no-break space. *)
Definition isWhiteSpace (c : ascii) : bool :=
  bool_decide (code c ∈ [9; 10; 11; 12; 13; 32; 160]).

(** [.] matches everything but a line terminator. *)
Definition isLineTerminator (c : ascii) : bool := bool_decide (code c ∈ [10; 13]).
Definition notLineTerminator (c : ascii) : bool := negb (isLineTerminator c).

Definition singleQuote : ascii := Ascii.ascii_of_nat 39.
Definition doubleQuote : ascii := Ascii.ascii_of_nat 34.

(** The class of the two quote characters. *)
Definition isQuote (c : ascii) : bool :=
  bool_decide (c = singleQuote) || bool_decide (c = doubleQuote).

Fixpoint dropWhile (p : ascii → bool) (s : list ascii) : list ascii :=
  match s with
  | c :: s' => if p c then dropWhile p s' else s
  | [] => []
  end.

(** [s.trim()] *)
Definition trim (s : list ascii) : list ascii :=
  reverse (dropWhile isWhiteSpace (reverse (dropWhile isWhiteSpace s))).

(** [s.split(sep)] for a separator of one character. *)
Fixpoint split (sep : ascii) (s : list ascii) : list (list ascii) :=
  match s with
  | [] => [[]]
  | c :: s' =>
      if bool_decide (c = sep) then [] :: split sep s'
      else match split sep s' with
           | piece :: pieces => (c :: piece) :: pieces
           | [] => [[c]]
           end
  end.

(** [s.startsWith(prefix)], returning what follows the prefix. *)
Fixpoint stripPrefix (prefix s : list ascii) : option (list ascii) :=
  match prefix, s with
  | [], _ => Some s
  | p :: prefix', c :: s' => if bool_decide (p = c) then stripPrefix prefix' s' else None
  | _ :: _, [] => None
  end.

Definition startsWith (prefix s : list ascii) : bool :=
  bool_decide (is_Some (stripPrefix prefix s)).

(** [s.replace(c, '')]: the first occurrence only. *)
Fixpoint removeFirst (c : ascii) (s : list ascii) : list ascii :=
  match s with
  | [] => []
  | x :: s' => if bool_decide (x = c) then s' else x :: removeFirst c s'
  end.

(** *** A backtracking matcher for the constructs the two patterns use

    Alternatives are tried left to right and repetitions are greedy, giving
    up one character at a time; the first way to reach the end wins.  A
    group records what its body consumed. *)

Inductive Regex :=
| Lit (s : list ascii)
| Class (p : ascii → bool)
| Star (p : ascii → bool)
| Plus (p : ascii → bool)
| Opt (r : Regex)
| Alt (r1 r2 : Regex)
| Cat (r1 r2 : Regex)
| Group (n : nat) (r : Regex)
| EndOfInput.

Definition Captures : Type := gmap nat (list ascii).

Fixpoint matchStar {R} (p : ascii → bool) (input : list ascii)
    (k : list ascii → option R) : option R :=
  match input with
  | c :: rest =>
      if p c
      then match matchStar p rest k with
           | Some r => Some r
           | None => k input
           end
      else k input
  | [] => k []
  end.

(** What of [input] was consumed when [rest] is left. *)
Definition consumed (input rest : list ascii) : list ascii :=
  take (length input - length rest) input.

Fixpoint matchRegex {R} (r : Regex) (input : list ascii) (caps : Captures)
    (k : list ascii → Captures → option R) : option R :=
  match r with
  | Lit s =>
      match stripPrefix s input with
      | Some rest => k rest caps
      | None => None
      end
  | Class p =>
      match input with
      | c :: rest => if p c then k rest caps else None
      | [] => None
      end
  | Star p => matchStar p input (λ rest, k rest caps)
  | Plus p =>
      match input with
      | c :: rest => if p c then matchStar p rest (λ rest', k rest' caps) else None
      | [] => None
      end
  | Opt r =>
      match matchRegex r input caps k with
      | Some x => Some x
      | None => k input caps
      end
  | Alt r1 r2 =>
      match matchRegex r1 input caps k with
      | Some x => Some x
      | None => matchRegex r2 input caps k
      end
  | Cat r1 r2 => matchRegex r1 input caps (λ rest caps', matchRegex r2 rest caps' k)
  | Group n r =>
      matchRegex r input caps (λ rest caps', k rest (<[n := consumed input rest]> caps'))
  | EndOfInput =>
      match input with
      | [] => k [] caps
      | _ :: _ => None
      end
  end.

(** [line.match(regex)] for a pattern anchored with [^]. *)
Definition exec (r : Regex) (line : list ascii) : option Captures :=
  matchRegex r line ∅ (λ _ caps, Some caps).

Fixpoint sequence (rs : list Regex) : Regex :=
  match rs with
  | [] => Lit []
  | [r] => r
  | r :: rs' => Cat r (sequence rs')
  end.

(** The pattern of an import with a list: the word import, white space,
    group 1 (a star, or group 2: any run of characters), white space, the
    word from, white space, group 3 (a quote), group 4 (any run of
    characters), group 5 (a quote), an optional semicolon, end of input. *)
Definition IMPORT_FROM_REGEX : Regex :=
  sequence [Lit (chars "import"); Plus isWhiteSpace;
            Group 1 (Alt (Lit (chars "*")) (Group 2 (Star notLineTerminator)));
            Plus isWhiteSpace; Lit (chars "from"); Plus isWhiteSpace;
            Group 3 (Class isQuote); Group 4 (Star notLineTerminator);
            Group 5 (Class isQuote); Opt (Lit (chars ";")); EndOfInput].

(** The pattern of a bare import: the word import, white space, group 1
    (a quote), group 2 (any run of characters), group 3 (a quote), an
    optional semicolon, end of input. *)
Definition IMPORT_DEFAULT_REGEX : Regex :=
  sequence [Lit (chars "import"); Plus isWhiteSpace;
            Group 1 (Class isQuote); Group 2 (Star notLineTerminator);
            Group 3 (Class isQuote); Opt (Lit (chars ";")); EndOfInput].

(** One parsed import line. *)
Record RawModule := {
  imports : list string;
  from : string;
}.

#[global] Instance RawModule_eq_dec : EqDecision RawModule.
Proof. solve_decision. Defined.

Definition parseImportLine (importLine : string) : Result RawModule :=
  match exec IMPORT_FROM_REGEX (chars importLine) with
  | Some matches =>
      match matches !! 4 with
      | Some (c :: path) =>
          let imports :=
            if bool_decide (matches !! 1 = Some (chars "*")) then ["*"]
            else (λ d, text (trim d)) <$> split ","%char (default [] (matches !! 2)) in
          Ok {| imports := imports; from := text (c :: path) |}
      | _ => Throw (InvalidImport importLine)
      end
  | None =>
      match exec IMPORT_DEFAULT_REGEX (chars importLine) with
      | Some matches =>
          Ok {| imports := ["*"]; from := text (default [] (matches !! 2)) |}
      | None => Throw (InvalidImport importLine)
      end
  end.

(** [array.map(f)] for a callback that may throw. *)
Fixpoint mapM {A B} (f : A → Result B) (l : list A) : Result (list B) :=
  match l with
  | [] => Ok []
  | x :: l' => y ← f x; ys ← mapM f l'; Ok (y :: ys)
  end.

Definition isImportLine (l : list ascii) : bool :=
  startsWith (chars "# import ") l || startsWith (chars "#import ") l.

Definition parseSDL (sdl : string) : Result (list RawModule) :=
  mapM parseImportLine
    ((λ l, text (trim (removeFirst "#"%char l)))
       <$> filter (λ l, isImportLine l = true)
             (trim <$> split (Ascii.ascii_of_nat 10) (chars sdl))).

(** The import line that the specification writes for a list of tokens and
    a path, and its bare form. *)
Definition joinTokens (tokens : list string) : string := String.concat ", " tokens.

Definition renderImport (tokens : list string) (path : string) : string :=
  "# import " +:+ joinTokens tokens +:+ " from " +:+ String doubleQuote path
  +:+ String doubleQuote "".

Definition renderBareImport (path : string) : string :=
  "# import " +:+ String doubleQuote path +:+ String doubleQuote "".

(** *** What the matcher accepts

    [Accepts r input rest]: the pattern [r] can consume a prefix of
    [input] and leave [rest], whatever the order in which the matcher
    tries things. *)
Fixpoint Accepts (r : Regex) (input rest : list ascii) : Prop :=
  match r with
  | Lit s => input = s ++ rest
  | Class p => ∃ c, input = c :: rest ∧ p c = true
  | Star p => ∃ s, input = s ++ rest ∧ Forall (λ c, p c = true) s
  | Plus p => ∃ s, input = s ++ rest ∧ s ≠ [] ∧ Forall (λ c, p c = true) s
  | Opt r => rest = input ∨ Accepts r input rest
  | Alt r1 r2 => Accepts r1 input rest ∨ Accepts r2 input rest
  | Cat r1 r2 => ∃ mid, Accepts r1 input mid ∧ Accepts r2 mid rest
  | Group _ r => Accepts r input rest
  | EndOfInput => input = [] ∧ rest = []
  end.

(** The end of both patterns: a quote, the path, a quote, an optional
    semicolon, end of input, with the numbers of the three groups. *)
Definition quoted (opening inner closing : nat) : Regex :=
  sequence [Group opening (Class isQuote); Group inner (Star notLineTerminator);
            Group closing (Class isQuote); Opt (Lit (chars ";")); EndOfInput].

Definition pathClause : Regex := quoted 3 4 5.

(** What follows the import list: white space, the word from, white
    space, and the quoted path. *)
Definition fromClause : Regex :=
  Cat (Plus isWhiteSpace) (Cat (Lit (chars "from")) (Cat (Plus isWhiteSpace) pathClause)).

(** The import list, group 1 of the list pattern. *)
Definition importList : Regex :=
  Group 1 (Alt (Lit (chars "*")) (Group 2 (Star notLineTerminator))).

(** A rendered line without its comment sign, as code units: the import
    list [L] and the path [P]. *)
Definition importLine (L P : list ascii) : list ascii :=
  chars "import" ++ " "%char :: L ++ chars " from " ++ doubleQuote :: P ++ [doubleQuote].

(** A rendered bare line without its comment sign. *)
Definition bareLine (P : list ascii) : list ascii :=
  chars "import" ++ " "%char :: doubleQuote :: P ++ [doubleQuote].

(** The groups that the list pattern captures on [importLine L P]. *)
Definition capturesOf (L P : list ascii) : Captures :=
  <[5 := [doubleQuote]]> (<[4 := P]> (<[3 := [doubleQuote]]> (<[1 := L]>
    (if bool_decide (L = chars "*") then ∅ else <[2 := L]> ∅)))).

Definition quoteFree (s : list ascii) : Prop := Forall (λ c, isQuote c = false) s.
Definition oneLine (s : list ascii) : Prop := Forall (λ c, notLineTerminator c = true) s.
Definition commaFree (s : list ascii) : Prop := ","%char ∉ s.
Definition trimmed (s : list ascii) : Prop := trim s = s.

(** A token that an import line can carry: on one line, without commas,
    quotes or surrounding white space. *)
Definition plainToken (t : string) : Prop :=
  commaFree (chars t) ∧ quoteFree (chars t) ∧ oneLine (chars t) ∧ trimmed (chars t).

(** A path that an import line can carry: not empty, on one line, without
    quotes. *)
Definition plainPath (p : string) : Prop :=
  p ≠ "" ∧ quoteFree (chars p) ∧ oneLine (chars p).

(** ** Import resolution

    The definition nodes are objects that the resolver shares between its
    arrays and updates in place, so they live in a store and the arrays
    hold their locations. *)

Abbreviation Loc := nat (only parsing).
Abbreviation Store := (list DefinitionNode) (only parsing).

(** Locations handed out by [alloc] are never dangling; the default only
    makes the lookup total. *)
Definition deref (σ : Store) (l : Loc) : DefinitionNode :=
  default (SchemaDefinition [] []) (σ !! l).

Definition alloc (nodes : list DefinitionNode) (σ : Store) : list Loc * Store :=
  (seq (length σ) (length nodes), σ ++ nodes).

(** A source whose document has been parsed into the store. *)
Record DocumentSource := {
  ds_location : string;
  ds_definitions : list Loc;
  ds_rawSDL : option string;
}.

(** The arrays and the registry that one resolution threads through. *)
Record Resolution := {
  store : Store;
  processedFiles : gmap string (list RawModule);
  typeDefinitions : list (list Loc);
  allDefinitions : list (list Loc);
}.

(** [token.split('.')[0]], [token.split('.')[1]] and [token.split('.').length] *)
Definition segments (token : string) : list (list ascii) := split "."%char (chars token).
Definition firstSegment (token : string) : string := text (default [] (head (segments token))).
Definition secondSegment (token : string) : string := text (default [] (segments token !! 1)).

(** [groupBy(l, key)]: the keys in the order in which they first appear,
    each with its elements in order. *)
Definition groupBy (key : string → string) (l : list string) : list (string * list string) :=
  (λ k, (k, filter (λ x, key x = k) l)) <$> uniqBy id (key <$> l).

(** [array.filter(p)] for a predicate that may throw. *)
Fixpoint filterM {A} (p : A → Result bool) (l : list A) : Result (list A) :=
  match l with
  | [] => Ok []
  | x :: l' => b ← p x; ys ← filterM p l'; Ok (if b : bool then x :: ys else ys)
  end.

(** A source as a loader returns it, with its nodes placed in the store;
    a source without a document makes the first read of
    [source.document.definitions] throw. *)
Definition instantiate (source : Source) (σ : Store) : Result (DocumentSource * Store) :=
  match document source with
  | Some definitions =>
      let '(locs, σ') := alloc definitions σ in
      Ok ({| ds_location := location source; ds_definitions := locs;
             ds_rawSDL := rawSDL source |}, σ')
  | None => Throw TypeError
  end.

Definition emptyResolution (σ : Store) : Resolution :=
  {| store := σ; processedFiles := ∅; typeDefinitions := []; allDefinitions := [] |}.

Section resolver.
(** [compareNodes], through [fields.sort(compareNodes)]. *)
Variable sortFields : list FieldEntry → list FieldEntry.
(** [resolveModuleFilePath(filePath, importFrom, options)] *)
Variable resolveModuleFilePath : string → string → string.
(** The loader chain over a finite set of files, as one map from resolved
    path to the source that loading it returns.  The paths that import
    lines lead to are taken to be none of the pointers in
    [options.cache], and a loader to parse its file at every call. *)
Variable files : gmap string Source.
(** [options.sort] *)
Variable sort : bool.

(** The body of the [for (const rootType in groupedFieldImports)] loop. *)
Definition restrictFields (typeDefinitions : list Loc) (group : string * list string)
    (σ : Store) : Result Store :=
  let fields := secondSegment <$> group.2 in
  match list_find (λ l, nameOf (deref σ l) = Some group.1) typeDefinitions with
  | Some (_, objectTypeDefinition) =>
      match fieldsOf (deref σ objectTypeDefinition) with
      | Some fs =>
          if bool_decide ("*" ∈ fields) then Ok σ
          else
            kept ← filterM (λ f, match entryName f with
                                 | Some n => Ok (bool_decide (n ∈ fields)
                                                 || bool_decide ("*" ∈ fields))
                                 | None => Throw TypeError
                                 end) fs;
            Ok (<[objectTypeDefinition :=
                    setFields (if sort then sortFields kept else kept)
                      (deref σ objectTypeDefinition)]> σ)
      | None => Ok σ
      end
  | None => Ok σ
  end.

Definition isObjectTypeDefinition (d : DefinitionNode) : bool :=
  match d with
  | ObjectTypeDefinition _ _ _ _ => true
  | _ => false
  end.

(** [filterImportedDefinitions].  The names met before are the keys of a
    plain object; a name that every object inherits, such as
    [constructor], would also count as met, and is left aside here. *)
Definition filterImportedDefinitions (imports : list string) (typeDefinitions : list Loc)
    (allDefinitions : list (list Loc)) (σ : Store) : Result (list Loc * Store) :=
  if bool_decide ("*" ∈ imports) then
    if bool_decide (length imports = 1) && bool_decide (head imports = Some "*")
       && bool_decide (1 < length allDefinitions)
    then
      let previousTypeDefinitions :=
        omap (λ l, nameOf (deref σ l))
          (flatten (take (length allDefinitions - 1) allDefinitions)) in
      Ok (filter (λ l, isObjectTypeDefinition (deref σ l) = true
                       ∧ nameOf (deref σ l) ∈ (Some <$> previousTypeDefinitions))
            typeDefinitions, σ)
    else Ok (typeDefinitions, σ)
  else
    let importedTypes := firstSegment <$> imports in
    let result :=
      filter (λ l, match nameOf (deref σ l) with
                   | Some n => bool_decide (n ∈ importedTypes)
                   | None => false
                   end = true) typeDefinitions in
    let fieldImports := filter (λ i, 1 < length (segments i)) imports in
    σ' ← forEach (restrictFields typeDefinitions) (groupBy firstSegment fieldImports) σ;
    Ok (result, σ').

Definition preapreRawModules (source : DocumentSource) (imports : list string)
    (st : Resolution) : Result (list RawModule * Resolution) :=
  let allDefinitions := allDefinitions st ++ [ds_definitions source] in
  '(currentTypeDefinitions, σ) ←
    filterImportedDefinitions imports (ds_definitions source) allDefinitions (store st);
  rawModules ← match ds_rawSDL source with
               | Some sdl => parseSDL sdl
               | None => Throw TypeError
               end;
  Ok (rawModules,
      {| store := σ; processedFiles := processedFiles st;
         typeDefinitions := typeDefinitions st ++ [currentTypeDefinitions];
         allDefinitions := allDefinitions |}).

Definition canProcess (filepath : string) (module : RawModule)
    (processedFiles : gmap string (list RawModule))
    : bool * gmap string (list RawModule) :=
  match processedFiles !! filepath with
  | Some processedFile =>
      if bool_decide (module ∈ processedFile) then (false, processedFiles)
      else (true, <[filepath := processedFile ++ [module]]> processedFiles)
  | None => (true, <[filepath := [module]]> processedFiles)
  end.

(** [loadFileSync(filepath, options)], followed by the first thing that
    [collectDefinitionsSync] does with the result: reading
    [source.document.definitions].  With no path in [options.cache],
    [useCache] finds nothing and the loader is called, so every load
    yields the nodes of a fresh parse; a path that is also a cached
    pointer would yield the cached source, with the same nodes each
    time, and is outside this model. *)
Definition load (filepath : string) (σ : Store) : Result (DocumentSource * Store) :=
  match files !! filepath with
  | Some source => instantiate source σ
  | None => Throw TypeError
  end.

(** [rawModules.forEach(module => ...)] of [collectDefinitionsSync], given
    the recursive call. *)
Definition forEachModule
    (collect : list string → DocumentSource → Resolution → option (Result Resolution))
    (source : DocumentSource) : list RawModule → Resolution → option (Result Resolution) :=
  fix each (rawModules : list RawModule) (st : Resolution) :=
    match rawModules with
    | [] => Some (Ok st)
    | module :: rest =>
        let '{| imports := moduleImports; from := moduleFrom |} := module in
        let filepath := resolveModuleFilePath (ds_location source) moduleFrom in
        let '(can, processed) := canProcess filepath module (processedFiles st) in
        let st := {| store := store st; processedFiles := processed;
                     typeDefinitions := typeDefinitions st;
                     allDefinitions := allDefinitions st |} in
        if can then
          match load filepath (store st) with
          | Throw e => Some (Throw e)
          | Ok (result, σ) =>
              let st := {| store := σ; processedFiles := processedFiles st;
                           typeDefinitions := typeDefinitions st;
                           allDefinitions := allDefinitions st |} in
              match collect moduleImports result st with
              | Some (Ok st) => each rest st
              | other => other
              end
          end
        else each rest st
    end.

(** [fuel] bounds the depth of the recursion; [None] means that it ran
    out. *)
Fixpoint collectDefinitionsSync (fuel : nat) (imports : list string)
    (source : DocumentSource) (st : Resolution) : option (Result Resolution) :=
  match fuel with
  | 0 => None
  | S fuel' =>
      match preapreRawModules source imports st with
      | Throw e => Some (Throw e)
      | Ok (rawModules, st) =>
          forEachModule (collectDefinitionsSync fuel') source rawModules st
      end
  end.

(** The merge loop of [process_1]: the names seen so far, the first node of
    each name, and the store. *)
Definition mergeType (acc : list string * list Loc * Store) (type : Loc)
    : list string * list Loc * Store :=
  let '(processedTypeNames, mergedFirstTypes, σ) := acc in
  match nameOf (deref σ type) with
  | Some name =>
      if bool_decide (name ∈ processedTypeNames) then
        match list_find (λ t, nameOf (deref σ t) = Some name) mergedFirstTypes with
        | Some (_, existingType) =>
            match fieldsOf (deref σ existingType) with
            | Some fs =>
                let added := default [UndefinedEntry] (fieldsOf (deref σ type)) in
                let merged := uniqBy entryName (fs ++ added) in
                (processedTypeNames, mergedFirstTypes,
                 <[existingType := setFields (if sort then sortFields merged else merged)
                                     (deref σ existingType)]> σ)
            | None => acc
            end
        | None => acc
        end
      else (processedTypeNames ++ [name], mergedFirstTypes ++ [type], σ)
  | None => acc
  end.

(** [process$1] *)
Definition process_1 (st : Resolution) : Result (list DefinitionNode) :=
  match typeDefinitions st with
  | [] => Throw TypeError
  | secondFirstTypes :: others =>
      let firstTypes := flatten (typeDefinitions st) in
      let otherFirstTypes := flatten others in
      let firstSet := firstTypes ++ secondFirstTypes ++ otherFirstTypes in
      let '(_, _, σ) := foldl mergeType ([], [], store st) firstSet in
      completeDefinitionPool (deref σ <$> flatten (allDefinitions st))
        (deref σ <$> firstSet) (deref σ <$> flatten (typeDefinitions st))
  end.

(** The pairs of resolved path and import line that the files can give
    rise to: one per import line of the root source and of every file that
    parses. *)
Definition importPairs (location : string) (sdl : option string)
    : list (string * RawModule) :=
  match sdl with
  | Some sdl =>
      match parseSDL sdl with
      | Ok rawModules => (λ m, (resolveModuleFilePath location (from m), m)) <$> rawModules
      | Throw _ => []
      end
  | None => []
  end.

Definition universe (source : DocumentSource) : list (string * RawModule) :=
  importPairs (ds_location source) (ds_rawSDL source)
  ++ (map_to_list files ≫= λ f, importPairs (location f.2) (rawSDL f.2)).

(** [processImportSyntaxSync(documentSource, options, allDefinitions)],
    for a root source that sits in the store. *)
Definition processImportSyntaxSync (documentSource : DocumentSource)
    (st : Resolution) : Result (list DefinitionNode) :=
  let st := {| store := store st; processedFiles := processedFiles st;
               typeDefinitions := []; allDefinitions := allDefinitions st |} in
  match collectDefinitionsSync (S (length (universe documentSource))) ["*"]
          documentSource st with
  | Some (Ok st) => process_1 st
  | Some (Throw e) => Throw e
  | None => Throw RangeError
  end.

(** A resolution started from scratch on a root source: fresh nodes, an
    empty registry and an empty [allDefinitions]. *)
Definition resolveImports (root : Source) : Result (list DefinitionNode) :=
  '(documentSource, σ) ← instantiate root [];
  processImportSyntaxSync documentSource (emptyResolution σ).
End resolver.

(** A pair of resolved path and import line that the registry holds. *)
Definition processed (registry : gmap string (list RawModule)) (p : string * RawModule)
    : Prop :=
  ∃ l, registry !! p.1 = Some l ∧ p.2 ∈ l.

#[global] Instance processed_dec registry p : Decision (processed registry p).
Proof.
  unfold processed. destruct (registry !! p.1) as [l|].
  - destruct (decide (p.2 ∈ l)) as [Hin|Hin]; [left; by exists l|].
    right. by intros (l' & [= <-] & ?).
  - right. by intros (? & ? & _).
Defined.

(** How many of the pairs [U] the registry does not hold yet. *)
Definition pending (U : list (string * RawModule))
    (registry : gmap string (list RawModule)) : nat :=
  length (filter (λ p, ¬ processed registry p) (remove_dups U)).

(** The registry only grows from [st] to the resolution that [r] holds. *)
Definition grows (st : Resolution) (r : Result Resolution) : Prop :=
  ∀ st', r = Ok st' →
    ∀ p, processed (processedFiles st) p → processed (processedFiles st') p.

(** One store extends another when it keeps every location and the name
    of every node. *)
Definition extends (σ σ' : Store) : Prop :=
  length σ ≤ length σ'
  ∧ ∀ l, l < length σ → nameOf (deref σ' l) = nameOf (deref σ l).

(** The fields that the tokens scoped to [T] ask for. *)
Definition requestedBy (T : string) (imports : list string) : list string :=
  secondSegment <$> filter (λ t, firstSegment t = T)
                      (filter (λ t, 1 < length (segments t)) imports).

(** A fields entry whose name is among [fields]. *)
Definition isRequested (fields : list string) (f : FieldEntry) : bool :=
  match entryName f with
  | Some n => bool_decide (n ∈ fields)
  | None => false
  end.

Module SampleFiles.
(** Two files that import everything from each other. *)
Definition a : Source :=
  {| location := "a.graphql"; document := Some [Sample.A_first];
     rawSDL := Some ("# import * from 'b.graphql'" +:+ nl +:+ "type A { x: Int }");
     schema := None |}.
Definition b : Source :=
  {| location := "b.graphql"; document := Some [Sample.B];
     rawSDL := Some ("# import * from 'a.graphql'" +:+ nl +:+ "type B { id: ID }");
     schema := None |}.
Definition mutual : gmap string Source := {[ "a.graphql" := a; "b.graphql" := b ]}.
(** The path used as it is written, as when [options.fs] is absent. *)
Definition asWritten (filePath importFrom : string) : string := importFrom.

(** [type Foo { bar: String baz: Int }] behind a field-scoped import. *)
Definition Foo : DefinitionNode :=
  ObjectTypeDefinition "Foo" [] [] [Sample.field "bar" "String"; Sample.field "baz" "Int"].
Definition child : DocumentSource :=
  {| ds_location := "child.graphql"; ds_definitions := [0]; ds_rawSDL := Some "" |}.
End SampleFiles.

(** ** Names that every object inherits

    [visitedDefinitions], [schemaMap] and [previousTypeDefinitions] are
    plain objects in the source: read under one of the names below they
    answer with a member of [Object.prototype], where the maps and sets of
    this embedding answer that the key is absent.  The two agree on input
    that stays clear of these names. *)
Definition inheritedNames : list string :=
  ["constructor"; "__defineGetter__"; "__defineSetter__"; "hasOwnProperty";
   "__lookupGetter__"; "__lookupSetter__"; "isPrototypeOf"; "propertyIsEnumerable";
   "toString"; "valueOf"; "__proto__"; "toLocaleString"].

#[global] Instance RefKind_eq_dec : EqDecision RefKind.
Proof. solve_decision. Defined.

(** The references that are looked up on behalf of a definition: those
    of [references], and for a directive definition the types and
    directives of its arguments, which [collectDirective] collects when it
    finds the definition. *)
Definition lookupRefs (d : DefinitionNode) : list (RefKind * string) :=
  references d ++
  match d with
  | DirectiveDefinition _ arguments => arguments ≫= nodeRefs
  | _ => []
  end.

(** A definition whose key and looked-up names are none of the inherited
    ones. *)
Definition ordinary (d : DefinitionNode) : Prop :=
  Forall (λ n, n ∉ inheritedNames) (defName d :: (lookupRefs d).*2).

#[global] Instance ordinary_dec d : Decision (ordinary d).
Proof. unfold ordinary. apply _. Defined.

(** A definition of a type, as opposed to a directive definition, a
    schema definition, an operation or a fragment. *)
Definition isTypeDefinition (d : DefinitionNode) : bool :=
  match d with
  | ScalarTypeDefinition _ _ | ObjectTypeDefinition _ _ _ _
  | InterfaceTypeDefinition _ _ _ | UnionTypeDefinition _ _ _
  | EnumTypeDefinition _ _ _ | InputObjectTypeDefinition _ _ _ => true
  | _ => false
  end.

(** The references looked up on behalf of the definitions [ds]. *)
Definition lookedUp (ds : list DefinitionNode) : list (RefKind * string) :=
  ds ≫= lookupRefs.

(** A directive definition whose arguments carry only built-in
    directives: collecting it enters no further directive definition. *)
Definition flatDirective (d : DefinitionNode) : Prop :=
  match d with
  | DirectiveDefinition _ arguments =>
      Forall (λ a, Forall (λ dir, dir_name dir ∈ builtinDirectives) (iv_directives a))
        arguments
  | _ => False
  end.

(** An error that blames a reference of [scope]: a not-found error that
    names a reference which is not allowlisted and which neither the pool
    nor the lookup map provides. *)
Definition Blames (definitionPool : list DefinitionNode)
    (schemaMap : gmap string DefinitionNode) (scope : list (RefKind * string))
    (e : Error) : Prop :=
  ∃ r, r ∈ scope ∧ ¬ allowlisted r.1 r.2 ∧ missingIdentity e = Some r.2
       ∧ inPool definitionPool r.2 = false ∧ schemaMap !! r.2 = None.

(** A collector all of whose errors satisfy [P]. *)
Definition FailsWith (P : Error → Prop) (f : Collector) : Prop :=
  ∀ acc e, f acc = Throw e → P e.

(** ** Hashing a document string *)

(** [ToInt32]: the 32-bit two's complement reading of an integer. *)
Definition toInt32 (z : Z) : Z := ((z + 2 ^ 31) `mod` 2 ^ 32 - 2 ^ 31)%Z.

(** One round of the loop of [stringToHash]:
    [hash = (hash << 5) - hash + char; hash = hash & hash]. *)
Definition hashStep (hash char : Z) : Z :=
  let hash := (toInt32 (Z.shiftl (toInt32 hash) 5) - hash + char)%Z in
  Z.land (toInt32 hash) (toInt32 hash).

(** [str.charCodeAt(i)] for each [i]. *)
Definition charCodes (str : string) : list Z := (λ c, Z.of_nat (code c)) <$> chars str.

Definition stringToHash (str : string) : Z :=
  if bool_decide (String.length str = 0) then 0%Z
  else foldl hashStep 0%Z (charCodes str).

(** ** File names *)

(** [regex.test(s)] for a pattern without [^]: a match may start at any
    position, the leftmost first. *)
Fixpoint test (r : Regex) (s : list ascii) : bool :=
  match exec r s with
  | Some _ => true
  | None => match s with
            | [] => false
            | _ :: s' => test r s'
            end
  end.

(** The pattern of [gqlExt]: a dot, g, optionally raph (group 1), ql,
    optionally s (group 2), end of input. *)
Definition gqlExt : Regex :=
  sequence [Lit (chars ".g"); Opt (Group 1 (Lit (chars "raph"))); Lit (chars "ql");
            Opt (Group 2 (Lit (chars "s"))); EndOfInput].

Definition isGraphQLFile (f : string) : bool := test gqlExt (chars f).

(** ** Empty schemas *)

Definition isEmptySDL (sdl : string) : bool :=
  bool_decide
    (length (filter (λ l, negb (bool_decide (length l = 0) || startsWith (chars "#") l) = true)
               (trim <$> split (Ascii.ascii_of_nat 10) (chars sdl))) = 0).

(** [getDocumentFromSDL]; [parse] is the parser of the graphql package,
    and the result is the [definitions] array of the document. *)
Definition getDocumentFromSDL (parse : string → Result (list DefinitionNode))
    (sdl : string) : Result (list DefinitionNode) :=
  if isEmptySDL sdl then Ok [] else parse sdl.

(** ** Filtering a document by kind *)

(** [d.kind], as the graphql package names the kinds. *)
Definition kindOf (d : DefinitionNode) : string :=
  match d with
  | SchemaDefinition _ _ => "SchemaDefinition"
  | ScalarTypeDefinition _ _ => "ScalarTypeDefinition"
  | ObjectTypeDefinition _ _ _ _ => "ObjectTypeDefinition"
  | InterfaceTypeDefinition _ _ _ => "InterfaceTypeDefinition"
  | UnionTypeDefinition _ _ _ => "UnionTypeDefinition"
  | EnumTypeDefinition _ _ _ => "EnumTypeDefinition"
  | InputObjectTypeDefinition _ _ _ => "InputObjectTypeDefinition"
  | DirectiveDefinition _ _ => "DirectiveDefinition"
  | OperationDefinition _ _ _ => "OperationDefinition"
  | FragmentDefinition _ _ _ _ => "FragmentDefinition"
  end.

(** [filterKind(content, filterKinds)]: [content] is a document or
    nothing, [filterKinds] an array or nothing; a document is given by its
    [definitions]. *)
Definition filterKind (content : option (list DefinitionNode))
    (filterKinds : option (list string)) : option (list DefinitionNode) :=
  match content, filterKinds with
  | Some definitions, Some kinds =>
      if bool_decide (length definitions ≠ 0) && bool_decide (0 < length kinds)
      then Some (filter (λ definitionNode, ¬ kindOf definitionNode ∈ kinds) definitions)
      else content
  | _, _ => content
  end.

Definition OPERATION_KINDS : list string := ["OperationDefinition"; "FragmentDefinition"].

(** [NON_OPERATION_KINDS], given the graphql package's [Kind] object as
    its entries in key order. *)
Definition NON_OPERATION_KINDS (Kind : list (string * string)) : list string :=
  filter (λ v, ¬ v ∈ OPERATION_KINDS) (foldl (λ prev v, prev ++ [v.2]) [] Kind).

(** ** The registry and the two running totals *)

(** No import line is listed twice for a file. *)
Definition registryWf (registry : gmap string (list RawModule)) : Prop :=
  ∀ filepath processedFile, registry !! filepath = Some processedFile → NoDup processedFile.

(** From one state of a resolution to a later one, the two running
    totals have grown by as many arrays, each filtered array taken from the
    unfiltered array pushed with it. *)
Definition inStep (st st' : Resolution) : Prop :=
  ∃ filtered unfiltered,
    typeDefinitions st' = typeDefinitions st ++ filtered
    ∧ allDefinitions st' = allDefinitions st ++ unfiltered
    ∧ Forall2 sublist filtered unfiltered.

(** ** Loaders *)

(** A loader that does not take the pointer: it lacks one of the two
    synchronous capabilities, or its [canLoadSync] answers no. *)
Definition declines (pointer : string) (loader : Loader) : Prop :=
  match canLoadSync loader, loadSync loader with
  | Some canLoad, Some _ => canLoad pointer = Ok false
  | _, _ => True
  end.

(** ** Stacks of collectors *)

(** A member of a stack gets the input and the continuation [next]; it
    acts on the state of the collection and may throw. *)
Definition Handler (I S : Type) : Type := I → (S → Result S) → S → Result S.

(** [createNext(i)], for the members from index [i] on. *)
Fixpoint createNext {I S} (fns : list (Handler I S)) (input : I) : S → Result S :=
  match fns with
  | [] => Ok
  | fn :: fns' => fn input (createNext fns' input)
  end.

(** [useStack(...fns)(input)]; calling the first member of an empty stack
    is a call of [undefined]. *)
Definition useStack {I S} (fns : list (Handler I S)) (input : I) : S → Result S :=
  match fns with
  | [] => λ _, Throw TypeError
  | fn :: fns' => fn input (createNext fns' input)
  end.

(** [collectFromGlobs] of [collectSourcesFromGlobalsSync]: the stack of
    the custom loader and the fallback chain, for one path. *)
Definition collectFromGlobs (loader : option CustomLoader) (loaders : list Loader)
    (pointer : string) : Collected → Result Collected :=
  useStack [ (λ pointer next, collectCustomLoaderSync pointer loader next);
             (λ pointer _, collectFallbackSync pointer loaders) ] pointer.

(** [collectSourcesFromGlobalsSync], with the tasks it queues run in
    their order; every path gets the same options, those of the globs. *)
Definition collectSourcesFromGlobalsSync (filepaths : list string)
    (loader : option CustomLoader) (loaders : list Loader)
    : Collected → Result Collected :=
  forEach (collectFromGlobs loader loaders) filepaths.

(** ** Parsing a source *)

(** [prepareInput]: options are objects, [Object.assign] lets the later
    object win. *)
Definition prepareInput {V} (source : Source) (options globOptions : gmap string V)
    (pointerOptionMap : gmap string (gmap string V)) : Source * gmap string V :=
  let specific :=
    if bool_decide (is_Some (pointerOptionMap !! location source)) then Some globOptions
    else pointerOptionMap !! location source in
  (source, match specific with
           | Some specific => specific ∪ options
           | None => options
           end).

(** A letter in either case. *)
Definition letter (lower upper : ascii) (c : ascii) : bool :=
  bool_decide (c = lower) || bool_decide (c = upper).

(** The pattern that makes [useGraphQLImport] process imports: a hash
    sign, any run of characters, the word import in any case, a space. *)
Definition importComment : Regex :=
  sequence [Lit (chars "#"); Star notLineTerminator; Class (letter "i" "I"); Class
            (letter "m" "M"); Class (letter "p" "P"); Class (letter "o" "O"); Class
            (letter "r" "R"); Class (letter "t" "T"); Lit (chars " ")].

(** [pattern.test(rawSDL.trimLeft())] *)
Definition hasImportComment (rawSDL : string) : bool :=
  bool_decide (is_Some (exec importComment (dropWhile isWhiteSpace (chars rawSDL)))).

(** A string that is not empty. *)
Definition truthy (s : option string) : bool :=
  match s with
  | Some s => negb (bool_decide (s = ""))
  | None => false
  end.

(** What parsing one source depends on besides the source: the
    options that [prepareInput] gives it, and the functions of other
    packages under those options. *)
Record Input := {
  (** [fixSchemaAst(schema, options)] *)
  fixSchemaAst : GraphQLSchema → GraphQLSchema;
  (** [printSchemaWithDirectives(schema, options)] *)
  printSchemaWithDirectives : GraphQLSchema → string;
  (** [parse(new Source(rawSDL, location), options)] *)
  parse : string → string → Result (list DefinitionNode);
  (** [printWithComments(document)] *)
  printWithComments : list DefinitionNode → string;
  filterKinds : option (list string);
  forceGraphQLImport : bool;
  skipGraphQLImport : bool;
  (** [processImportSyntaxSync(source, options, cache)] *)
  definitionsGetter : Source → Result (list DefinitionNode);
}.

Section parse_source.
Variable input : Input.

Definition parseSchema (source : Source) : Source :=
  match schema source with
  | Some s =>
      let fixed := fixSchemaAst input s in
      {| location := location source; document := document source;
         rawSDL := Some (printSchemaWithDirectives input fixed); schema := Some fixed |}
  | None => source
  end.

Definition parseRawSDL (source : Source) : Result Source :=
  match rawSDL source with
  | Some sdl =>
      if truthy (Some sdl) then
        definitions ← (if isEmptySDL sdl then Ok [] else parse input sdl (location source));
        Ok {| location := location source; document := Some definitions;
              rawSDL := rawSDL source; schema := schema source |}
      else Ok source
  | None => Ok source
  end.

Definition useKindsFilter (source : Source) : Source :=
  match filterKinds input with
  | Some kinds =>
      {| location := location source;
         document := filterKind (document source) (Some kinds);
         rawSDL := rawSDL source; schema := schema source |}
  | None => source
  end.

Definition useComments (source : Source) : Source :=
  if truthy (rawSDL source) then source
  else {| location := location source; document := document source;
          rawSDL := Some (printWithComments input (default [] (document source)));
          schema := schema source |}.

Definition useGraphQLImport (source : Source) : Result Source :=
  process ← (if forceGraphQLImport input then Ok true
             else if skipGraphQLImport input then Ok false
             else match rawSDL source with
                  | Some sdl => Ok (hasImportComment sdl)
                  | None => Throw TypeError
                  end);
  if process : bool then
    definitions ← definitionsGetter input source;
    Ok {| location := location source; document := Some definitions;
          rawSDL := rawSDL source; schema := schema source |}
  else Ok source.

Definition collectValidSources (source : Source) (validSources : list Source)
    : Result (list Source) :=
  match document source with
  | Some definitions =>
      Ok (if bool_decide (0 < length definitions) then validSources ++ [source]
          else validSources)
  | None => Throw TypeError
  end.

Definition parseSourceSync (partialSource : option Source) (validSources : list Source)
    : Result (list Source) :=
  match partialSource with
  | Some partialSource =>
      source ← parseRawSDL (parseSchema partialSource);
      match document source with
      | Some _ =>
          source ← useGraphQLImport (useComments (useKindsFilter source));
          collectValidSources source validSources
      | None => Ok validSources
      end
  | None => Ok validSources
  end.
End parse_source.

(** What [loadTypedefsSync] does with the sources that
    [collectSourcesSync] hands it: parse each under its own input, then
    prepare the result. *)
Definition loadTypedefsSync (inputOf : option Source → Input)
    (sortSources : list Source → list Source) (sort : bool)
    (pointerList : list string) (sources : list (option Source)) : Result (list Source) :=
  validSources ← forEach (λ partialSource, parseSourceSync (inputOf partialSource) partialSource)
                   sources [];
  prepareResult sortSources sort pointerList validSources.

(** The word import, each letter in either case. *)
Definition spellsImport (word : list ascii) : Prop :=
  Forall2 (λ c (cases : ascii * ascii), letter cases.1 cases.2 c = true) word
    [("i", "I"); ("m", "M"); ("p", "P"); ("o", "O"); ("r", "R"); ("t", "T")]%char.

(** A source that holds nothing to parse and asks for no import
    processing: no schema object, a text that is not the empty string and
    has only blank lines and comments, and options that neither force the
    processing of imports nor find it asked for. *)
Definition blankSource (input : Input) (partialSource : option Source) : Prop :=
  ∃ source sdl,
    partialSource = Some source ∧ schema source = None
    ∧ rawSDL source = Some sdl ∧ sdl ≠ "" ∧ isEmptySDL sdl = true
    ∧ forceGraphQLImport input = false
    ∧ (skipGraphQLImport input = true ∨ hasImportComment sdl = false).

(** ** Merging definitions of one name *)

(** What [existingType.fields.concat(type.fields)] appends for a node:
    its [fields], or one [undefined] entry when it has none. *)
Definition fieldsIn (σ : list DefinitionNode) (l : nat) : list FieldEntry :=
  default [UndefinedEntry] (fieldsOf (deref σ l)).

(** The nodes of [L] that bear the name [N], in their order. *)
Definition occurrences (σ : list DefinitionNode) (N : string) (L : list nat) : list nat :=
  filter (λ l, nameOf (deref σ l) = Some N) L.

(** The fields of all the nodes of [L] named [N], the first of each field
    name. *)
Definition mergedFields (σ : list DefinitionNode) (N : string) (L : list nat)
    : list FieldEntry :=
  uniqBy entryName (occurrences σ N L ≫= fieldsIn σ).

(** The state of the merge loop of [process_1] after the nodes [L], when
    it started in the store [σ]: the names met, the first node of each,
    and a store in which only those first nodes may have changed, each to
    hold the merged fields of its name. *)
Definition MergeInv (σ : list DefinitionNode) (L : list nat)
    (acc : list string * list nat * list DefinitionNode) : Prop :=
  length acc.2 = length σ
  ∧ (∀ l, nameOf (deref acc.2 l) = nameOf (deref σ l))
  ∧ (∀ N, N ∈ acc.1.1 ↔ occurrences σ N L ≠ [])
  ∧ (∀ t, t ∈ acc.1.2 → ∃ N, nameOf (deref σ t) = Some N ∧ N ∈ acc.1.1)
  ∧ (∀ N X, head (occurrences σ N L) = Some X →
            ∃ i, list_find (λ t, nameOf (deref σ t) = Some N) acc.1.2 = Some (i, X))
  ∧ (∀ l, (∀ N, head (occurrences σ N L) ≠ Some l) → deref acc.2 l = deref σ l)
  ∧ (∀ N X, head (occurrences σ N L) = Some X →
            match fieldsOf (deref σ X) with
            | None => deref acc.2 X = deref σ X
            | Some own =>
                ∃ fs, deref acc.2 X = setFields fs (deref σ X)
                      ∧ if bool_decide (length (occurrences σ N L) ≤ 1) then fs = own
                        else fs ≡ₚ mergedFields σ N L
            end).

(** ** The asynchronous resolution

    [collectDefinitions] runs [preapreRawModules] and then starts one
    asynchronous callback per import line, in order.  Each callback
    resolves its path and asks [canProcess] at once; when the answer is
    yes it calls [loadFile] and waits.  When a load completes, its
    callback goes on with [collectDefinitions] on the loaded source,
    which again runs in one piece up to its own waits.  Which of the
    pending loads completes next is decided outside the program, so the
    order is a parameter here: a schedule holds one number per completed
    load, read as a position among the loads then pending. *)

(** A load that was started and has not completed: the resolved path,
    and the imports that the loaded file is then filtered by. *)
Record Task := {
  task_filepath : string;
  task_imports : list string;
}.

Section async.
Variable sortFields : list FieldEntry → list FieldEntry.
Variable resolveModuleFilePath : string → string → string.
Variable files : gmap string Source.
Variable sort : bool.

(** [rawModules.map(async module => ...)], up to the first wait of each
    callback: the registry is asked for every line in order, and a load
    is started for each line that may be processed. *)
Definition startLoads (source : DocumentSource)
    : list RawModule → Resolution → Resolution * list Task :=
  fix each (rawModules : list RawModule) (st : Resolution) :=
    match rawModules with
    | [] => (st, [])
    | module :: rest =>
        let filepath := resolveModuleFilePath (ds_location source) (from module) in
        let '(can, processed) := canProcess filepath module (processedFiles st) in
        let st := {| store := store st; processedFiles := processed;
                     typeDefinitions := typeDefinitions st;
                     allDefinitions := allDefinitions st |} in
        let '(st, started) := each rest st in
        (st, if can
             then {| task_filepath := filepath; task_imports := imports module |} :: started
             else started)
    end.

(** One call of [collectDefinitions], up to its wait. *)
Definition dispatch (imports : list string) (source : DocumentSource) (st : Resolution)
    : Result (Resolution * list Task) :=
  '(rawModules, st) ← preapreRawModules sortFields sort source imports st;
  Ok (startLoads source rawModules st).

(** The pending loads complete one at a time, in the order that the
    schedule gives; a load that fails, or a failure in the call that
    follows it, rejects the whole resolution.  [None] means that loads
    are still pending when the schedule ends. *)
Fixpoint settle (schedule : list nat) (tasks : list Task) (st : Resolution)
    {struct schedule} : option (Result Resolution) :=
  match tasks with
  | [] => Some (Ok st)
  | first :: _ =>
      match schedule with
      | [] => None
      | turn :: schedule =>
          let i := turn `mod` length tasks in
          let task := default first (tasks !! i) in
          match load files (task_filepath task) (store st) with
          | Throw e => Some (Throw e)
          | Ok (result, σ) =>
              let st := {| store := σ; processedFiles := processedFiles st;
                           typeDefinitions := typeDefinitions st;
                           allDefinitions := allDefinitions st |} in
              match dispatch (task_imports task) result st with
              | Throw e => Some (Throw e)
              | Ok (st, started) => settle schedule (delete i tasks ++ started) st
              end
          end
      end
  end.

(** [collectDefinitions], under a schedule. *)
Definition collectDefinitions (schedule : list nat) (imports : list string)
    (source : DocumentSource) (st : Resolution) : option (Result Resolution) :=
  match dispatch imports source st with
  | Throw e => Some (Throw e)
  | Ok (st, started) => settle schedule started st
  end.

(** [processImportSyntax(documentSource, options, allDefinitions)], under
    a schedule. *)
Definition processImportSyntax (schedule : list nat) (documentSource : DocumentSource)
    (st : Resolution) : option (Result (list DefinitionNode)) :=
  let st := {| store := store st; processedFiles := processedFiles st;
               typeDefinitions := []; allDefinitions := allDefinitions st |} in
  match collectDefinitions schedule ["*"] documentSource st with
  | Some (Ok st) => Some (process_1 sortFields sort st)
  | Some (Throw e) => Some (Throw e)
  | None => None
  end.

(** An asynchronous resolution started from scratch on a root source. *)
Definition resolveImportsAsync (schedule : list nat) (root : Source)
    : option (Result (list DefinitionNode)) :=
  match instantiate root [] with
  | Ok (documentSource, σ) => processImportSyntax schedule documentSource (emptyResolution σ)
  | Throw e => Some (Throw e)
  end.
End async.

(** A text with at most one import line. *)
Definition singleImport (sdl : option string) : Prop :=
  ∀ text rawModules, sdl = Some text → parseSDL text = Ok rawModules →
                     length rawModules ≤ 1.

(** What [loadTypedefs] does with the sources that [collectSources]
    hands it.  [parseSource] has the steps of [parseSourceSync], with the
    import resolution awaited ([definitionsGetter] then stands for
    [processImportSyntax]); the calls run side by side and each adds its
    source when it completes.  [completion] is the order in which they
    complete, as positions in [sources].  The array that the resolutions
    of one call share ([definitionsCacheForImport]) is behind
    [definitionsGetter], as it is in [loadTypedefsSync]: what the getter
    of a source returns is taken not to depend on that order. *)
Definition parseSource := parseSourceSync.

Definition loadTypedefs (inputOf : option Source → Input)
    (sortSources : list Source → list Source) (sort : bool)
    (pointerList : list string) (sources : list (option Source))
    (completion : list nat) : Result (list Source) :=
  validSources ←
    forEach (λ i, match sources !! i with
                  | Some partialSource => parseSource (inputOf partialSource) partialSource
                  | None => Ok
                  end) completion [];
  prepareResult sortSources sort pointerList validSources.

(** The sources that parsing [partialSource] adds when nothing was added
    before; none when the parsing throws. *)
Definition contribution (inputOf : option Source → Input) (partialSource : option Source)
    : list Source :=
  match parseSourceSync (inputOf partialSource) partialSource [] with
  | Ok added => added
  | Throw _ => []
  end.

(** A sort of sources by their locations, under some total order of the
    locations; it stands in the examples for
    [validSources.sort((l, r) => compareStrings(l.location, r.location))]. *)
Definition byLocation (s1 s2 : Source) : Prop :=
  (encode (location s1) ≤ encode (location s2))%positive.

#[global] Instance byLocation_dec s1 s2 : Decision (byLocation s1 s2).
Proof. unfold byLocation. apply _. Defined.

Definition sortByLocation : list Source → list Source := merge_sort byLocation.

(** Three files behind a root: the root imports from [b.graphql] and from
    [c.graphql], and [b.graphql] imports from [d.graphql]. *)
Module SampleTree.
Definition typeNamed (name : string) : DefinitionNode :=
    ObjectTypeDefinition name [] [] [Sample.field "id" "ID"].
Definition root : Source :=
    {| location := "root.graphql"; document := Some [typeNamed "Query"];
       rawSDL := Some ("# import B from 'b.graphql'" +:+ nl
                       +:+ "# import C from 'c.graphql'" +:+ nl
                       +:+ "type Query { id: ID }");
       schema := None |}.
Definition b : Source :=
    {| location := "b.graphql"; document := Some [typeNamed "B"];
       rawSDL := Some ("# import D from 'd.graphql'" +:+ nl +:+ "type B { id: ID }");
       schema := None |}.
Definition c : Source :=
    {| location := "c.graphql"; document := Some [typeNamed "C"];
       rawSDL := Some "type C { id: ID }"; schema := None |}.
Definition d : Source :=
    {| location := "d.graphql"; document := Some [typeNamed "D"];
       rawSDL := Some "type D { id: ID }"; schema := None |}.
Definition files : gmap string Source :=
    {[ "b.graphql" := b; "c.graphql" := c; "d.graphql" := d ]}.
(** The root as a document source whose one node is in the store. *)
Definition rootSource : DocumentSource :=
    {| ds_location := "root.graphql"; ds_definitions := [0]; ds_rawSDL := rawSDL root |}.
Definition start : Resolution := emptyResolution [typeNamed "Query"].
End SampleTree.

(** The first of the two files of [SampleFiles.mutual] as a document
    source whose one node is in the store. *)
Module SampleMutual.
Definition rootSource : DocumentSource :=
    {| ds_location := "a.graphql"; ds_definitions := [0];
       ds_rawSDL := rawSDL SampleFiles.a |}.
Definition start : Resolution := emptyResolution [Sample.A_first].
End SampleMutual.

(** Two sources of one call: the first asks for import processing, the
    second does not. *)
Module SamplePair.
Definition input : Input :=
    {| fixSchemaAst := λ s, s; printSchemaWithDirectives := λ _, "";
       parse := λ _ _, Ok SampleSources.helloDocument;
       printWithComments := λ _, ""; filterKinds := None;
       forceGraphQLImport := false; skipGraphQLImport := false;
       definitionsGetter := λ _, Ok [Sample.A_first; Sample.B] |}.
Definition importing : Source :=
    {| location := "a.graphql"; document := None;
       rawSDL := Some ("# import B from 'b.graphql'" +:+ nl +:+ "type A { x: Int }");
       schema := None |}.
Definition plain : Source := SampleSources.fileSource "z.graphql".
Definition sources : list (option Source) := [Some importing; Some plain].
End SamplePair.

(** * Properties of the embedding *)

(** ** The result monad and [forEach] *)

Lemma bind_Ok {A B} (r : Result A) (k : A → Result B) (b : B) :
  (r ≫= k) = Ok b ↔ ∃ a, r = Ok a ∧ k a = Ok b.
Proof.
  destruct r as [a|e]; simpl; split.
  - eauto.
  - intros (a' & ? & ?); by simplify_eq.
  - done.
  - by intros (? & ? & ?).
Qed.

Lemma bind_Throw {A B} (r : Result A) (k : A → Result B) (e : Error) :
  (r ≫= k) = Throw e ↔ r = Throw e ∨ ∃ a, r = Ok a ∧ k a = Throw e.
Proof.
  destruct r as [a|e']; simpl; split.
  - intros ?. right. eauto.
  - intros [?|(a' & ? & ?)]; by simplify_eq.
  - intros [= ->]. by left.
  - intros [[= ->]|(? & ? & ?)]; done.
Qed.

Lemma Ok_bind {A B} (a : A) (k : A → Result B) : (Ok a ≫= k) = k a.
Proof. done. Qed.

Lemma forEach_cons {A S} (f : A → S → Result S) x l s :
  forEach f (x :: l) s = (f x s ≫= forEach f l).
Proof. done. Qed.

Lemma forEach_app {A S} (f : A → S → Result S) l1 l2 s :
  forEach f (l1 ++ l2) s = (forEach f l1 s ≫= forEach f l2).
Proof.
  revert s. induction l1 as [|x l1 IH]; intros s; [done|].
  rewrite <- app_comm_cons, !forEach_cons.
  destruct (f x s) as [s'|e]; simpl; [apply IH | done].
Qed.

Lemma string_app_assoc (a b c : string) : (a +:+ b) +:+ c = a +:+ b +:+ c.
Proof.
  induction a as [|x a IH]; [done|].
  change (String x ((a +:+ b) +:+ c) = String x (a +:+ b +:+ c)). by f_equal.
Qed.

(** ** Pool membership *)

Lemma inPool_true pool n :
  inPool pool n = true ↔ ∃ d, d ∈ pool ∧ nameOf d = Some n.
Proof.
  unfold inPool. rewrite existsb_exists. split.
  - intros (d & Hd & Hn). exists d. split; [by apply list_elem_of_In|].
    by apply bool_decide_eq_true in Hn.
  - intros (d & Hd & Hn). exists d. split; [by apply list_elem_of_In|].
    by apply bool_decide_eq_true.
Qed.

Lemma inPool_false pool n :
  inPool pool n = false ↔ ∀ d, d ∈ pool → nameOf d ≠ Some n.
Proof.
  rewrite <- not_true_iff_false, inPool_true. split.
  - intros H d Hd Hn. apply H. eauto.
  - intros H (d & Hd & Hn). by eapply H.
Qed.

Lemma inPool_mono pool pool' n :
  (∀ d, d ∈ pool → ∃ d', d' ∈ pool' ∧ nameOf d' = nameOf d) →
  inPool pool n = true → inPool pool' n = true.
Proof.
  rewrite !inPool_true. intros H (d & Hd & Hn).
  destruct (H d Hd) as (d' & ? & Heq). exists d'. by rewrite Heq.
Qed.

Lemma inPool_app pool c n :
  inPool (pool ++ c) n = inPool pool n || inPool c n.
Proof. unfold inPool. apply existsb_app. Qed.

Lemma defName_nameOf d n : nameOf d = Some n → defName d = n.
Proof. unfold defName. by intros ->. Qed.

(** ** [keyBy] *)

Section keyBy_facts.
Context {A : Type} (key : A → string).

Lemma keyBy_snoc l x : keyBy key (l ++ [x]) = <[key x := x]> (keyBy key l).
Proof. unfold keyBy. by rewrite foldl_app. Qed.

  (** Later elements overwrite earlier ones: a key maps to its last
      element. *)
Lemma keyBy_lookup l k :
    keyBy key l !! k = last (filter (λ x, key x = k) l).
Proof.
    induction l as [|x l IH] using rev_ind; [done|].
    rewrite keyBy_snoc, filter_app, lookup_insert.
    rewrite filter_cons, filter_nil.
    case_decide as Hk; simplify_eq.
    - by rewrite last_snoc.
    - by rewrite app_nil_r.
Qed.

  (** Keyed after a reversal, a key maps to its first element. *)
Lemma keyBy_reverse_lookup l k :
    keyBy key (reverse l) !! k = head (filter (λ x, key x = k) l).
Proof.
    induction l as [|x l IH]; [done|].
    rewrite reverse_cons, keyBy_snoc, lookup_insert, filter_cons.
    case_decide as Hk; by simplify_eq.
Qed.

Lemma keyBy_lookup_Some l k x :
    keyBy key l !! k = Some x → x ∈ l ∧ key x = k.
Proof.
    rewrite keyBy_lookup. intros H%last_Some_elem_of.
    by apply list_elem_of_filter in H as [? ?].
Qed.

Lemma keyBy_lookup_None l k :
    keyBy key l !! k = None ↔ ∀ x, x ∈ l → key x ≠ k.
Proof.
    rewrite keyBy_lookup, last_None. split.
    - intros H x Hx Hk.
      assert (x ∈ filter (λ x, key x = k) l) as Hin by by apply list_elem_of_filter.
      rewrite H in Hin. by apply not_elem_of_nil in Hin.
    - intros H. induction l as [|x l IH]; [done|].
      rewrite filter_cons_False by (apply H; left).
      apply IH. intros y Hy. apply H. by right.
Qed.
End keyBy_facts.

(** ** [uniqBy] *)

Section uniqBy_facts.
Context {A K : Type} `{EqDecision K} (key : A → K).
Implicit Types (l : list A) (seen : list K).

Lemma uniqByFrom_proper seen1 seen2 l :
    (∀ k, k ∈ seen1 ↔ k ∈ seen2) →
    uniqByFrom key seen1 l = uniqByFrom key seen2 l.
Proof.
    revert seen1 seen2. induction l as [|x l IH]; intros s1 s2 Hs; [done|].
    simpl. rewrite (bool_decide_ext _ _ (Hs (key x))).
    case_bool_decide; [by apply IH|].
    f_equal. apply IH. intros k. rewrite !elem_of_cons. naive_solver.
Qed.

Lemma elem_of_uniqByFrom seen l x :
    x ∈ uniqByFrom key seen l → x ∈ l ∧ key x ∉ seen.
Proof.
    revert seen. induction l as [|y l IH]; intros seen; simpl.
    - by intros ?%not_elem_of_nil.
    - case_bool_decide as Hy.
      + intros [? ?]%IH. split; [by right | done].
      + intros [->|[? Hn]%IH]%elem_of_cons.
        * split; [by left | done].
        * split; [by right|]. intros ?. apply Hn. by right.
Qed.

Lemma uniqByFrom_keys seen l k :
    k ∈ key <$> uniqByFrom key seen l ↔ k ∈ key <$> l ∧ k ∉ seen.
Proof.
    revert seen. induction l as [|y l IH]; intros seen; simpl.
    - split; [by intros ?%not_elem_of_nil | by intros [?%not_elem_of_nil ?]].
    - case_bool_decide as Hy.
      + rewrite IH, elem_of_cons. naive_solver.
      + rewrite fmap_cons, !elem_of_cons, IH, elem_of_cons.
        destruct (decide (k = key y)); naive_solver.
Qed.

Lemma uniqBy_keys l k : k ∈ key <$> uniqBy key l ↔ k ∈ key <$> l.
Proof.
    unfold uniqBy. rewrite uniqByFrom_keys.
    split; [by intros [? _] | intros ?; split; [done | apply not_elem_of_nil]].
Qed.

Lemma elem_of_uniqBy l x : x ∈ uniqBy key l → x ∈ l.
Proof. by intros [? _]%elem_of_uniqByFrom. Qed.

Lemma uniqByFrom_app seen l1 l2 :
    uniqByFrom key seen (l1 ++ l2)
    = uniqByFrom key seen l1 ++ uniqByFrom key ((key <$> l1) ++ seen) l2.
Proof.
    revert seen. induction l1 as [|x l1 IH]; intros seen; [done|].
    simpl. case_bool_decide as Hx.
    - rewrite IH. f_equal. apply uniqByFrom_proper. intros k.
      rewrite elem_of_cons, !elem_of_app. naive_solver.
    - rewrite IH. simpl. do 2 f_equal. apply uniqByFrom_proper. intros k.
      rewrite elem_of_cons, !elem_of_app, elem_of_cons. naive_solver.
Qed.

Lemma uniqByFrom_seen seen l :
    (∀ x, x ∈ l → key x ∈ seen) → uniqByFrom key seen l = [].
Proof.
    induction l as [|x l IH]; intros H; [done|].
    simpl. rewrite bool_decide_eq_true_2 by (apply H; left).
    apply IH. intros y Hy. apply H. by right.
Qed.

Lemma uniqByFrom_NoDup seen l : NoDup (key <$> uniqByFrom key seen l).
Proof.
    revert seen. induction l as [|x l IH]; intros seen; simpl.
    - constructor.
    - case_bool_decide as Hx; [apply IH|].
      rewrite fmap_cons. constructor; [|apply IH].
      rewrite uniqByFrom_keys. intros [_ Hn]. apply Hn. by left.
Qed.

Lemma uniqBy_NoDup l : NoDup (key <$> uniqBy key l).
Proof. apply uniqByFrom_NoDup. Qed.

Lemma uniqByFrom_id seen l :
    NoDup (key <$> l) → (∀ x, x ∈ l → key x ∉ seen) →
    uniqByFrom key seen l = l.
Proof.
    revert seen. induction l as [|x l IH]; intros seen Hnd Hs; [done|].
    rewrite fmap_cons in Hnd. apply NoDup_cons in Hnd as [Hx Hnd].
    simpl. rewrite bool_decide_eq_false_2 by (apply Hs; left).
    f_equal. apply IH; [done|]. intros y Hy [Heq|?]%elem_of_cons.
    - apply Hx. rewrite <- Heq. by apply list_elem_of_fmap_2.
    - eapply Hs; [by right | done].
Qed.

Lemma uniqBy_id l : NoDup (key <$> l) → uniqBy key l = l.
Proof. intros. apply uniqByFrom_id; [done|]. intros ? _. apply not_elem_of_nil. Qed.

Lemma uniqBy_idemp l : uniqBy key (uniqBy key l) = uniqBy key l.
Proof. apply uniqBy_id, uniqBy_NoDup. Qed.

  (** Appending elements whose keys already occur changes nothing. *)
Lemma uniqBy_app_seen l c :
    (∀ x, x ∈ c → key x ∈ key <$> l) → uniqBy key (l ++ c) = uniqBy key l.
Proof.
    intros H. unfold uniqBy. rewrite uniqByFrom_app.
    rewrite (uniqByFrom_seen _ c).
    - by rewrite app_nil_r.
    - intros x Hx. rewrite app_nil_r. by apply H.
Qed.

Lemma uniqBy_app_congr l1 l2 c :
    uniqBy key l1 = uniqBy key l2 → uniqBy key (l1 ++ c) = uniqBy key (l2 ++ c).
Proof.
    intros Heq. unfold uniqBy. rewrite !uniqByFrom_app.
    fold (uniqBy key l1) (uniqBy key l2). rewrite Heq. f_equal.
    apply uniqByFrom_proper. intros k. rewrite !app_nil_r.
    by rewrite <- (uniqBy_keys l1), <- (uniqBy_keys l2), Heq.
Qed.

  (** A duplicate inserted after an element of the same key is dropped. *)
Lemma uniqBy_insert_seen l1 x l2 :
    key x ∈ key <$> l1 → uniqBy key (l1 ++ x :: l2) = uniqBy key (l1 ++ l2).
Proof.
    intros Hx. unfold uniqBy. rewrite !uniqByFrom_app. f_equal.
    simpl. rewrite bool_decide_eq_true_2; [done|].
    rewrite app_nil_r. done.
Qed.

Lemma uniqBy_snoc_new l x :
    key x ∉ key <$> l → uniqBy key (l ++ [x]) = uniqBy key l ++ [x].
Proof.
    intros Hx. unfold uniqBy. rewrite uniqByFrom_app. f_equal.
    simpl. rewrite bool_decide_eq_false_2; [done|].
    by rewrite app_nil_r.
Qed.
End uniqBy_facts.

(** ** What one call of [collectNewTypeDefinitions] does *)

(** Induction over selections, with the hypothesis available for every
    nested selection. *)
Lemma SelectionNode_nested_ind (P : SelectionNode → Prop) :
  (∀ n ds sels, Forall P sels → P (Field n ds sels)) →
  (∀ n ds, P (FragmentSpread n ds)) →
  (∀ ds sels, Forall P sels → P (InlineFragment ds sels)) →
  ∀ s, P s.
Proof.
  intros HF HS HI. fix IH 1. intros [n ds sels|n ds|ds sels].
  - apply HF. induction sels as [|s sels IHs]; constructor; [apply IH | apply IHs].
  - apply HS.
  - apply HI. induction sels as [|s sels IHs]; constructor; [apply IH | apply IHs].
Qed.

Lemma forEach_Ok_each {A S} (f : A → S → Result S) l s s' :
  forEach f l s = Ok s' → ∀ x, x ∈ l → ∃ a a', f x a = Ok a'.
Proof.
  revert s. induction l as [|y l IH]; intros s H x Hx.
  - by apply not_elem_of_nil in Hx.
  - rewrite forEach_cons in H. apply bind_Ok in H as (a & Hy & Hl).
    apply elem_of_cons in Hx as [->|Hx]; [eauto | by eapply IH].
Qed.

Section collect_facts.
Variables (allDefinitions definitionPool : list DefinitionNode).
Variable schemaMap : gmap string DefinitionNode.
Hypothesis schemaMap_sound :
    ∀ k m, schemaMap !! k = Some m → m ∈ allDefinitions ∧ defName m = k.

Local Abbreviation pool := definitionPool.

Local Abbreviation resolved := (Resolved definitionPool schemaMap).
Local Abbreviation adds := (Adds allDefinitions definitionPool schemaMap).

Lemma Resolved_mono added1 added added2 r :
    resolved added r → resolved (added1 ++ added ++ added2) r.
Proof.
    intros [?|[?|(m & ? & ?)]]; [by left | by right; left |].
    right; right. exists m. split; [done|]. rewrite !elem_of_app. auto.
Qed.

Lemma Adds_ret : adds Ok [].
Proof.
    intros acc acc' [= <-]. exists []. by rewrite app_nil_r.
Qed.

Lemma Adds_seq f g r1 r2 :
    adds f r1 → adds g r2 → adds (λ acc, f acc ≫= g) (r1 ++ r2).
Proof.
    intros Hf Hg acc acc' (a & H1 & H2)%bind_Ok.
    destruct (Hf _ _ H1) as (add1 & -> & Hall1 & Hres1).
    destruct (Hg _ _ H2) as (add2 & -> & Hall2 & Hres2).
    exists (add1 ++ add2). split; [by rewrite app_assoc|].
    split; [by apply Forall_app|]. apply Forall_app. split.
    - eapply Forall_impl; [exact Hres1|]. intros r Hr.
      by apply (Resolved_mono [] add1 add2).
    - eapply Forall_impl; [exact Hres2|]. intros r Hr.
      rewrite <- (app_nil_r add2). by apply (Resolved_mono add1 add2 []).
Qed.

Lemma directiveRefs_bind ds :
    directiveRefs ds = ds ≫= (λ d, [(DirectiveUse, dir_name d)]).
Proof. induction ds as [|d ds IH]; [done|]. simpl. by f_equal. Qed.

Lemma Adds_forEach {A} (f : A → Collector) (refs : A → list (RefKind * string)) l :
    (∀ x, x ∈ l → adds (f x) (refs x)) → adds (forEach f l) (l ≫= refs).
Proof.
    induction l as [|x l IH]; intros Hf; [apply Adds_ret|].
    change (adds (λ acc, f x acc ≫= forEach f l) (refs x ++ (l ≫= refs))).
    apply Adds_seq; [apply Hf; left|]. apply IH. intros y Hy. apply Hf. by right.
Qed.

Lemma Adds_weaken f refs refs' :
    refs' ⊆ refs → adds f refs → adds f refs'.
Proof.
    intros Hsub Hf acc acc' H. destruct (Hf _ _ H) as (added & ? & ? & Hres).
    exists added. split_and!; [done..|].
    apply Forall_forall. intros r Hr. eapply Forall_forall in Hres; eauto.
Qed.

Lemma Adds_ext f g refs : (∀ acc, f acc = g acc) → adds f refs → adds g refs.
Proof. intros Heq Hf acc acc' H. apply Hf. by rewrite Heq. Qed.

Lemma Adds_collectNamed notFound n :
    adds (collectNamed pool schemaMap notFound n) [(NameUse, n)].
Proof.
    intros acc acc'. unfold collectNamed.
    destruct (inPool pool n) eqn:Hin; simpl.
    - intros [= <-]. exists []. rewrite app_nil_r. split_and!; [done..|].
      constructor; [|done]. by right; left.
    - destruct (schemaMap !! n) as [m|] eqn:Hm; [|done].
      intros [= <-]. exists [m]. split_and!; [done| |].
      + constructor; [|done]. by apply schemaMap_sound in Hm as [? _].
      + constructor; [|done]. right; right. exists m. split; [done | by left].
Qed.

Lemma Adds_collectNodeWith cd node :
    (∀ d, adds (cd d) [(DirectiveUse, dir_name d)]) →
    adds (collectNodeWith pool schemaMap cd node) (nodeRefs node).
Proof.
    intros Hcd. unfold collectNodeWith, nodeRefs.
    apply (Adds_seq _ _ [_]).
    - intros acc acc'.
      destruct (negb (inPool pool _) && negb (includes builtinTypes _)) eqn:Hc.
      + destruct (schemaMap !! _) as [m|] eqn:Hm; [|done].
        intros [= <-]. exists [m]. split_and!; [done| |].
        * constructor; [|done]. by apply schemaMap_sound in Hm as [? _].
        * constructor; [|done]. right; right. exists m. split; [done | by left].
      + intros [= <-]. exists []. rewrite app_nil_r. split_and!; [done..|].
        constructor; [|done].
        apply andb_false_iff in Hc as [Hc|Hc]; apply negb_false_iff in Hc.
        * by right; left.
        * left. by apply bool_decide_eq_true in Hc.
    - rewrite directiveRefs_bind. by apply Adds_forEach.
Qed.

Lemma Adds_collectDirective depth d :
    adds (collectDirective pool schemaMap depth d) [(DirectiveUse, dir_name d)].
Proof.
    revert d. induction depth as [|depth IH]; intros d acc acc'; simpl;
      (destruct (negb (inPool pool _) && negb (includes builtinDirectives _)) eqn:Hc;
       [| intros [= <-]; exists []; rewrite app_nil_r; split_and!; [done..|];
          constructor; [|done];
          apply andb_false_iff in Hc as [Hc|Hc]; apply negb_false_iff in Hc;
          [by right; left | left; by apply bool_decide_eq_true in Hc] ]);
      destruct (schemaMap !! _) as [m|] eqn:Hm; [|done| |done];
      destruct m; try done.
    intros (a & Ha & [= <-])%bind_Ok.
    eapply (Adds_forEach _ nodeRefs) in Ha as (added & -> & Hall & _);
      [|intros x _; by apply Adds_collectNodeWith].
    eexists (added ++ [_]). split; [by rewrite app_assoc|]. split.
    - apply Forall_app. split; [done|]. constructor; [|done].
      by apply schemaMap_sound in Hm as [? _].
    - constructor; [|done]. right; right. eexists. split; [exact Hm|].
      apply elem_of_app. right. by left.
Qed.

Lemma Adds_collectNode node :
    adds (collectNode allDefinitions pool schemaMap node) (nodeRefs node).
Proof. apply Adds_collectNodeWith. intros d. apply Adds_collectDirective. Qed.

Lemma Adds_collectField f :
    adds (collectField allDefinitions pool schemaMap f) (fieldRefs f).
Proof.
    destruct f as [n args t ds|node|]; simpl.
    - apply (Adds_collectNode {| iv_name := n; iv_type := t; iv_directives := ds |}).
    - apply Adds_collectNode.
    - by intros ? ?.
Qed.

Lemma Adds_collectArguments f :
    adds (collectArguments allDefinitions pool schemaMap f) (argumentRefs f).
Proof.
    destruct f as [n args t ds|node|]; simpl; [|by intros ? ?..].
    apply Adds_forEach. intros x _. apply Adds_collectNode.
Qed.

Lemma Adds_directives ds :
    adds (forEach (collectDirective pool schemaMap (stackDepth allDefinitions)) ds)
      (directiveRefs ds).
Proof.
    rewrite directiveRefs_bind. apply Adds_forEach. intros d _.
    apply Adds_collectDirective.
Qed.

Lemma Adds_collectFragments s :
    adds (collectFragments allDefinitions pool schemaMap s) (selectionRefs s).
Proof.
    induction s as [n ds sels IH|n ds|ds sels IH] using SelectionNode_nested_ind;
      simpl; [|apply Adds_collectNamed|].
    - apply Adds_forEach. intros x Hx.
      apply (Adds_seq _ (collectFragments _ _ _ x)); [apply Adds_directives|].
      eapply Forall_forall in IH; eauto.
    - apply Adds_forEach. intros x Hx.
      apply (Adds_seq _ (collectFragments _ _ _ x)); [apply Adds_directives|].
      eapply Forall_forall in IH; eauto.
Qed.

Lemma Adds_append extra :
    Forall (λ m, m ∈ allDefinitions) extra → adds (λ acc, Ok (acc ++ extra)) [].
Proof. intros H acc acc' [= <-]. exists extra. by split_and!. Qed.

Lemma fmap_bind_singleton {A B} (g : A → B) (l : list A) : g <$> l = l ≫= (λ x, [g x]).
Proof. induction l as [|x l IH]; [done|]. simpl. by f_equal. Qed.

  (** What a successful call guarantees. *)
Lemma collect_Ok d c :
    collectNewTypeDefinitions allDefinitions pool schemaMap d = Ok c →
    Forall (λ m, m ∈ allDefinitions) c
    ∧ Forall (resolved c) (references d)
    ∧ implementations allDefinitions d ⊆ c.
Proof.
    intros H.
    assert (∀ ds k refs, adds k refs →
             forEach (collectDirective pool schemaMap (stackDepth allDefinitions)) ds []
               ≫= k = Ok c →
             Forall (λ m, m ∈ allDefinitions) c
             ∧ Forall (resolved c) (directiveRefs ds ++ refs)) as Hrun.
    { intros ds k refs Hk Hc.
      pose proof (Adds_seq _ _ _ _ (Adds_directives ds) Hk) as Hf.
      destruct (Hf _ _ Hc) as (added & -> & ? & ?). done. }
    unfold collectNewTypeDefinitions, references in *.
    destruct d as [ds ops|n ds|n ifs ds fs|n ds fs|n ds ts|n ds vs|n ds fs
                  |n args|n ds sels|n tc ds sels];
      cbn [directivesOf implementations] in *; cbv beta iota in *;
      apply and_assoc.
    - split; [eapply Hrun; [|exact H] | set_solver].
      rewrite fmap_bind_singleton.
      apply (Adds_forEach (λ o, collectNamed _ _ _ (ot_type o))). intros o _.
      apply Adds_collectNamed.
    - split; [eapply Hrun; [|exact H] | set_solver].
      apply Adds_ret.
    - split; [eapply Hrun; [|exact H] | set_solver].
      apply (Adds_seq (forEach _ ifs)).
      + rewrite fmap_bind_singleton. apply Adds_forEach. intros o _.
        apply Adds_collectNamed.
      + apply (Adds_forEach (λ field a, _ ≫= _) (λ f, fieldRefs f ++ argumentRefs f)).
        intros f _. apply Adds_seq; [apply Adds_collectField | apply Adds_collectArguments].
    - split.
      + rewrite <- (app_nil_r (fs ≫= fieldRefs)). eapply Hrun; [|exact H].
        apply (Adds_seq (forEach _ fs) _ (fs ≫= fieldRefs) []).
        * apply Adds_forEach. intros f _. apply Adds_collectField.
        * apply Adds_append. apply Forall_forall. intros x Hx.
          by apply list_elem_of_filter in Hx as [_ ?].
      + apply bind_Ok in H as (a1 & _ & (a2 & _ & [= <-])%bind_Ok).
        intros x Hx. apply elem_of_app. by right.
    - split; [eapply Hrun; [|exact H] | set_solver].
      rewrite fmap_bind_singleton. apply Adds_forEach. intros o _.
      apply Adds_collectNamed.
    - split; [eapply Hrun; [|exact H] | set_solver].
      apply (Adds_forEach (λ v, forEach _ (ev_directives v))). intros v _.
      apply Adds_directives.
    - split; [eapply Hrun; [|exact H] | set_solver].
      apply Adds_forEach. intros f _. apply Adds_collectField.
    - injection H as <-. split; [done|set_solver].
    - split; [eapply Hrun; [|exact H] | set_solver].
      apply Adds_forEach. intros f _. apply Adds_collectFragments.
    - split; [eapply Hrun; [|exact H] | set_solver].
      apply Adds_forEach. intros f _. apply Adds_collectFragments.
Qed.

  (** *** Nothing is looked up when every reference is settled *)

Local Abbreviation settled := (Settled definitionPool).

Lemma Quiet_seq (f g : Collector) : Quiet f → Quiet g → Quiet (λ acc, f acc ≫= g).
Proof. intros Hf Hg acc. rewrite Hf. apply Hg. Qed.

Lemma Quiet_forEach {A} (f : A → Collector) l :
    (∀ x, x ∈ l → Quiet (f x)) → Quiet (forEach f l).
Proof.
    induction l as [|x l IH]; intros Hf acc; [done|].
    rewrite forEach_cons, (Hf x) by left. apply IH. intros y Hy. apply Hf. by right.
Qed.

Lemma Quiet_collectNamed notFound n :
    settled (NameUse, n) → Quiet (collectNamed pool schemaMap notFound n).
Proof. intros [[]|Hin] acc. unfold collectNamed. simpl in Hin. by rewrite Hin. Qed.

Lemma Quiet_collectDirective depth d :
    settled (DirectiveUse, dir_name d) → Quiet (collectDirective pool schemaMap depth d).
Proof.
    intros Hs acc.
    assert (negb (inPool pool (dir_name d))
            && negb (includes builtinDirectives (dir_name d)) = false) as Hc.
    { destruct Hs as [Hs|Hs]; simpl in Hs.
      - apply andb_false_iff. right. apply negb_false_iff. by apply bool_decide_eq_true.
      - by rewrite Hs. }
    destruct depth; simpl; by rewrite Hc.
Qed.

Lemma Quiet_directives ds :
    Forall settled (directiveRefs ds) →
    Quiet (forEach (collectDirective pool schemaMap (stackDepth allDefinitions)) ds).
Proof.
    intros Hs. apply Quiet_forEach. intros d Hd. apply Quiet_collectDirective.
    eapply Forall_forall in Hs; [exact Hs|].
    unfold directiveRefs. by apply (list_elem_of_fmap_2 (λ d, (DirectiveUse, dir_name d))).
Qed.

Lemma Quiet_collectNode node :
    Forall settled (nodeRefs node) → Quiet (collectNode allDefinitions pool schemaMap node).
Proof.
    unfold nodeRefs. intros [Ht Hds]%Forall_cons acc.
    unfold collectNode, collectNodeWith.
    assert (negb (inPool pool (getNamedType (iv_type node)))
            && negb (includes builtinTypes (getNamedType (iv_type node))) = false) as ->.
    { destruct Ht as [Hs|Hs]; simpl in Hs.
      - apply andb_false_iff. right. apply negb_false_iff. by apply bool_decide_eq_true.
      - by rewrite Hs. }
    simpl. by apply Quiet_directives.
Qed.

Lemma Quiet_collectField f :
    f ≠ UndefinedEntry → Forall settled (fieldRefs f) →
    Quiet (collectField allDefinitions pool schemaMap f).
Proof.
    destruct f as [n args t ds|node|]; simpl; intros Hf Hs; [| |done].
    - by apply (Quiet_collectNode {| iv_name := n; iv_type := t; iv_directives := ds |}).
    - by apply Quiet_collectNode.
Qed.

Lemma Quiet_collectArguments n args t ds :
    Forall settled (argumentRefs (FieldDefinition n args t ds)) →
    Quiet (collectArguments allDefinitions pool schemaMap (FieldDefinition n args t ds)).
Proof.
    simpl. intros Hs. apply Quiet_forEach. intros x Hx. apply Quiet_collectNode.
    rewrite Forall_bind in Hs. eapply Forall_forall in Hs; [exact Hs | done].
Qed.

Lemma Quiet_collectFragments s :
    Forall settled (selectionRefs s) →
    Quiet (collectFragments allDefinitions pool schemaMap s).
Proof.
    induction s as [n ds sels IH|n ds|ds sels IH] using SelectionNode_nested_ind;
      simpl; intros Hs.
    - apply Quiet_forEach. intros x Hx. rewrite Forall_bind in Hs.
      eapply Forall_forall in Hs; [|exact Hx]. apply Forall_app in Hs as [? ?].
      apply (Quiet_seq _ (collectFragments _ _ _ x)); [by apply Quiet_directives|].
      eapply Forall_forall in IH; eauto.
    - apply Quiet_collectNamed. by apply Forall_cons in Hs as [? _].
    - apply Quiet_forEach. intros x Hx. rewrite Forall_bind in Hs.
      eapply Forall_forall in Hs; [|exact Hx]. apply Forall_app in Hs as [? ?].
      apply (Quiet_seq _ (collectFragments _ _ _ x)); [by apply Quiet_directives|].
      eapply Forall_forall in IH; eauto.
Qed.

Lemma Forall_fmap_settled {A} (g : A → RefKind * string) l x :
    Forall settled (g <$> l) → x ∈ l → settled (g x).
Proof.
    intros Hs Hx. eapply Forall_forall in Hs; [exact Hs|]. by apply list_elem_of_fmap_2.
Qed.

  (** With every reference settled, a well-shaped definition contributes
      exactly the implementations of the interface it may be. *)
Lemma collect_settled d :
    wellShaped d → Forall settled (references d) →
    collectNewTypeDefinitions allDefinitions pool schemaMap d
    = Ok (implementations allDefinitions d).
Proof.
    intros Hw Hs. unfold collectNewTypeDefinitions, references in *.
    destruct d as [ds ops|n ds|n ifs ds fs|n ds fs|n ds ts|n ds vs|n ds fs
                  |n args|n ds sels|n tc ds sels];
      cbn [directivesOf implementations wellShaped] in *; cbv beta iota in *;
      try done;
      apply Forall_app in Hs as [Hds Hs]; rewrite (Quiet_directives _ Hds), Ok_bind.
    - apply Quiet_forEach. intros o Ho. apply Quiet_collectNamed.
      by apply (Forall_fmap_settled (λ o, (NameUse, ot_type o)) ops).
    - done.
    - apply Forall_app in Hs as [Hifs Hfs].
      rewrite (Quiet_forEach (collectNamed pool schemaMap InterfaceNotFound) ifs), ?Ok_bind.
      + apply Quiet_forEach. intros f Hf. rewrite Forall_bind in Hfs.
        eapply Forall_forall in Hfs; [|exact Hf]. apply Forall_app in Hfs as [? ?].
        eapply Forall_forall in Hw; [|exact Hf]. destruct Hw as (? & ? & ? & ? & ->).
        apply (Quiet_seq (collectField _ _ _ _)); [by apply Quiet_collectField|].
        by apply Quiet_collectArguments.
      + intros i Hi. apply Quiet_collectNamed.
        by apply (Forall_fmap_settled (λ n, (NameUse, n)) ifs).
    - rewrite (Quiet_forEach (collectField allDefinitions pool schemaMap) fs); [done|].
      intros f Hf. rewrite Forall_bind in Hs.
      eapply Forall_forall in Hs; [|exact Hf]. eapply Forall_forall in Hw; [|exact Hf].
      by apply Quiet_collectField.
    - apply Quiet_forEach. intros t Ht. apply Quiet_collectNamed.
      by apply (Forall_fmap_settled (λ n, (NameUse, n)) ts).
    - apply Quiet_forEach. intros v Hv. apply Quiet_directives.
      rewrite Forall_bind in Hs. eapply Forall_forall in Hs; [exact Hs | done].
    - apply Quiet_forEach. intros f Hf. rewrite Forall_bind in Hs.
      eapply Forall_forall in Hs; [|exact Hf]. eapply Forall_forall in Hw; [|exact Hf].
      by apply Quiet_collectField.
    - apply Quiet_forEach. intros x Hx. apply Quiet_collectFragments.
      rewrite Forall_bind in Hs. eapply Forall_forall in Hs; [exact Hs | done].
    - apply Quiet_forEach. intros x Hx. apply Quiet_collectFragments.
      rewrite Forall_bind in Hs. eapply Forall_forall in Hs; [exact Hs | done].
Qed.

  (** A call that returns found every [fields] array well shaped. *)
Lemma collect_Ok_wellShaped d c :
    collectNewTypeDefinitions allDefinitions pool schemaMap d = Ok c → wellShaped d.
Proof.
    unfold collectNewTypeDefinitions.
    destruct d as [ds ops|n ds|n ifs ds fs|n ds fs|n ds ts|n ds vs|n ds fs
                  |n args|n ds sels|n tc ds sels]; try done;
      cbn [directivesOf wellShaped]; cbv beta iota;
      intros (a & _ & H)%bind_Ok.
    - apply bind_Ok in H as (a1 & _ & H). apply Forall_forall. intros f Hf.
      eapply forEach_Ok_each in H as (b & b' & Hb); [|exact Hf].
      apply bind_Ok in Hb as (b1 & _ & Hb). destruct f; [eauto 6|done..].
    - apply bind_Ok in H as (a1 & H & _). apply Forall_forall. intros f Hf.
      eapply forEach_Ok_each in H as (b & b' & Hb); [|exact Hf]. by intros ->.
    - apply Forall_forall. intros f Hf.
      eapply forEach_Ok_each in H as (b & b' & Hb); [|exact Hf]. by intros ->.
Qed.

  (** *** Which errors a call can raise *)

Local Abbreviation fails := (Fails definitionPool schemaMap).
Local Abbreviation sound := (Sound definitionPool schemaMap).

Lemma Fails_ret : fails Ok.
Proof. by intros ? ?. Qed.

Lemma Fails_seq (f g : Collector) : fails f → fails g → fails (λ acc, f acc ≫= g).
Proof. intros Hf Hg acc e [?|(a & _ & ?)]%bind_Throw; [by eapply Hf | by eapply Hg]. Qed.

Lemma Fails_forEach {A} (f : A → Collector) l :
    (∀ x, x ∈ l → fails (f x)) → fails (forEach f l).
Proof.
    induction l as [|x l IH]; intros Hf; [apply Fails_ret|].
    change (fails (λ acc, f x acc ≫= forEach f l)).
    apply Fails_seq; [apply Hf; left|]. apply IH. intros y Hy. apply Hf. by right.
Qed.

Lemma Fails_collectNamed notFound n :
    missingIdentity (notFound n) = Some n →
    fails (collectNamed pool schemaMap notFound n).
Proof.
    intros Hn acc e. unfold collectNamed.
    destruct (inPool pool n) eqn:Hin; simpl; [done|].
    destruct (schemaMap !! n) eqn:Hm; [done|].
    intros [= <-]. right; right. by exists n.
Qed.

Lemma Fails_collectNodeWith cd node :
    (∀ d, fails (cd d)) → fails (collectNodeWith pool schemaMap cd node).
Proof.
    intros Hcd. unfold collectNodeWith. apply Fails_seq.
    - intros acc e.
      destruct (negb (inPool pool _) && negb (includes builtinTypes _)) eqn:Hc; [|done].
      destruct (schemaMap !! _) eqn:Hm; [done|].
      intros [= <-]. right; right. eexists. split_and!; [done| |done].
      apply andb_true_iff in Hc as [Hc _]. by apply negb_true_iff in Hc.
    - by apply Fails_forEach.
Qed.

Lemma Fails_collectDirective depth d :
    fails (collectDirective pool schemaMap depth d).
Proof.
    revert d. induction depth as [|depth IH]; intros d acc e; simpl;
      (destruct (negb (inPool pool _) && negb (includes builtinDirectives _)) eqn:Hc;
       [|done]);
      (destruct (schemaMap !! _) as [m|] eqn:Hm;
       [| intros [= <-]; right; right; eexists; split_and!; [done| |done];
          apply andb_true_iff in Hc as [Hc _]; by apply negb_true_iff in Hc]);
      destruct m; try (intros [= <-]; by left);
      try (intros [= <-]; by right; left).
    intros [H|(a & _ & ?)]%bind_Throw; [|done].
    eapply Fails_forEach in H; [done|]. intros x _. by apply Fails_collectNodeWith.
Qed.

Lemma Fails_directives ds :
    fails (forEach (collectDirective pool schemaMap (stackDepth allDefinitions)) ds).
Proof. apply Fails_forEach. intros d _. apply Fails_collectDirective. Qed.

Lemma Fails_collectNode node :
    fails (collectNode allDefinitions pool schemaMap node).
Proof. apply Fails_collectNodeWith. intros d. apply Fails_collectDirective. Qed.

Lemma Fails_collectField f :
    fails (collectField allDefinitions pool schemaMap f).
Proof.
    destruct f as [n args t ds|node|]; simpl.
    - apply (Fails_collectNode {| iv_name := n; iv_type := t; iv_directives := ds |}).
    - apply Fails_collectNode.
    - intros ? ? [= <-]. by left.
Qed.

Lemma Fails_collectArguments f :
    fails (collectArguments allDefinitions pool schemaMap f).
Proof.
    destruct f as [n args t ds|node|]; simpl; [|intros ? ? [= <-]; by left..].
    apply Fails_forEach. intros x _. apply Fails_collectNode.
Qed.

Lemma Fails_collectFragments s :
    fails (collectFragments allDefinitions pool schemaMap s).
Proof.
    induction s as [n ds sels IH|n ds|ds sels IH] using SelectionNode_nested_ind;
      simpl; [|by apply Fails_collectNamed|].
    - apply Fails_forEach. intros x Hx.
      apply (Fails_seq _ (collectFragments _ _ _ x)); [apply Fails_directives|].
      eapply Forall_forall in IH; [exact IH | done].
    - apply Fails_forEach. intros x Hx.
      apply (Fails_seq _ (collectFragments _ _ _ x)); [apply Fails_directives|].
      eapply Forall_forall in IH; [exact IH | done].
Qed.

  (** An error of [collectNewTypeDefinitions] is a [TypeError], a stack
      overflow, or names an identity that is in neither the pool nor the
      lookup map. *)
Lemma collect_Throw d e :
    collectNewTypeDefinitions allDefinitions pool schemaMap d = Throw e → sound e.
Proof.
    intros H.
    assert (∀ ds k, fails k →
             forEach (collectDirective pool schemaMap (stackDepth allDefinitions)) ds []
               ≫= k = Throw e → sound e) as Hrun.
    { intros ds k Hk Hc.
      by apply (Fails_seq _ _ (Fails_directives ds) Hk []). }
    unfold collectNewTypeDefinitions in H.
    destruct d as [ds ops|n ds|n ifs ds fs|n ds fs|n ds ts|n ds vs|n ds fs
                  |n args|n ds sels|n tc ds sels];
      cbn [directivesOf] in *; cbv beta iota in *; try done;
      (eapply Hrun; [|exact H]).
    - apply Fails_forEach. intros o _. by apply Fails_collectNamed.
    - apply Fails_ret.
    - apply (Fails_seq (forEach _ ifs)).
      + apply Fails_forEach. intros o _. by apply Fails_collectNamed.
      + apply Fails_forEach. intros f _.
        apply (Fails_seq (collectField _ _ _ f)); [apply Fails_collectField|].
        apply Fails_collectArguments.
    - apply (Fails_seq (forEach _ fs)).
      + apply Fails_forEach. intros f _. apply Fails_collectField.
      + by intros ? ?.
    - apply Fails_forEach. intros o _. by apply Fails_collectNamed.
    - apply Fails_forEach. intros v _. apply Fails_directives.
    - apply Fails_forEach. intros f _. apply Fails_collectField.
    - apply Fails_forEach. intros f _. apply Fails_collectFragments.
    - apply Fails_forEach. intros f _. apply Fails_collectFragments.
Qed.

  (** A reference that is missing everywhere makes the call fail. *)
Lemma collect_missing d r :
    r ∈ references d → ¬ allowlisted r.1 r.2 →
    inPool pool r.2 = false → schemaMap !! r.2 = None →
    ∃ e, collectNewTypeDefinitions allDefinitions pool schemaMap d = Throw e.
Proof.
    intros Hr Hal Hin Hm.
    destruct (collectNewTypeDefinitions _ _ _ d) as [c|e] eqn:H; [|by eexists].
    apply collect_Ok in H as (_ & Hres & _).
    eapply Forall_forall in Hres; [|exact Hr].
    destruct Hres as [?|[Hp|(m & Hm' & _)]]; [done| |].
    - by rewrite Hin in Hp.
    - by rewrite Hm in Hm'.
Qed.
End collect_facts.

(** ** The worklist loop *)

Lemma completeLoop_nil fuel all visited pool :
  completeLoop fuel all visited pool [] = Some (Ok (all, uniqBy nameOf pool)).
Proof. by destruct fuel. Qed.

Lemma completeLoop_skip fuel all visited pool d rest :
  defName d ∈ visited →
  completeLoop fuel all visited pool (d :: rest)
  = completeLoop fuel (reverse all) visited pool rest.
Proof. intros Hv. destruct fuel; simpl; by rewrite bool_decide_eq_true_2. Qed.

Lemma completeLoop_out_of_fuel all visited pool d rest :
  defName d ∉ visited → completeLoop 0 all visited pool (d :: rest) = None.
Proof. intros Hv. simpl. by rewrite bool_decide_eq_false_2. Qed.

Lemma completeLoop_process fuel all visited pool d rest :
  defName d ∉ visited →
  completeLoop (S fuel) all visited pool (d :: rest)
  = match collectNewTypeDefinitions (reverse all) pool
            (keyBy defName (reverse all)) d with
    | Throw e => Some (Throw e)
    | Ok c => completeLoop fuel (reverse all) ({[defName d]} ∪ visited)
                (pool ++ c) (rest ++ c)
    end.
Proof. intros Hv. simpl. by rewrite bool_decide_eq_false_2. Qed.

Lemma keyBy_defName_sound all k m :
  keyBy defName all !! k = Some m → m ∈ all ∧ defName m = k.
Proof. apply keyBy_lookup_Some. Qed.

(** The set of names that can ever be marked as visited. *)
Lemma completeLoop_is_Some fuel all visited pool work :
  size (list_to_set (defName <$> (all ++ work)) ∖ visited : gset string) ≤ fuel →
  is_Some (completeLoop fuel all visited pool work).
Proof.
  revert all visited pool work.
  induction fuel as [|fuel IHfuel]; intros all visited pool work;
    revert all visited pool; induction work as [|d rest IHwork];
    intros all visited pool Hsize;
    try (rewrite completeLoop_nil; by eexists).
  - destruct (decide (defName d ∈ visited)) as [Hv|Hv].
    + rewrite completeLoop_skip by done. apply IHwork.
      etrans; [|exact Hsize]. apply subseteq_size.
      rewrite !fmap_app, !list_to_set_app_L, fmap_reverse, fmap_cons.
      set_solver.
    + exfalso.
      assert (defName d ∈ (list_to_set (defName <$> all ++ d :: rest) ∖ visited : gset string))
        as Hin by (rewrite fmap_app, fmap_cons; set_solver).
      assert (size (list_to_set (defName <$> all ++ d :: rest) ∖ visited : gset string) = 0)
        as Hz%size_empty_inv by lia.
      set_solver.
  - destruct (decide (defName d ∈ visited)) as [Hv|Hv].
    + rewrite completeLoop_skip by done. apply IHwork.
      etrans; [|exact Hsize]. apply subseteq_size.
      rewrite !fmap_app, !list_to_set_app_L, fmap_reverse, fmap_cons.
      set_solver.
    + rewrite completeLoop_process by done.
      destruct (collectNewTypeDefinitions _ _ _ d) as [c|e] eqn:Hc; [|by eexists].
      apply collect_Ok in Hc as (Hall & _); [|apply keyBy_defName_sound].
      apply IHfuel.
      assert (list_to_set (defName <$> reverse all ++ rest ++ c)
                ∖ ({[defName d]} ∪ visited)
              ⊂ (list_to_set (defName <$> all ++ d :: rest) ∖ visited : gset string))
        as Hsub%subset_size; [|lia].
      assert (list_to_set (defName <$> c) ⊆ (list_to_set (defName <$> all) : gset string)).
      { intros n (x & -> & Hx)%elem_of_list_to_set%list_elem_of_fmap.
        eapply Forall_forall in Hall; [|exact Hx].
        apply elem_of_list_to_set, list_elem_of_fmap_2. by apply elem_of_reverse. }
      rewrite !fmap_app, !list_to_set_app_L, fmap_reverse, fmap_cons.
      split; [set_solver|].
      intros Hsub. specialize (Hsub (defName d)). set_solver.
Qed.

Lemma size_list_to_set_le (l : list string) :
  size (list_to_set l : gset string) ≤ length l.
Proof.
  induction l as [|x l IH]; [done|].
  rewrite list_to_set_cons, size_union_alt, size_singleton. simpl.
  apply le_n_S. etrans; [|exact IH]. apply subseteq_size. set_solver.
Qed.

(** The fuel that [completeDefinitionPool] supplies is always enough: the
    function returns what the loop returns. *)
Lemma completeDefinitionPoolState_loop all pool work :
  completeLoop (completeFuel all work) all ∅ pool work
  = Some (completeDefinitionPoolState all pool work).
Proof.
  unfold completeDefinitionPoolState.
  destruct (completeLoop_is_Some (completeFuel all work) all ∅ pool work) as [r ->];
    [|done].
  etrans; [apply subseteq_size, subseteq_difference_l; reflexivity|].
  etrans; [apply size_list_to_set_le|].
  rewrite length_fmap, length_app. unfold completeFuel. lia.
Qed.

(** What the loop returns has one definition per name, and the array it
    leaves behind is the one it was given, possibly reversed. *)
Lemma completeLoop_result fuel all visited pool work all' res :
  completeLoop fuel all visited pool work = Some (Ok (all', res)) →
  uniqBy nameOf res = res ∧ (all' = all ∨ all' = reverse all).
Proof.
  revert all visited pool work.
  induction fuel as [|fuel IHfuel]; intros all visited pool work;
    revert all visited pool; induction work as [|d rest IHwork];
    intros all visited pool Hrun.
  1,3: rewrite completeLoop_nil in Hrun; injection Hrun as <- <-;
    split; [apply uniqBy_idemp | by left].
  - destruct (decide (defName d ∈ visited)) as [Hv|Hv].
    + rewrite completeLoop_skip in Hrun by done.
      apply IHwork in Hrun as [? [->| ->]]; rewrite ?reverse_involutive; auto.
    + by rewrite completeLoop_out_of_fuel in Hrun.
  - destruct (decide (defName d ∈ visited)) as [Hv|Hv].
    + rewrite completeLoop_skip in Hrun by done.
      apply IHwork in Hrun as [? [->| ->]]; rewrite ?reverse_involutive; auto.
    + rewrite completeLoop_process in Hrun by done.
      destruct (collectNewTypeDefinitions _ _ _ d); [|done].
      apply IHfuel in Hrun as [? [->| ->]]; rewrite ?reverse_involutive; auto.
Qed.

(** ** Closure of the returned pool *)

Lemma elem_of_implementations all d x :
  x ∈ implementations all d ↔
  x ∈ all ∧ ∃ n ds fs, d = InterfaceTypeDefinition n ds fs ∧ implementsInterface n x = true.
Proof.
  destruct d; simpl; try (split; [by intros ?%not_elem_of_nil | by intros (_ & ? & ? & ? & ? & _)]).
  rewrite list_elem_of_filter. split.
  - intros [? ?]. split; [done|]. by eexists _, _, _.
  - intros (? & ? & ? & ? & [= <- <- <-] & ?). done.
Qed.

Lemma implementations_same_elements all all' d :
  (∀ x, x ∈ all ↔ x ∈ all') →
  ∀ x, x ∈ implementations all d ↔ x ∈ implementations all' d.
Proof. intros H x. rewrite !elem_of_implementations, H. done. Qed.

Lemma nameOf_defName_eq d d' :
  nameOf d ≠ Some "schema" → nameOf d' ≠ Some "schema" →
  defName d = defName d' → nameOf d = nameOf d'.
Proof.
  unfold defName. destruct (nameOf d), (nameOf d'); simpl; intros ? ? ?; congruence.
Qed.

Lemma Settled_mono pool pool' r :
  (∀ n, inPool pool n = true → inPool pool' n = true) →
  Settled pool r → Settled pool' r.
Proof. intros H [?|?]; [by left | right; by apply H]. Qed.

Lemma Finished_mono all pool pool' d :
  (∀ d, d ∈ pool → ∃ d', d' ∈ pool' ∧ nameOf d' = nameOf d) →
  Finished all pool d → Finished all pool' d.
Proof.
  intros H (Hw & Hs & Hi). split_and!; [done| |].
  - eapply Forall_impl; [exact Hs|]. intros r. apply Settled_mono.
    intros n. by apply inPool_mono.
  - eapply Forall_impl; [exact Hi|]. intros x (p & Hp & Hn).
    destruct (H p Hp) as (p' & ? & Hn'). exists p'. by rewrite Hn'.
Qed.

Lemma inPool_uniqBy pool n : inPool (uniqBy nameOf pool) n = inPool pool n.
Proof.
  apply eq_true_iff_eq. rewrite !inPool_true. split.
  - intros (d & Hd%elem_of_uniqBy & ?). eauto.
  - intros (d & Hd & Hn).
    assert (Some n ∈ nameOf <$> uniqBy nameOf pool) as (d' & ? & ?)%list_elem_of_fmap.
    { apply uniqBy_keys. rewrite <- Hn. by apply list_elem_of_fmap_2. }
    eauto.
Qed.

Section closure.
Variable all0 : list DefinitionNode.
Hypothesis all0_free : Forall schemaFree all0.

Lemma LoopInv_skip all visited pool d rest shifted :
    defName d ∈ visited →
    LoopInv all0 all visited pool (d :: rest) shifted →
    LoopInv all0 (reverse all) visited pool rest (shifted ++ [d]).
Proof.
    intros Hv [Hall Hfree Huniq Hvis Hfin].
    assert (nameOf d ∈ nameOf <$> shifted) as Hseen.
    { apply Hvis in Hv as (h & Hh & Hin)%list_elem_of_fmap.
      rewrite (nameOf_defName_eq d h); [by apply list_elem_of_fmap_2| | |done].
      - eapply Forall_forall in Hfree; [apply Hfree|]. apply elem_of_app. right. by left.
      - eapply Forall_forall in Hfree; [apply Hfree|]. apply elem_of_app. by left. }
    split.
    - intros x. by rewrite elem_of_reverse.
    - by rewrite <- app_assoc.
    - by rewrite <- app_assoc.
    - intros n. rewrite fmap_app, elem_of_app, <- Hvis. set_solver.
    - rewrite uniqBy_app_seen; [done|]. by intros x ->%list_elem_of_singleton.
Qed.

Lemma LoopInv_process all visited pool d rest shifted c :
    defName d ∉ visited →
    collectNewTypeDefinitions (reverse all) pool (keyBy defName (reverse all)) d = Ok c →
    LoopInv all0 all visited pool (d :: rest) shifted →
    LoopInv all0 (reverse all) ({[defName d]} ∪ visited) (pool ++ c) (rest ++ c)
      (shifted ++ [d]).
Proof.
    intros Hv Hc [Hall Hfree Huniq Hvis Hfin].
    pose proof (collect_Ok_wellShaped _ _ _ _ _ Hc) as Hshape.
    apply collect_Ok in Hc as (Hc_all & Hres & Himpl); [|apply keyBy_defName_sound].
    assert (∀ x, x ∈ c → x ∈ all0) as Hc0.
    { intros x Hx. eapply Forall_forall in Hc_all; [|exact Hx].
      by apply Hall, elem_of_reverse. }
    assert (schemaFree d) as [Hd_name Hd_refs].
    { eapply Forall_forall in Hfree; [apply Hfree|]. apply elem_of_app. right. by left. }
    assert (∀ p, p ∈ pool → ∃ p', p' ∈ pool ++ c ∧ nameOf p' = nameOf p) as Hmono.
    { intros p Hp. exists p. split; [|done]. apply elem_of_app. by left. }
    assert ((shifted ++ [d]) ++ rest ++ c = (shifted ++ d :: rest) ++ c) as Hassoc
      by (by rewrite <- !app_assoc).
    split.
    - intros x. by rewrite elem_of_reverse.
    - rewrite Hassoc. apply Forall_app. split; [done|].
      apply Forall_forall. intros x Hx. eapply Forall_forall in all0_free; eauto.
    - rewrite Hassoc. by apply uniqBy_app_congr.
    - intros n. rewrite fmap_app, elem_of_app, elem_of_union, Hvis. set_solver.
    - rewrite uniqBy_snoc_new.
      + apply Forall_app. split.
        * eapply Forall_impl; [exact Hfin|]. intros x. by apply Finished_mono.
        * constructor; [|done]. split_and!; [done| |].
          -- apply Forall_forall. intros r Hr.
             eapply Forall_forall in Hres; [|exact Hr].
             eapply Forall_forall in Hd_refs; [|exact Hr].
             destruct Hres as [?|[Hp|(m & Hm & Hmc)]]; [by left| |].
             ++ right. rewrite inPool_app, Hp. done.
             ++ right. rewrite inPool_app. apply orb_true_iff. right.
                apply inPool_true. exists m. split; [done|].
                apply keyBy_defName_sound in Hm as [_ Hm].
                unfold defName in Hm. destruct (nameOf m); simpl in Hm; congruence.
          -- apply Forall_forall. intros x Hx. exists x. split; [|done].
             apply elem_of_app. right. apply Himpl.
             eapply implementations_same_elements; [|exact Hx].
             intros y. by rewrite elem_of_reverse.
      + intros (h & Hn & Hh)%list_elem_of_fmap. apply Hv, Hvis.
        unfold defName. rewrite Hn. by apply (list_elem_of_fmap_2 defName).
Qed.

  (** When the loop returns, every definition it returns is finished. *)
Lemma completeLoop_finished fuel all visited pool work shifted all' res :
    LoopInv all0 all visited pool work shifted →
    completeLoop fuel all visited pool work = Some (Ok (all', res)) →
    Forall (Finished all0 res) res ∧ (∀ x, x ∈ all' ↔ x ∈ all0).
Proof.
    revert all visited pool work shifted.
    induction fuel as [|fuel IHfuel]; intros all visited pool work;
      revert all visited pool; induction work as [|d rest IHwork];
      intros all visited pool shifted Hinv Hrun.
    1,3: rewrite completeLoop_nil in Hrun; injection Hrun as <- <-;
      destruct Hinv as [Hall _ Huniq _ Hfin]; split; [|done];
      rewrite app_nil_r in Huniq; rewrite Huniq;
      eapply Forall_impl; [exact Hfin|]; intros x; apply Finished_mono;
      intros p Hp;
      assert (nameOf p ∈ nameOf <$> uniqBy nameOf shifted) as (p' & ? & ?)%list_elem_of_fmap
        by (rewrite <- Huniq; apply uniqBy_keys; by apply list_elem_of_fmap_2);
      by exists p'.
    - destruct (decide (defName d ∈ visited)) as [Hv|Hv].
      + rewrite completeLoop_skip in Hrun by done.
        eapply IHwork; [|exact Hrun]. by apply LoopInv_skip.
      + by rewrite completeLoop_out_of_fuel in Hrun.
    - destruct (decide (defName d ∈ visited)) as [Hv|Hv].
      + rewrite completeLoop_skip in Hrun by done.
        eapply IHwork; [|exact Hrun]. by apply LoopInv_skip.
      + rewrite completeLoop_process in Hrun by done.
        destruct (collectNewTypeDefinitions _ _ _ d) as [c|e] eqn:Hc; [|done].
        eapply IHfuel; [|exact Hrun]. by apply LoopInv_process.
Qed.

Lemma LoopInv_initial all work extra :
    (∀ x, x ∈ all ↔ x ∈ all0) → Forall schemaFree work →
    (∀ x, x ∈ extra → x ∈ work) →
    LoopInv all0 all ∅ (work ++ extra) work [].
Proof.
    intros Hall Hfree Hextra. split; [done|done| | |constructor].
    - apply uniqBy_app_seen. intros x Hx. by apply list_elem_of_fmap_2, Hextra.
    - intros n. set_solver.
Qed.
End closure.

Lemma Finished_closed res all : Forall (Finished all res) res → closed res.
Proof.
  intros H d r Hd Hr. eapply Forall_forall in H as (_ & Hs & _); [|exact Hd].
  eapply Forall_forall in Hs as [?|Hin]; [by left| |exact Hr].
  right. by apply inPool_true.
Qed.

(** ** The results about [completeDefinitionPool] *)

Lemma completeDefinitionPool_Ok all pool work res :
  completeDefinitionPool all pool work = Ok res →
  ∃ all', completeLoop (completeFuel all work) all ∅ pool work = Some (Ok (all', res)).
Proof.
  unfold completeDefinitionPool. rewrite completeDefinitionPoolState_loop.
  destruct (completeDefinitionPoolState all pool work) as [[all' res']|e]; [|done].
  intros [= <-]. by exists all'.
Qed.

(** Claim C1, as the code has it.  When the pool consists of the worklist
    followed only by definitions that also occur in the worklist (the way
    [process_1] calls the function), the literal [schema] is neither the
    name of a definition nor referred to, and no definition bears or looks
    up a name that every object inherits, a pool that
    [completeDefinitionPool] returns is closed: each of the [references]
    of a returned definition is allowlisted for its use or is the name of
    a returned definition, of whatever kind. *)
Theorem completeDefinitionPool_closed all work extra res :
  (∀ x, x ∈ extra → x ∈ work) →
  Forall schemaFree (all ++ work) →
  Forall ordinary (all ++ work) →
  completeDefinitionPool all (work ++ extra) work = Ok res →
  closed res.
Proof.
  intros Hextra [Hall Hwork]%Forall_app _ (all' & Hrun)%completeDefinitionPool_Ok.
  eapply Finished_closed, (completeLoop_finished all Hall); [|exact Hrun].
  by apply LoopInv_initial.
Qed.

Lemma completeDefinitionPool_closed_witness :
  closed [Sample.Query; Sample.A_first].
Proof.
  apply (completeDefinitionPool_closed [Sample.A_first; Sample.A_later; Sample.B]
           [Sample.Query] [Sample.Query]).
  - intros x Hx. exact Hx.
  - repeat constructor; simpl; discriminate.
  - apply (bool_decide_unpack _). by vm_compute.
  - vm_compute. reflexivity.
Defined.

(** C1 as stated fails on three inputs: a pool holding a definition that
    the worklist does not hold; a type called [schema] next to a schema
    definition; and a field whose type is the name of a directive
    definition and of nothing else, which the lookup by name accepts, so
    that the returned pool holds no type of that name. *)
Lemma completeDefinitionPool_not_closed :
  (completeDefinitionPool [Sample.B] [Sample.A_later] [] = Ok [Sample.A_later]
   ∧ ¬ closed [Sample.A_later])
  ∧ (completeDefinitionPool [Sample.B; Sample.Query; Sample.A_first]
       [Sample.schemaDef; Sample.typeCalledSchema; Sample.Query; Sample.A_first]
       [Sample.schemaDef; Sample.typeCalledSchema; Sample.Query; Sample.A_first]
     = Ok [Sample.schemaDef; Sample.typeCalledSchema; Sample.Query; Sample.A_first]
     ∧ ¬ closed [Sample.schemaDef; Sample.typeCalledSchema; Sample.Query; Sample.A_first])
  ∧ (completeDefinitionPool [Sample.authDirective] [Sample.Guarded] [Sample.Guarded]
     = Ok [Sample.Guarded; Sample.authDirective]
     ∧ (TypeUse, "auth") ∈ references Sample.Guarded
     ∧ ¬ ∃ d, d ∈ [Sample.Guarded; Sample.authDirective]
              ∧ nameOf d = Some "auth" ∧ isTypeDefinition d = true).
Proof.
  split_and!.
  - by vm_compute.
  - intros H. destruct (H Sample.A_later (TypeUse, "B")) as [Hb|(d & Hd & Hn)].
    + by left.
    + simpl. by left.
    + simpl in Hb. set_solver.
    + apply list_elem_of_singleton in Hd as ->. discriminate.
  - by vm_compute.
  - intros H. destruct (H Sample.typeCalledSchema (TypeUse, "B")) as [Hb|(d & Hd & Hn)].
    + set_solver.
    + simpl. by left.
    + simpl in Hb. set_solver.
    + set_unfold in Hd. destruct Hd as [->|[->|[->|[->|[]]]]]; discriminate.
  - by vm_compute.
  - by left.
  - intros (d & Hd & Hname & Htype). set_unfold in Hd.
    destruct Hd as [->|[->|[]]]; discriminate.
Qed.

(** *** Running the loop again on a pool it returned *)

Section second_run.
Variables (all0 P : list DefinitionNode).
Hypothesis P_finished : Forall (Finished all0 P) P.
Hypothesis P_NoDup : NoDup (nameOf <$> P).

Lemma SecondRun_skip all visited pool d rest :
    defName d ∈ visited →
    SecondRun all0 P all visited pool (d :: rest) →
    SecondRun all0 P (reverse all) visited pool rest.
Proof.
    intros Hv (Hall & shifted & todo & late & extra & HP & Hwork & Hpool & Hvis & Hlate & Hextra).
    split; [intros x; by rewrite elem_of_reverse|].
    destruct todo as [|h todo]; simpl in Hwork.
    - subst late. apply Forall_cons in Hlate as [_ Hlate].
      by exists shifted, [], rest, extra.
    - injection Hwork as <- ->.
      exists (shifted ++ [d]), todo, late, extra. split_and!; try done.
      + by rewrite <- app_assoc.
      + intros p [?| ->%list_elem_of_singleton]%elem_of_app; [by apply Hvis | done].
Qed.

Lemma SecondRun_process all visited pool d rest :
    defName d ∉ visited →
    SecondRun all0 P all visited pool (d :: rest) →
    ∃ c, collectNewTypeDefinitions (reverse all) pool (keyBy defName (reverse all)) d = Ok c
         ∧ SecondRun all0 P (reverse all) ({[defName d]} ∪ visited) (pool ++ c) (rest ++ c).
Proof.
    intros Hv (Hall & shifted & todo & late & extra & HP & Hwork & Hpool & Hvis & Hlate & Hextra).
    destruct todo as [|h todo]; simpl in Hwork.
    { exfalso. subst late. apply Forall_cons in Hlate as [Hd _].
      rewrite app_nil_r in HP. subst shifted.
      apply list_elem_of_fmap in Hd as (p & Hn & Hp).
      apply Hv. unfold defName. rewrite Hn. by apply Hvis. }
    injection Hwork as <- ->.
    assert (d ∈ P) as Hd by (rewrite HP; set_solver).
    eapply Forall_forall in P_finished as (Hshape & Hrefs & Himpl); [|exact Hd].
    eexists. split.
    { apply collect_settled; [done|].
      eapply Forall_impl; [exact Hrefs|]. intros r. apply Settled_mono.
      intros n Hn. by rewrite Hpool, inPool_app, Hn. }
    assert (Forall (λ x, nameOf x ∈ nameOf <$> P) (implementations (reverse all) d)) as Hc.
    { apply Forall_forall. intros x Hx.
      apply (implementations_same_elements (reverse all) all0) in Hx;
        [|intros y; by rewrite elem_of_reverse].
      eapply Forall_forall in Himpl as (p & Hp & <-); [|exact Hx].
      by apply list_elem_of_fmap_2. }
    split; [intros x; by rewrite elem_of_reverse|].
    exists (shifted ++ [d]), todo, (late ++ implementations (reverse all) d),
      (extra ++ implementations (reverse all) d).
    split_and!.
    - by rewrite <- app_assoc.
    - by rewrite <- app_assoc.
    - by rewrite Hpool, <- app_assoc.
    - intros p [?| ->%list_elem_of_singleton]%elem_of_app; set_solver.
    - by apply Forall_app.
    - by apply Forall_app.
Qed.

Lemma completeLoop_second_run fuel all visited pool work :
    SecondRun all0 P all visited pool work →
    completeLoop fuel all visited pool work = None
    ∨ ∃ all', completeLoop fuel all visited pool work = Some (Ok (all', P)).
Proof.
    revert all visited pool work.
    induction fuel as [|fuel IHfuel]; intros all visited pool work;
      revert all visited pool; induction work as [|d rest IHwork];
      intros all visited pool Hinv.
    1,3: right; exists all; rewrite completeLoop_nil; do 3 f_equal;
      destruct Hinv as (_ & shifted & todo & late & extra & _ & _ & -> & _ & _ & Hextra);
      rewrite uniqBy_app_seen;
      [by apply uniqBy_id
      | intros x Hx; eapply Forall_forall in Hextra; [exact Hextra | done] ].
    - destruct (decide (defName d ∈ visited)) as [Hv|Hv].
      + rewrite completeLoop_skip by done. apply IHwork. by eapply SecondRun_skip.
      + left. by apply completeLoop_out_of_fuel.
    - destruct (decide (defName d ∈ visited)) as [Hv|Hv].
      + rewrite completeLoop_skip by done. apply IHwork. by eapply SecondRun_skip.
      + rewrite completeLoop_process by done.
        destruct (SecondRun_process _ _ _ _ _ Hv Hinv) as (c & -> & Hinv').
        by apply IHfuel.
Qed.
End second_run.

(** Claim C9, as the code has it.  Let [P] be returned by a call whose pool consisted of
    its worklist followed only by definitions of that worklist, on input
    free of the literal [schema].  Calling [completeDefinitionPool] again
    with [P] as the pool and as the worklist, and the same definitions in
    [allDefinitions] (in the order the caller built them or in the order
    the first call left them), returns [P]. *)
Theorem completeDefinitionPool_idempotent all work extra all1 P all2 :
  (∀ x, x ∈ extra → x ∈ work) →
  Forall schemaFree (all ++ work) →
  completeDefinitionPoolState all (work ++ extra) work = Ok (all1, P) →
  all2 = all ∨ all2 = all1 →
  completeDefinitionPool all2 P P = Ok P.
Proof.
  intros Hextra [Hall Hwork]%Forall_app Hfirst Hall2.
  pose proof (completeDefinitionPoolState_loop all (work ++ extra) work) as Hloop.
  rewrite Hfirst in Hloop.
  pose proof Hloop as Hres. 
  apply (completeLoop_finished all Hall _ _ _ _ _ []) in Hloop as [Hfin Hall1];
    [|by apply LoopInv_initial].
  assert (P = uniqBy nameOf P) as HP
    by (symmetry; eapply completeLoop_result; exact Hres).
  assert (NoDup (nameOf <$> P)) as Hnd by (rewrite HP; apply uniqBy_NoDup).
  assert (∀ x, x ∈ all2 ↔ x ∈ all) as Hsame by (by destruct Hall2 as [-> | ->]).
  unfold completeDefinitionPool.
  pose proof (completeDefinitionPoolState_loop all2 P P) as Hsecond.
  destruct (completeLoop_second_run all P Hfin Hnd (completeFuel all2 P) all2 ∅ P P)
    as [Hnone|(all' & Hsome)].
  - split; [done|]. exists [], P, [], []. split_and!; try done.
    + by rewrite app_nil_r.
    + by rewrite app_nil_r.
    + by intros p ?%not_elem_of_nil.
  - by rewrite Hnone in Hsecond.
  - rewrite Hsome in Hsecond. by injection Hsecond as <-.
Qed.

Lemma completeDefinitionPool_idempotent_witness :
  completeDefinitionPool [Sample.T; Sample.I] [Sample.T; Sample.I] [Sample.T; Sample.I]
  = Ok [Sample.T; Sample.I].
Proof.
  apply (completeDefinitionPool_idempotent [Sample.I; Sample.T] [Sample.T] []
           [Sample.T; Sample.I] [Sample.T; Sample.I] [Sample.T; Sample.I]).
  - intros x Hx. by apply not_elem_of_nil in Hx.
  - repeat constructor; simpl; discriminate.
  - vm_compute. reflexivity.
  - right. reflexivity.
Defined.

(** C9 as stated fails when the first call was given a pool that its
    worklist did not cover: the interface was returned unprocessed, and the
    second call pulls in its implementation. *)
Lemma completeDefinitionPool_not_idempotent :
  completeDefinitionPool [Sample.I; Sample.T] [Sample.I] [] = Ok [Sample.I]
  ∧ completeDefinitionPool [Sample.I; Sample.T] [Sample.I] [Sample.I]
    = Ok [Sample.I; Sample.T]
  ∧ [Sample.I; Sample.T] ≠ [Sample.I].
Proof. split_and!; [vm_compute; reflexivity..|discriminate]. Qed.

(** *** A reference that nothing provides *)

Lemma message_mentions e n : missingIdentity e = Some n → mentions (message e) n.
Proof.
  destruct e; simpl; intros [= <-].
  - by exists "Couldn't find type ", " in any of the schemas.".
  - by exists "Couldn't find interface ", " in any of the schemas.".
  - eexists "Fragment ", _. reflexivity.
  - exists ("Field " +:+ fieldName +:+ ": Couldn't find type "), " in any of the schemas.".
    by rewrite !string_app_assoc.
  - eexists "Directive ", _. reflexivity.
Qed.

Section missing_reference.
Variables (all0 pool0 : list DefinitionNode) (d : DefinitionNode) (r : RefKind * string).
Hypothesis r_reference : r ∈ references d.
Hypothesis r_not_allowlisted : ¬ allowlisted r.1 r.2.
Hypothesis r_not_in_pool : inPool pool0 r.2 = false.
Hypothesis r_not_defined : ∀ x, x ∈ all0 → defName x ≠ r.2.

Lemma Waiting_sound all visited pool work e :
    Waiting all0 pool0 d all visited pool work →
    Sound pool (keyBy defName (reverse all)) e → lookupFailure all0 pool0 e.
Proof.
    intros (Hall & (extra & -> & Hextra) & _) [?|[?|(n & Hn & Hpool & Hmap)]];
      [by left | by right; left |].
    right; right. exists n. split_and!; [done| | |by apply message_mentions].
    - rewrite inPool_app in Hpool. by apply orb_false_iff in Hpool as [? _].
    - intros x Hx. eapply (keyBy_lookup_None defName); [exact Hmap|].
      by apply elem_of_reverse, Hall.
Qed.

Lemma Waiting_skip all visited pool h rest :
    defName h ∈ visited →
    Waiting all0 pool0 d all visited pool (h :: rest) →
    Waiting all0 pool0 d (reverse all) visited pool rest.
Proof.
    intros Hv (Hall & Hpool & before & after & Hwork & Hd & Hbefore).
    split_and!; [intros x; by rewrite elem_of_reverse | done |].
    destruct before as [|b before]; simpl in Hwork; injection Hwork as -> ->; [done|].
    exists before, after. split_and!; [done..|].
    rewrite fmap_cons in Hbefore. set_solver.
Qed.

Lemma Waiting_process all visited pool h rest c :
    defName h ∉ visited →
    collectNewTypeDefinitions (reverse all) pool (keyBy defName (reverse all)) h = Ok c →
    Waiting all0 pool0 d all visited pool (h :: rest) →
    Waiting all0 pool0 d (reverse all) ({[defName h]} ∪ visited) (pool ++ c) (rest ++ c).
Proof.
    intros Hv Hc (Hall & (extra & -> & Hextra) & before & after & Hwork & Hd & Hbefore).
    pose proof Hc as Hc'.
    apply collect_Ok in Hc' as (Hc_all & Hres & _); [|apply keyBy_defName_sound].
    destruct before as [|b before]; simpl in Hwork; injection Hwork as -> ->.
    { exfalso. eapply Forall_forall in Hres; [|exact r_reference].
      destruct Hres as [?|[Hp|(m & Hm & _)]]; [done| |].
      - rewrite inPool_app, r_not_in_pool in Hp. simpl in Hp.
        apply inPool_true in Hp as (x & Hx & Hn).
        eapply r_not_defined; [by apply Hextra | by apply defName_nameOf].
      - apply keyBy_defName_sound in Hm as [Hm Hn].
        eapply r_not_defined; [|exact Hn]. by apply Hall, elem_of_reverse. }
    split_and!; [intros x; by rewrite elem_of_reverse | |].
    - exists (extra ++ c). split; [by rewrite app_assoc|].
      intros x [?|Hx]%elem_of_app; [by apply Hextra|].
      eapply Forall_forall in Hc_all; [|exact Hx]. by apply Hall, elem_of_reverse.
    - exists before, (after ++ c). split_and!.
      + by rewrite <- app_assoc.
      + rewrite fmap_cons in Hbefore. set_solver.
      + rewrite fmap_cons in Hbefore. set_solver.
Qed.

Lemma completeLoop_missing fuel all visited pool work :
    Waiting all0 pool0 d all visited pool work →
    completeLoop fuel all visited pool work = None
    ∨ ∃ e, completeLoop fuel all visited pool work = Some (Throw e)
           ∧ lookupFailure all0 pool0 e.
Proof.
    revert all visited pool work.
    induction fuel as [|fuel IHfuel]; intros all visited pool work;
      revert all visited pool; induction work as [|h rest IHwork];
      intros all visited pool Hinv.
    1,3: destruct Hinv as (_ & _ & before & after & Hwork & _);
      by destruct before.
    - destruct (decide (defName h ∈ visited)) as [Hv|Hv].
      + rewrite completeLoop_skip by done. apply IHwork. by eapply Waiting_skip.
      + left. by apply completeLoop_out_of_fuel.
    - destruct (decide (defName h ∈ visited)) as [Hv|Hv].
      + rewrite completeLoop_skip by done. apply IHwork. by eapply Waiting_skip.
      + rewrite completeLoop_process by done.
        destruct (collectNewTypeDefinitions _ _ _ h) as [c|e] eqn:Hc.
        * apply IHfuel. by apply Waiting_process.
        * right. exists e. split; [done|].
          eapply Waiting_sound; [exact Hinv|]. by eapply collect_Throw.
Qed.
End missing_reference.


(** *** Which reference an error blames *)

Section blamed_errors.
Variables (allDefinitions pool : list DefinitionNode).
Variable schemaMap : gmap string DefinitionNode.
Variable scope : list (RefKind * string).
Hypothesis directives_found :
  ∀ n m, (DirectiveUse, n) ∈ scope → schemaMap !! n = Some m →
         flatDirective m ∧ lookupRefs m ⊆ scope.

Local Abbreviation blames := (FailsWith (Blames pool schemaMap scope)).

Lemma blames_ret : blames Ok.
Proof. by intros ? ?. Qed.

Lemma blames_seq (f g : Collector) : blames f → blames g → blames (λ acc, f acc ≫= g).
Proof. intros Hf Hg acc e [?|(a & _ & ?)]%bind_Throw; [by eapply Hf | by eapply Hg]. Qed.

Lemma blames_forEach {A} (f : A → Collector) l :
  (∀ x, x ∈ l → blames (f x)) → blames (forEach f l).
Proof.
  induction l as [|x l IH]; intros Hf; [apply blames_ret|].
  change (blames (λ acc, f x acc ≫= forEach f l)).
  apply blames_seq; [apply Hf; left|]. apply IH. intros y Hy. apply Hf. by right.
Qed.

Lemma blames_collectNamed notFound n :
  (NameUse, n) ∈ scope → missingIdentity (notFound n) = Some n →
  blames (collectNamed pool schemaMap notFound n).
Proof.
  intros Hscope Hn acc e. unfold collectNamed.
  destruct (inPool pool n) eqn:Hin; simpl; [done|].
  destruct (schemaMap !! n) eqn:Hm; [done|].
  intros [= <-]. exists (NameUse, n). split_and!; [done|by intros []|done..].
Qed.

Lemma blames_collectNodeWith cd node :
  nodeRefs node ⊆ scope → (∀ d, d ∈ iv_directives node → blames (cd d)) →
  blames (collectNodeWith pool schemaMap cd node).
Proof.
  intros Hscope Hcd. unfold collectNodeWith. apply blames_seq.
  - intros acc e.
    destruct (negb (inPool pool _) && negb (includes builtinTypes _)) eqn:Hc; [|done].
    destruct (schemaMap !! _) eqn:Hm; [done|].
    intros [= <-]. apply andb_true_iff in Hc as [Hp Hb].
    apply negb_true_iff in Hp. apply negb_true_iff, bool_decide_eq_false in Hb.
    exists (TypeUse, getNamedType (iv_type node)).
    split_and!; [apply Hscope; left|done..].
  - by apply blames_forEach.
Qed.

(** A built-in directive is never looked up. *)
Lemma collectDirective_builtin depth d acc :
  dir_name d ∈ builtinDirectives → collectDirective pool schemaMap depth d acc = Ok acc.
Proof.
  intros Hd. destruct depth; simpl; unfold includes;
    by rewrite (bool_decide_eq_true_2 _ Hd), andb_false_r.
Qed.

Lemma blames_collectDirective depth d :
  (DirectiveUse, dir_name d) ∈ scope →
  blames (collectDirective pool schemaMap (S depth) d).
Proof.
  intros Hscope acc e. simpl.
  destruct (negb (inPool pool _) && negb (includes builtinDirectives _)) eqn:Hc; [|done].
  apply andb_true_iff in Hc as [Hp Hb].
  apply negb_true_iff in Hp. apply negb_true_iff, bool_decide_eq_false in Hb.
  destruct (schemaMap !! _) as [m|] eqn:Hm.
  - destruct (directives_found _ _ Hscope Hm) as [Hflat Hrefs].
    destruct m as [| | | | | | |name arguments| |]; try done.
    intros [H|(a & _ & ?)]%bind_Throw; [|done].
    eapply blames_forEach in H; [done|]. intros x Hx.
    apply blames_collectNodeWith.
    + intros r Hr. apply Hrefs. unfold lookupRefs. apply elem_of_app. right.
      apply list_elem_of_bind. by exists x.
    + intros dd Hdd acc' e'. rewrite collectDirective_builtin; [done|].
      simpl in Hflat. rewrite Forall_forall in Hflat.
      specialize (Hflat x Hx). rewrite Forall_forall in Hflat. by apply Hflat.
  - intros [= <-]. exists (DirectiveUse, dir_name d). by split_and!.
Qed.

Lemma blames_directives ds :
  directiveRefs ds ⊆ scope →
  blames (forEach (collectDirective pool schemaMap (stackDepth allDefinitions)) ds).
Proof.
  intros Hscope. apply blames_forEach. intros d Hd. apply blames_collectDirective.
  apply Hscope. unfold directiveRefs.
  by apply (list_elem_of_fmap_2 (λ d, (DirectiveUse, dir_name d))).
Qed.

Lemma blames_collectNode node :
  nodeRefs node ⊆ scope → blames (collectNode allDefinitions pool schemaMap node).
Proof.
  intros Hscope. apply blames_collectNodeWith; [done|].
  intros d Hd. apply blames_collectDirective. apply Hscope. right.
  unfold directiveRefs.
  by apply (list_elem_of_fmap_2 (λ d, (DirectiveUse, dir_name d))).
Qed.

Lemma blames_collectField f :
  f ≠ UndefinedEntry → fieldRefs f ⊆ scope →
  blames (collectField allDefinitions pool schemaMap f).
Proof.
  destruct f as [n args t ds|node|]; simpl; [| |done]; intros _ Hscope.
  - by apply (blames_collectNode {| iv_name := n; iv_type := t; iv_directives := ds |}).
  - by apply blames_collectNode.
Qed.

Lemma blames_collectArguments n args t ds :
  argumentRefs (FieldDefinition n args t ds) ⊆ scope →
  blames (collectArguments allDefinitions pool schemaMap (FieldDefinition n args t ds)).
Proof.
  simpl. intros Hscope. apply blames_forEach. intros x Hx. apply blames_collectNode.
  intros r Hr. apply Hscope, list_elem_of_bind. by exists x.
Qed.

Lemma blames_collectFragments s :
  selectionRefs s ⊆ scope → blames (collectFragments allDefinitions pool schemaMap s).
Proof.
  induction s as [n ds sels IH|n ds|ds sels IH] using SelectionNode_nested_ind;
    simpl; intros Hscope.
  - apply blames_forEach. intros x Hx.
    apply (blames_seq _ (collectFragments _ _ _ x)).
    + apply blames_directives. intros r Hr. apply Hscope, list_elem_of_bind.
      exists x. split; [|done]. apply elem_of_app. by left.
    + eapply Forall_forall in IH; [apply IH|done]. intros r Hr.
      apply Hscope, list_elem_of_bind. exists x. split; [|done]. apply elem_of_app. by right.
  - apply blames_collectNamed; [|done]. apply Hscope. left.
  - apply blames_forEach. intros x Hx.
    apply (blames_seq _ (collectFragments _ _ _ x)).
    + apply blames_directives. intros r Hr. apply Hscope, list_elem_of_bind.
      exists x. split; [|done]. apply elem_of_app. by left.
    + eapply Forall_forall in IH; [apply IH|done]. intros r Hr.
      apply Hscope, list_elem_of_bind. exists x. split; [|done]. apply elem_of_app. by right.
Qed.

(** On a definition shaped as the parser builds it, an error of
    [collectNewTypeDefinitions] blames one of the references in scope. *)
Lemma collect_blames d e :
  wellShaped d → references d ⊆ scope →
  collectNewTypeDefinitions allDefinitions pool schemaMap d = Throw e →
  Blames pool schemaMap scope e.
Proof.
  intros Hshape Hscope H.
  assert (directiveRefs (directivesOf d) ⊆ scope) as Hds.
  { intros r Hr. apply Hscope. unfold references. apply elem_of_app. by left. }
  assert (∀ k, blames k →
           forEach (collectDirective pool schemaMap (stackDepth allDefinitions))
             (directivesOf d) [] ≫= k = Throw e →
           Blames pool schemaMap scope e) as Hrun.
  { intros k Hk Hc. by apply (blames_seq _ _ (blames_directives _ Hds) Hk []). }
  assert (∀ r, r ∈ match d with
                   | EnumTypeDefinition _ _ values =>
                       values ≫= (λ v, directiveRefs (ev_directives v))
                   | InputObjectTypeDefinition _ _ fields
                   | InterfaceTypeDefinition _ _ fields => fields ≫= fieldRefs
                   | UnionTypeDefinition _ _ types => (λ n, (NameUse, n)) <$> types
                   | ObjectTypeDefinition _ interfaces _ fields =>
                       ((λ n, (NameUse, n)) <$> interfaces)
                       ++ (fields ≫= (λ f, fieldRefs f ++ argumentRefs f))
                   | SchemaDefinition _ operationTypes =>
                       (λ o, (NameUse, ot_type o)) <$> operationTypes
                   | OperationDefinition _ _ sels | FragmentDefinition _ _ _ sels =>
                       sels ≫= selectionRefs
                   | ScalarTypeDefinition _ _ | DirectiveDefinition _ _ => []
                   end → r ∈ scope) as Hbody.
  { intros r Hr. apply Hscope. unfold references. apply elem_of_app. by right. }
  unfold collectNewTypeDefinitions in H.
  destruct d as [ds ops|n ds|n ifs ds fs|n ds fs|n ds ts|n ds vs|n ds fs
                |n args|n ds sels|n tc ds sels];
    cbn [directivesOf wellShaped] in *; cbv beta iota in *; try done;
    (eapply Hrun; [|exact H]).
  - apply blames_forEach. intros o Ho. apply blames_collectNamed; [|done].
    apply Hbody. by apply (list_elem_of_fmap_2 (λ o, (NameUse, ot_type o))).
  - apply blames_ret.
  - apply (blames_seq (forEach _ ifs)).
    + apply blames_forEach. intros o Ho. apply blames_collectNamed; [|done].
      apply Hbody, elem_of_app. left. by apply (list_elem_of_fmap_2 (λ n, (NameUse, n))).
    + apply blames_forEach. intros f Hf.
      rewrite Forall_forall in Hshape. destruct (Hshape f Hf) as (fn & a & t & fds & ->).
      apply (blames_seq (collectField _ _ _ _)).
      * apply blames_collectField; [done|]. intros r Hr. apply Hbody, elem_of_app. right.
        apply list_elem_of_bind. eexists. split; [|exact Hf]. apply elem_of_app. by left.
      * apply blames_collectArguments. intros r Hr. apply Hbody, elem_of_app. right.
        apply list_elem_of_bind. eexists. split; [|exact Hf]. apply elem_of_app. by right.
  - apply (blames_seq (forEach _ fs)).
    + apply blames_forEach. intros f Hf. rewrite Forall_forall in Hshape.
      apply blames_collectField; [by apply Hshape|]. intros r Hr.
      apply Hbody, list_elem_of_bind. by exists f.
    + by intros ? ?.
  - apply blames_forEach. intros o Ho. apply blames_collectNamed; [|done].
    apply Hbody. by apply (list_elem_of_fmap_2 (λ n, (NameUse, n))).
  - apply blames_forEach. intros v Hv. apply blames_directives. intros r Hr.
    apply Hbody, list_elem_of_bind. by exists v.
  - apply blames_forEach. intros f Hf. rewrite Forall_forall in Hshape.
    apply blames_collectField; [by apply Hshape|]. intros r Hr.
    apply Hbody, list_elem_of_bind. by exists f.
  - apply blames_forEach. intros f Hf. apply blames_collectFragments. intros r Hr.
    apply Hbody, list_elem_of_bind. by exists f.
  - apply blames_forEach. intros f Hf. apply blames_collectFragments. intros r Hr.
    apply Hbody, list_elem_of_bind. by exists f.
Qed.
End blamed_errors.

(** A run of the loop that throws does so while collecting for a
    definition of the worklist or of [allDefinitions], over a pool that
    extends the given one. *)
Lemma completeLoop_Throw fuel all visited pool work e :
  completeLoop fuel all visited pool work = Some (Throw e) →
  ∃ all' extra h,
    (∀ x, x ∈ all' ↔ x ∈ all) ∧ (h ∈ work ∨ h ∈ all)
    ∧ collectNewTypeDefinitions all' (pool ++ extra) (keyBy defName all') h = Throw e.
Proof.
  revert all visited pool work.
  induction fuel as [|fuel IHfuel]; intros all visited pool work;
    revert all visited pool; induction work as [|d rest IHwork];
    intros all visited pool Hrun.
  1,3: by rewrite completeLoop_nil in Hrun.
  - destruct (decide (defName d ∈ visited)) as [Hv|Hv].
    + rewrite completeLoop_skip in Hrun by done.
      apply IHwork in Hrun as (all' & extra & h & Hall & Hh & Hc).
      exists all', extra, h. split_and!; [|set_solver|done].
      intros x. by rewrite Hall, elem_of_reverse.
    + by rewrite completeLoop_out_of_fuel in Hrun.
  - destruct (decide (defName d ∈ visited)) as [Hv|Hv].
    + rewrite completeLoop_skip in Hrun by done.
      apply IHwork in Hrun as (all' & extra & h & Hall & Hh & Hc).
      exists all', extra, h. split_and!; [|set_solver|done].
      intros x. by rewrite Hall, elem_of_reverse.
    + rewrite completeLoop_process in Hrun by done.
      destruct (collectNewTypeDefinitions _ _ _ d) as [c|e'] eqn:Hc.
      * apply IHfuel in Hrun as (all' & extra & h & Hall & Hh & Hthrow).
        apply collect_Ok in Hc as (Hc & _); [|apply keyBy_defName_sound].
        rewrite Forall_forall in Hc.
        exists all', (c ++ extra), h. split_and!.
        -- intros x. by rewrite Hall, elem_of_reverse.
        -- destruct Hh as [[Hh|Hh]%elem_of_app|Hh].
           ++ left. by right.
           ++ right. by apply elem_of_reverse, Hc.
           ++ right. by apply elem_of_reverse.
        -- by rewrite app_assoc.
      * injection Hrun as ->. exists (reverse all), [], d. split_and!.
        -- intros x. apply elem_of_reverse.
        -- left. left.
        -- by rewrite app_nil_r.
Qed.




(** The same scenario for any pool and any corpus: the error names [Node]. *)
Lemma undefined_interface_Node all pool name fields rest :
  inPool pool "Node" = false → (∀ x, x ∈ all → defName x ≠ "Node") →
  completeDefinitionPool all pool (ObjectTypeDefinition name ["Node"] [] fields :: rest)
  = Throw (InterfaceNotFound "Node")
  ∧ message (InterfaceNotFound "Node")
    = "Couldn't find interface Node in any of the schemas.".
Proof.
  intros Hpool Hall. split; [|done].
  unfold completeDefinitionPool.
  pose proof (completeDefinitionPoolState_loop all pool
                (ObjectTypeDefinition name ["Node"] [] fields :: rest)) as Hloop.
  unfold completeFuel in Hloop. rewrite completeLoop_process in Hloop by set_solver.
  unfold collectNewTypeDefinitions in Hloop. cbn [directivesOf forEach] in Hloop.
  rewrite Ok_bind in Hloop. cbn [forEach] in Hloop. unfold collectNamed in Hloop at 1.
  rewrite Hpool in Hloop. simpl negb in Hloop. cbv iota in Hloop.
  assert (keyBy defName (reverse all) !! "Node" = None) as Hnone.
  { apply keyBy_lookup_None. intros x Hx. by apply Hall, elem_of_reverse. }
  rewrite Hnone in Hloop. simpl in Hloop. by injection Hloop as <-.
Qed.

(** *** The lookup map of an iteration *)

(** Claim C6, as the code has it.  An iteration that processes a definition looks names
    up in the map keyed from the reversal of [allDefinitions] as that
    iteration found it; since keying lets later elements overwrite earlier
    ones, each name maps to the first definition of that name in the array
    the iteration found (on the first iteration, the earliest-declared one).
    The loop returns [allDefinitions] with the same definitions, as a
    permutation. *)
Theorem lookup_map_first_declared fuel all visited pool d rest :
  defName d ∉ visited →
  completeLoop (S fuel) all visited pool (d :: rest)
  = match collectNewTypeDefinitions (reverse all) pool
            (keyBy defName (reverse all)) d with
    | Throw e => Some (Throw e)
    | Ok c => completeLoop fuel (reverse all) ({[defName d]} ∪ visited)
                (pool ++ c) (rest ++ c)
    end
  ∧ (∀ n, keyBy defName (reverse all) !! n = head (filter (λ x, defName x = n) all))
  ∧ (∀ all' res,
       completeLoop (S fuel) all visited pool (d :: rest) = Some (Ok (all', res)) →
       all' ≡ₚ all).
Proof.
  intros Hv. split_and!.
  - by apply completeLoop_process.
  - intros n. apply keyBy_reverse_lookup.
  - intros all' res [_ [-> | ->]]%completeLoop_result; [done|].
    apply reverse_Permutation.
Qed.

Lemma lookup_map_first_declared_witness :
  keyBy defName (reverse [Sample.A_first; Sample.A_later]) !! "A"
  = head (filter (λ x, defName x = "A") [Sample.A_first; Sample.A_later]).
Proof.
  refine (proj1 (proj2 (lookup_map_first_declared 1 [Sample.A_first; Sample.A_later]
                          ∅ [Sample.Query] Sample.Query [] _)) "A").
  apply not_elem_of_empty.
Defined.

(** C6 as stated fails where two definitions share a name: the map of the
    first iteration holds the one declared first, not the most recent one,
    so that is the one that completion adds; and a call that runs a single
    iteration leaves [allDefinitions] reversed. *)
Lemma lookup_map_not_latest :
  keyBy defName (reverse [Sample.A_first; Sample.A_later]) !! "A" = Some Sample.A_first
  ∧ last (filter (λ x, defName x = "A") [Sample.A_first; Sample.A_later])
    = Some Sample.A_later
  ∧ completeDefinitionPool [Sample.A_first; Sample.A_later] [Sample.Query] [Sample.Query]
    = Ok [Sample.Query; Sample.A_first]
  ∧ completeDefinitionPoolState [Sample.A_first; Sample.A_later] [Sample.B] [Sample.B]
    = Ok ([Sample.A_later; Sample.A_first], [Sample.B]).
Proof. split_and!; vm_compute; reflexivity. Qed.

(** ** Source collection and its result *)

Lemma string_app_nil_r (s : string) : s +:+ "" = s.
Proof.
  induction s as [|c s IH]; [done|].
  change (String c (s +:+ "") = String c s). by f_equal.
Qed.

Lemma mentions_refl n : mentions n n.
Proof. exists "", "". by rewrite string_app_nil_r. Qed.

Lemma mentions_app s n pre post : mentions s n → mentions (pre +:+ s +:+ post) n.
Proof.
  intros (a & b & ->). exists (pre +:+ a), (b +:+ post).
  by rewrite !string_app_assoc.
Qed.

Lemma mentions_app_r s n pre : mentions s n → mentions (pre +:+ s) n.
Proof.
  intros (a & b & ->). exists (pre +:+ a), b. by rewrite !string_app_assoc.
Qed.

Lemma mentions_app_l s n post : mentions s n → mentions (s +:+ post) n.
Proof. intros H. apply (mentions_app s n "" post H). Qed.

Lemma mentions_concat (f : string → string) sep ps p :
  p ∈ ps → mentions (String.concat sep (f <$> ps)) (f p).
Proof.
  induction ps as [|q ps IH]; [by intros ?%not_elem_of_nil|].
  intros [->|Hp]%elem_of_cons.
  - destruct ps as [|q' ps]; [apply mentions_refl|].
    change (mentions (f q +:+ sep +:+ String.concat sep (f <$> q' :: ps)) (f q)).
    apply mentions_app_l, mentions_refl.
  - destruct ps as [|q' ps]; [by apply not_elem_of_nil in Hp|].
    change (mentions (f q +:+ sep +:+ String.concat sep (f <$> q' :: ps)) (f p)).
    by apply mentions_app_r, mentions_app_r, IH.
Qed.

(** Claim C5, as the code has it.  [prepareResult] throws exactly when at least one
    pointer was requested and the whole call produced no valid source at
    all; the error is raised once, at the end of the call, and its message
    lists every requested pointer, each of which is then unmatched. *)
Theorem prepareResult_fails sortSources sort pointerList validSources :
  (∀ e, prepareResult sortSources sort pointerList validSources = Throw e
        ↔ pointerList ≠ [] ∧ validSources = [] ∧ e = NoTypeDefinitions pointerList)
  ∧ (∀ p, p ∈ pointerList →
          mentions (message (NoTypeDefinitions pointerList)) ("- " +:+ p)).
Proof.
  split.
  - intros e. unfold prepareResult.
    destruct pointerList as [|p ps], validSources as [|v vs]; simpl;
      split; try done; try (by intros (? & ? & ?)).
    + by intros [= <-].
    + by intros (_ & _ & ->).
  - intros p Hp. simpl. do 4 apply mentions_app_r.
    set (f := λ p, nl +:+ "          - " +:+ p +:+ nl +:+ "          ").
    eapply (mentions_concat f) in Hp as (a & b & ->).
    exists (a +:+ nl +:+ "          "), (nl +:+ "          " +:+ b).
    unfold f. change "          - " with ("          " +:+ "- ").
    by rewrite !string_app_assoc.
Qed.

(** One pointer and no valid source: the call throws, and the message
    lists the pointer. *)
Lemma prepareResult_fails_witness :
  prepareResult (λ l, l) true ["missing.graphql"] []
  = Throw (NoTypeDefinitions ["missing.graphql"])
  ∧ mentions (message (NoTypeDefinitions ["missing.graphql"])) "- missing.graphql".
Proof.
  destruct (prepareResult_fails (λ l, l) true ["missing.graphql"] []) as [Hthrows Hlists].
  split.
  - apply Hthrows. split_and!; [discriminate|reflexivity..].
  - apply (Hlists "missing.graphql"). left.
Defined.

(** Claim C5 as stated fails when one of two pointers matched nothing and the
    other produced a source: the call returns that source. *)
Lemma prepareResult_unmatched_pointer_tolerated :
  prepareResult (λ l, l) true ["a.graphql"; "missing.graphql"]
    [SampleSources.fileSource "a.graphql"]
  = Ok [SampleSources.fileSource "a.graphql"]
  ∧ Forall (λ s, location s ≠ "missing.graphql") [SampleSources.fileSource "a.graphql"].
Proof. split; [done|]. repeat constructor. discriminate. Qed.

(** *** The pointer cache *)

Lemma addResultOfCustomLoader_schema pointer result st :
  cache (addResultOfCustomLoader pointer (SchemaResult result) st) = cache st.
Proof. done. Qed.

Lemma addResultOfCustomLoader_document pointer result st :
  cache (addResultOfCustomLoader pointer (DocumentResult result) st) !! pointer
  = Some {| location := pointer; document := Some result;
            rawSDL := None; schema := None |}.
Proof. simpl. apply lookup_insert_eq. Qed.

Lemma addResultOfCustomLoader_object pointer result st :
  is_Some (ps_document result) →
  is_Some (cache (addResultOfCustomLoader pointer (ObjectResult result) st) !! pointer).
Proof.
  intros [d Hd]. simpl. rewrite Hd. simpl. rewrite lookup_insert_eq. by eexists.
Qed.

Lemma collectFallbackSync_cached pointer loaders st st' :
  collectFallbackSync pointer loaders st = Ok st' →
  st' = st ∨ ∃ source, cache st' !! pointer = Some source ∧ sources st' = sources st ++ [source].
Proof.
  unfold collectFallbackSync. intros (source & _ & H)%bind_Ok.
  destruct source as [source|]; injection H as <-; [right | by left].
  exists source. split; [apply lookup_insert_eq | done].
Qed.

(** Claim C7, as the code has it.  What a custom loader returns is added
    to the sources; it is kept out of the pointer cache when it is a schema
    object, and written to the cache under the pointer when it is a parsed
    document or an object with a document.  A source that the fallback
    chain gives is written to the cache under the pointer. *)
Theorem custom_loader_cache pointer loader next result st :
  loader pointer = Ok result →
  (∃ st', collectCustomLoaderSync pointer (Some loader) next st = Ok st'
     ∧ match result with
       | SchemaResult _ =>
           cache st' = cache st ∧ ∃ source, sources st' = sources st ++ [source]
       | DocumentResult _ =>
           ∃ source, sources st' = sources st ++ [source]
                     ∧ cache st' !! pointer = Some source
       | ObjectResult r =>
           match ps_document r with
           | Some _ => ∃ source, sources st' = sources st ++ [source]
                                 ∧ cache st' !! pointer = Some source
           | None => st' = st
           end
       | Falsy => st' = st
       end)
  ∧ (∀ loaders st',
       collectFallbackSync pointer loaders st = Ok st' →
       st' = st ∨ ∃ source, cache st' !! pointer = Some source
                            ∧ sources st' = sources st ++ [source]).
Proof.
  intros Hload. split.
  - unfold collectCustomLoaderSync. rewrite Hload. rewrite Ok_bind.
    destruct result as [r|r|r|]; eexists; (split; [reflexivity|]).
    + split; [done|]. by eexists.
    + eexists. split; [done|]. apply lookup_insert_eq.
    + simpl. destruct (ps_document r); [|done].
      eexists. split; [done|]. apply lookup_insert_eq.
    + done.
  - intros loaders st'. apply collectFallbackSync_cached.
Qed.

(** A custom loader that returns a parsed document: the source is in the
    cache afterwards. *)
Lemma custom_loader_cache_witness :
  ∃ st', collectCustomLoaderSync "custom.graphql" (Some SampleSources.documentLoader)
           Ok SampleSources.nothing = Ok st'
         ∧ ∃ source, sources st' = sources SampleSources.nothing ++ [source]
                     ∧ cache st' !! "custom.graphql" = Some source.
Proof.
  exact (proj1 (custom_loader_cache "custom.graphql" SampleSources.documentLoader Ok
                  (DocumentResult SampleSources.helloDocument) SampleSources.nothing
                  eq_refl)).
Defined.

(** Claim C7 as stated fails for a custom loader that returns a parsed
    document: afterwards the cache holds its source under the pointer. *)
Lemma custom_loader_document_is_cached :
  ∃ st, collectCustomLoaderSync "custom.graphql" (Some SampleSources.documentLoader)
          Ok SampleSources.nothing = Ok st
        ∧ cache st !! "custom.graphql"
          = Some {| location := "custom.graphql";
                    document := Some SampleSources.helloDocument;
                    rawSDL := None; schema := None |}.
Proof. eexists. split; [reflexivity|]. vm_compute. reflexivity. Qed.

(** ** Field-scoped imports update the node in place *)

Lemma nameOf_setFields fs d : nameOf (setFields fs d) = nameOf d.
Proof. by destruct d. Qed.

Lemma fieldsOf_setFields fs d :
  is_Some (fieldsOf d) → fieldsOf (setFields fs d) = Some fs.
Proof. destruct d; simpl; by intros [? ?]. Qed.

Lemma fieldsOf_is_Some_lookup (σ : Store) l fs :
  fieldsOf (deref σ l) = Some fs → l < length σ.
Proof.
  unfold deref. destruct (σ !! l) eqn:Hl; [|done].
  intros _. by eapply lookup_lt_Some.
Qed.

Lemma deref_insert_eq (σ : Store) l d : l < length σ → deref (<[l := d]> σ) l = d.
Proof. intros Hl. unfold deref. by rewrite list_lookup_insert_eq. Qed.

Lemma deref_insert_ne (σ : Store) l l' d : l ≠ l' → deref (<[l := d]> σ) l' = deref σ l'.
Proof. intros Hl. unfold deref. by rewrite list_lookup_insert_ne. Qed.

(** Updating the [fields] of a node keeps every name. *)
Lemma nameOf_deref_insert (σ : Store) l fs x :
  nameOf (deref (<[l := setFields fs (deref σ l)]> σ) x) = nameOf (deref σ x).
Proof.
  destruct (decide (l = x)) as [->|Hne]; [|by rewrite deref_insert_ne].
  destruct (decide (x < length σ)) as [Hx|Hx].
  - by rewrite deref_insert_eq, nameOf_setFields.
  - by rewrite list_insert_ge by lia.
Qed.

Lemma list_find_ext {A} (P Q : A → Prop) `{∀ x, Decision (P x)} `{∀ x, Decision (Q x)}
    (l : list A) :
  (∀ x, P x ↔ Q x) → list_find P l = list_find Q l.
Proof.
  intros HPQ. induction l as [|x l IH]; [done|]. simpl.
  destruct (decide (P x)), (decide (Q x)); [done|naive_solver..|by rewrite IH].
Qed.

Lemma filterM_Ok {A} (p : A → Result bool) (q : A → bool) l :
  (∀ x, x ∈ l → p x = Ok (q x)) → filterM p l = Ok (filter (λ x, q x = true) l).
Proof.
  induction l as [|x l IH]; intros Hp; [done|].
  simpl. rewrite (Hp x) by left. rewrite Ok_bind, IH, Ok_bind.
  - rewrite filter_cons. by destruct (q x); simpl.
  - intros y Hy. apply Hp. by right.
Qed.

Lemma filterM_Ok_inv {A} (p : A → Result bool) l kept :
  filterM p l = Ok kept → ∀ x, x ∈ l → ∃ b, p x = Ok b.
Proof.
  revert kept. induction l as [|y l IH]; intros kept H x Hx.
  - by apply not_elem_of_nil in Hx.
  - simpl in H. apply bind_Ok in H as (b & Hb & (ys & Hys & _)%bind_Ok).
    apply elem_of_cons in Hx as [->|Hx]; [by exists b | by eapply IH].
Qed.

Section filter_facts.
Variable sortFields : list FieldEntry → list FieldEntry.
Hypothesis sortFields_Permutation : ∀ fs, sortFields fs ≡ₚ fs.
Variable sort : bool.

Lemma restrictFields_names defs group σ σ' :
  restrictFields sortFields sort defs group σ = Ok σ' →
  length σ' = length σ ∧ ∀ x, nameOf (deref σ' x) = nameOf (deref σ x).
Proof.
  unfold restrictFields.
  destruct (list_find _ defs) as [[i l]|]; [|by intros [= <-]].
  destruct (fieldsOf (deref σ l)) as [fs|]; [|by intros [= <-]].
  case_bool_decide; [by intros [= <-]|].
  intros (kept & _ & [= <-])%bind_Ok. split.
  - by rewrite length_insert.
  - intros x. apply nameOf_deref_insert.
Qed.

Lemma restrictFields_other defs group σ σ' l T :
  restrictFields sortFields sort defs group σ = Ok σ' →
  nameOf (deref σ l) = Some T → group.1 ≠ T →
  deref σ' l = deref σ l.
Proof.
  unfold restrictFields. intros H Hl Hne.
  destruct (list_find _ defs) as [[i l']|] eqn:Hfind; [|by injection H as <-].
  destruct (fieldsOf (deref σ l')) as [fs|]; [|by injection H as <-].
  case_bool_decide; [by injection H as <-|].
  apply bind_Ok in H as (kept & _ & [= <-]).
  apply list_find_Some in Hfind as (_ & Hname & _).
  apply deref_insert_ne. intros ->. congruence.
Qed.

Lemma forEach_restrictFields_other defs groups σ σ' l T :
  forEach (restrictFields sortFields sort defs) groups σ = Ok σ' →
  nameOf (deref σ l) = Some T → T ∉ groups.*1 →
  deref σ' l = deref σ l
  ∧ length σ' = length σ ∧ ∀ x, nameOf (deref σ' x) = nameOf (deref σ x).
Proof.
  revert σ. induction groups as [|g groups IH]; intros σ H Hl Hnot.
  - by injection H as <-.
  - rewrite forEach_cons in H. apply bind_Ok in H as (σ1 & Hg & Hrest).
    rewrite fmap_cons, not_elem_of_cons in Hnot. destruct Hnot as [Hne Hnot].
    pose proof (restrictFields_names _ _ _ _ Hg) as [Hlen Hnames].
    pose proof (restrictFields_other _ _ _ _ _ _ Hg Hl (not_eq_sym Hne)) as Heq.
    apply IH in Hrest as (-> & -> & Hnames'); [|by rewrite Hnames|done].
    split_and!; [done..|]. intros x. by rewrite Hnames'.
Qed.

Lemma restrictFields_target defs tokens σ σ' T i l fs :
  restrictFields sortFields sort defs (T, tokens) σ = Ok σ' →
  list_find (λ l, nameOf (deref σ l) = Some T) defs = Some (i, l) →
  fieldsOf (deref σ l) = Some fs →
  "*" ∉ (secondSegment <$> tokens) →
  ∃ fs', fieldsOf (deref σ' l) = Some fs'
         ∧ fs' ≡ₚ filter (λ f, isRequested (secondSegment <$> tokens) f = true) fs.
Proof.
  unfold restrictFields. intros H Hfind Hfs Hstar. cbn [fst snd] in H.
  rewrite Hfind, Hfs in H.
  rewrite bool_decide_eq_false_2 in H by done.
  apply bind_Ok in H as (kept & Hkept & [= <-]).
  pose proof (fieldsOf_is_Some_lookup _ _ _ Hfs) as Hl.
  rewrite deref_insert_eq by done.
  eexists. split; [apply fieldsOf_setFields; by rewrite Hfs|].
  assert (kept = filter (λ f, isRequested (secondSegment <$> tokens) f = true) fs) as ->.
  { pose proof (filterM_Ok_inv _ _ _ Hkept) as Hnamed.
    erewrite (filterM_Ok _ (isRequested (secondSegment <$> tokens))) in Hkept.
    - by injection Hkept as <-.
    - intros f Hf. destruct (Hnamed f Hf) as [b Hb]. unfold isRequested.
      destruct (entryName f); [|done]. by rewrite orb_false_r. }
  destruct sort; [apply sortFields_Permutation | done].
Qed.

Lemma groupBy_split (key : string → string) l T :
  T ∈ key <$> l →
  ∃ g1 g2, groupBy key l = g1 ++ (T, filter (λ x, key x = T) l) :: g2
           ∧ (T ∉ g1.*1) ∧ T ∉ g2.*1.
Proof.
  intros HT. unfold groupBy.
  assert (T ∈ uniqBy id (key <$> l)) as Hin.
  { rewrite <- (list_fmap_id (uniqBy id _)). apply uniqBy_keys. by rewrite list_fmap_id. }
  pose proof (uniqBy_NoDup id (key <$> l)) as Hnd. rewrite list_fmap_id in Hnd.
  apply list_elem_of_split in Hin as (k1 & k2 & Hk). rewrite Hk in Hnd |- *.
  apply NoDup_app in Hnd as (_ & Hk1 & [Hk2 _]%NoDup_cons).
  eexists _, _. rewrite fmap_app, fmap_cons. split; [done|].
  rewrite <- !list_fmap_compose.
  assert (∀ ks : list string, (fst ∘ λ k, (k, filter (λ x, key x = k) l)) <$> ks = ks) as Hfst.
  { intros ks. induction ks; [done|]. simpl. by f_equal. }
  rewrite !Hfst. split; [|done]. intros H1. eapply Hk1; [exact H1|]. by left.
Qed.
End filter_facts.




(** ** The registry of processed import lines *)

Lemma canProcess_true filepath module registry registry' :
  canProcess filepath module registry = (true, registry') →
  ¬ processed registry (filepath, module)
  ∧ processed registry' (filepath, module)
  ∧ ∀ p, processed registry p → processed registry' p.
Proof.
  unfold canProcess, processed.
  destruct (registry !! filepath) as [l|] eqn:Hl; [case_bool_decide; [done|]|];
    intros [= <-]; simpl.
  - split_and!.
    + intros (l' & Hl' & ?). by simplify_eq.
    + exists (l ++ [module]). rewrite lookup_insert_eq. split; [done|set_solver].
    + intros [fp m] (l' & Hl' & Hm). simpl in *.
      destruct (decide (filepath = fp)) as [->|Hne].
      * simplify_eq. exists (l ++ [module]). rewrite lookup_insert_eq. set_solver.
      * exists l'. by rewrite lookup_insert_ne.
  - split_and!.
    + intros (l' & Hl' & ?). by simplify_eq.
    + exists [module]. rewrite lookup_insert_eq. split; [done|set_solver].
    + intros [fp m] (l' & Hl' & Hm). simpl in *.
      destruct (decide (filepath = fp)) as [->|Hne]; [by simplify_eq|].
      exists l'. by rewrite lookup_insert_ne.
Qed.

Lemma canProcess_false filepath module registry registry' :
  canProcess filepath module registry = (false, registry') →
  registry' = registry ∧ processed registry (filepath, module).
Proof.
  unfold canProcess, processed.
  destruct (registry !! filepath) as [l|] eqn:Hl; [case_bool_decide|]; intros [= <-].
  split; [done|]. by exists l.
Qed.

Lemma filter_length_le {A} (P Q : A → Prop) `{∀ x, Decision (P x)} `{∀ x, Decision (Q x)}
    (l : list A) :
  (∀ x, Q x → P x) → length (filter Q l) ≤ length (filter P l).
Proof.
  intros HQP. induction l as [|x l IH]; [done|]. rewrite !filter_cons.
  destruct (decide (Q x)), (decide (P x)); simpl; try lia. naive_solver.
Qed.

Lemma filter_length_lt {A} (P Q : A → Prop) `{∀ x, Decision (P x)} `{∀ x, Decision (Q x)}
    (l : list A) x :
  (∀ x, Q x → P x) → x ∈ l → P x → ¬ Q x →
  length (filter Q l) < length (filter P l).
Proof.
  intros HQP Hx HP HQ. induction l as [|y l IH]; [by apply not_elem_of_nil in Hx|].
  rewrite !filter_cons. apply elem_of_cons in Hx as [<-|Hx].
  - rewrite (decide_False (P := Q x)), (decide_True (P := P x)) by done. simpl.
    apply Nat.lt_succ_r. by apply filter_length_le.
  - specialize (IH Hx).
    destruct (decide (Q y)), (decide (P y)); simpl; try lia. naive_solver.
Qed.

Lemma pending_mono U registry registry' :
  (∀ p, processed registry p → processed registry' p) →
  pending U registry' ≤ pending U registry.
Proof. intros Hmono. apply filter_length_le. naive_solver. Qed.

Lemma pending_lt U registry registry' p :
  (∀ p, processed registry p → processed registry' p) →
  p ∈ U → ¬ processed registry p → processed registry' p →
  pending U registry' < pending U registry.
Proof.
  intros Hmono Hp Hnew Hold.
  apply (filter_length_lt _ _ _ p); [naive_solver| |done|naive_solver].
  by apply elem_of_remove_dups.
Qed.

Lemma pending_le_length U registry : pending U registry ≤ length U.
Proof.
  unfold pending. etrans; [apply length_filter|].
  induction U as [|p U IH]; [done|]. simpl. case_decide; simpl; lia.
Qed.

Section termination.
Variable sortFields : list FieldEntry → list FieldEntry.
Variable resolveModuleFilePath : string → string → string.
Variable files : gmap string Source.
Variable sort : bool.
Variable U : list (string * RawModule).

Local Abbreviation pairsOf := (importPairs resolveModuleFilePath).
Local Abbreviation collectSync :=
  (collectDefinitionsSync sortFields resolveModuleFilePath files sort).

Hypothesis files_known :
  ∀ filepath f p, files !! filepath = Some f →
    p ∈ pairsOf (location f) (rawSDL f) → p ∈ U.

Lemma preapreRawModules_Ok source imports st rawModules st' :
  preapreRawModules sortFields sort source imports st = Ok (rawModules, st') →
  processedFiles st' = processedFiles st
  ∧ pairsOf (ds_location source) (ds_rawSDL source)
    = (λ m, (resolveModuleFilePath (ds_location source) (from m), m)) <$> rawModules.
Proof.
  unfold preapreRawModules.
  intros ([current σ] & _ & (mods & Hparse & [= <- <-])%bind_Ok)%bind_Ok.
  split; [done|]. unfold importPairs.
  destruct (ds_rawSDL source) as [sdl|]; [|done]. by rewrite Hparse.
Qed.

Lemma load_Ok filepath σ result σ' :
  load files filepath σ = Ok (result, σ') →
  ∃ f, files !! filepath = Some f
       ∧ ds_location result = location f ∧ ds_rawSDL result = rawSDL f.
Proof.
  unfold load, instantiate. destruct (files !! filepath) as [f|]; [|done].
  destruct (document f); [|done]. simpl. intros [= <- _]. by exists f.
Qed.

Lemma forEachModule_terminates recurse n source :
  (∀ imports result st,
     (∀ p, p ∈ pairsOf (ds_location result) (ds_rawSDL result) → p ∈ U) →
     pending U (processedFiles st) < n →
     ∃ r, recurse imports result st = Some r ∧ grows st r) →
  ∀ rawModules st,
    (∀ m, m ∈ rawModules → (resolveModuleFilePath (ds_location source) (from m), m) ∈ U) →
    pending U (processedFiles st) ≤ n →
    ∃ r, forEachModule resolveModuleFilePath files recurse source rawModules st = Some r
         ∧ grows st r.
Proof.
  intros IH. induction rawModules as [|m rest IHrest]; intros st Hmods Hpending.
  { eexists. split; [done|]. by intros st' [= <-]. }
  simpl. destruct m as [moduleImports moduleFrom].
  destruct (canProcess _ _ (processedFiles st)) as [can registry] eqn:Hcan.
  assert ((resolveModuleFilePath (ds_location source) moduleFrom,
           {| imports := moduleImports; from := moduleFrom |}) ∈ U) as Hin
    by (apply (Hmods {| imports := moduleImports; from := moduleFrom |}); left).
  destruct can.
  - apply canProcess_true in Hcan as (Hnew & Hold & Hmono).
    destruct (load files _ (store st)) as [[result σ]|e] eqn:Hload; simpl;
      [|eexists; split; [done|]; by intros st' [=]].
    apply load_Ok in Hload as (f & Hf & Hloc & Hsdl).
    edestruct (IH moduleImports result) as (r & -> & Hr).
    { intros p. rewrite Hloc, Hsdl. by eapply files_known. }
    { simpl. eapply Nat.lt_le_trans; [|exact Hpending]. by eapply pending_lt. }
    destruct r as [st1|e]; [|eexists; split; [done|]; by intros st' [=]].
    destruct (IHrest st1) as (r & -> & Hr').
    { intros m' Hm'. apply Hmods. by right. }
    { etrans; [|exact Hpending]. apply pending_mono. intros p Hp.
      by apply (Hr st1 eq_refl), Hmono. }
    eexists. split; [done|]. intros st' -> p Hp.
    by apply (Hr' st' eq_refl), (Hr st1 eq_refl), Hmono.
  - apply canProcess_false in Hcan as (-> & _).
    destruct (IHrest {| store := store st; processedFiles := processedFiles st;
                        typeDefinitions := typeDefinitions st;
                        allDefinitions := allDefinitions st |}) as (r & -> & Hr).
    { intros m' Hm'. apply Hmods. by right. }
    { done. }
    eexists. split; [done|]. exact Hr.
Qed.

Lemma collectDefinitionsSync_terminates fuel imports source st :
  (∀ p, p ∈ pairsOf (ds_location source) (ds_rawSDL source) → p ∈ U) →
  pending U (processedFiles st) < fuel →
  ∃ r, collectSync fuel imports source st = Some r ∧ grows st r.
Proof.
  revert imports source st. induction fuel as [|fuel IH];
    intros imports source st Hknown Hpending; [lia|].
  simpl. destruct (preapreRawModules _ _ _ _ _) as [[rawModules st1]|e] eqn:Hpre;
    [|eexists; split; [done|]; by intros st' [=]].
  apply preapreRawModules_Ok in Hpre as [Hreg Hpairs].
  destruct (forEachModule_terminates (collectSync fuel) fuel source IH rawModules st1)
    as (r & -> & Hr).
  - intros m Hm. apply Hknown. rewrite Hpairs.
    apply list_elem_of_fmap. by exists m.
  - rewrite Hreg. lia.
  - eexists. split; [done|]. intros st' -> p Hp. apply (Hr st' eq_refl). by rewrite Hreg.
Qed.
End termination.

(** Every pair that the root source or a file can give rise to is in the
    universe of the root. *)
Lemma universe_root resolve files source p :
  p ∈ importPairs resolve (ds_location source) (ds_rawSDL source) →
  p ∈ universe resolve files source.
Proof. intros Hp. apply elem_of_app. by left. Qed.

Lemma universe_files resolve files source filepath f p :
  files !! filepath = Some f →
  p ∈ importPairs resolve (location f) (rawSDL f) →
  p ∈ universe resolve files source.
Proof.
  intros Hf Hp. apply elem_of_app. right. apply list_elem_of_bind.
  exists (filepath, f). split; [done|]. by apply elem_of_map_to_list.
Qed.

(** The depth that [processImportSyntaxSync] allows is enough for any
    finite set of files and any registry the caller seeds. *)
Lemma collectDefinitionsSync_total sortFields resolve files sort imports source st :
  is_Some (collectDefinitionsSync sortFields resolve files sort
             (S (length (universe resolve files source))) imports source st).
Proof.
  destruct (collectDefinitionsSync_terminates sortFields resolve files sort
              (universe resolve files source)
              (universe_files resolve files source)
              (S (length (universe resolve files source))) imports source st)
    as (r & -> & _); [apply universe_root| |done].
  apply Nat.lt_succ_r, pending_le_length.
Qed.

(** ** What a resolution returns *)

Lemma extends_refl σ : extends σ σ.
Proof. by split. Qed.

Lemma extends_trans σ1 σ2 σ3 : extends σ1 σ2 → extends σ2 σ3 → extends σ1 σ3.
Proof.
  intros [Hl1 Hn1] [Hl2 Hn2]. split; [lia|].
  intros l Hl. rewrite Hn2 by lia. by apply Hn1.
Qed.

Lemma extends_alloc nodes σ : extends σ (alloc nodes σ).2.
Proof.
  split; simpl; [rewrite length_app; lia|].
  intros l Hl. unfold deref. by rewrite lookup_app_l.
Qed.

Lemma extends_setFields (σ : list DefinitionNode) l fs :
  extends σ (<[l := setFields fs (deref σ l)]> σ).
Proof.
  split; [by rewrite length_insert|]. intros x _. apply nameOf_deref_insert.
Qed.

(** The loop returns the pool it was given, extended and deduplicated. *)
Lemma completeLoop_pool fuel all visited pool work all' res :
  completeLoop fuel all visited pool work = Some (Ok (all', res)) →
  ∃ extras, res = uniqBy nameOf (pool ++ extras).
Proof.
  revert all visited pool work.
  induction fuel as [|fuel IHfuel]; intros all visited pool work;
    revert all visited pool; induction work as [|d rest IHwork];
    intros all visited pool Hrun.
  1,3: rewrite completeLoop_nil in Hrun; injection Hrun as _ <-;
    exists []; by rewrite app_nil_r.
  - destruct (decide (defName d ∈ visited)) as [Hv|Hv].
    + rewrite completeLoop_skip in Hrun by done. by eapply IHwork.
    + by rewrite completeLoop_out_of_fuel in Hrun.
  - destruct (decide (defName d ∈ visited)) as [Hv|Hv].
    + rewrite completeLoop_skip in Hrun by done. by eapply IHwork.
    + rewrite completeLoop_process in Hrun by done.
      destruct (collectNewTypeDefinitions _ _ _ d) as [c|]; [|done].
      apply IHfuel in Hrun as (extras & ->). exists (c ++ extras).
      by rewrite app_assoc.
Qed.

(** Every name of the pool is a name of the result, and no name of the
    result occurs twice. *)
Lemma completeDefinitionPool_names all pool work res :
  completeDefinitionPool all pool work = Ok res →
  NoDup (nameOf <$> res) ∧ ∀ d, d ∈ pool → nameOf d ∈ nameOf <$> res.
Proof.
  intros (all' & (extras & ->)%completeLoop_pool)%completeDefinitionPool_Ok.
  split; [apply uniqBy_NoDup|]. intros d Hd. apply uniqBy_keys.
  apply list_elem_of_fmap_2, elem_of_app. by left.
Qed.

Section names.
Variable sortFields : list FieldEntry → list FieldEntry.
Variable resolveModuleFilePath : string → string → string.
Variable files : gmap string Source.
Variable sort : bool.

Lemma forEach_restrictFields_extends defs groups σ σ' :
  forEach (restrictFields sortFields sort defs) groups σ = Ok σ' → extends σ σ'.
Proof.
  revert σ. induction groups as [|g groups IH]; intros σ H.
  - injection H as <-. apply extends_refl.
  - rewrite forEach_cons in H. apply bind_Ok in H as (σ1 & Hg & Hrest).
    eapply extends_trans; [|by apply IH].
    apply restrictFields_names in Hg as [Hlen Hnames]. split; [lia|].
    intros l _. apply Hnames.
Qed.

Lemma filterImportedDefinitions_Ok imports defs all σ current σ' :
  filterImportedDefinitions sortFields sort imports defs all σ = Ok (current, σ') →
  extends σ σ' ∧ (imports = ["*"] → length all ≤ 1 → current = defs).
Proof.
  unfold filterImportedDefinitions. case_bool_decide as Hstar.
  - destruct (_ && _ && bool_decide (1 < length all)) eqn:Hcond; intros [= <- <-].
    + split; [apply extends_refl|]. intros _ Hlen.
      apply andb_true_iff in Hcond as [_ Hlt]. apply bool_decide_eq_true in Hlt. lia.
    + split; [apply extends_refl | done].
  - intros (σ1 & H & [= <- <-])%bind_Ok. split.
    + by eapply forEach_restrictFields_extends.
    + intros ->. exfalso. apply Hstar. by left.
Qed.

Lemma preapreRawModules_extends source imports st rawModules st' :
  preapreRawModules sortFields sort source imports st = Ok (rawModules, st') →
  extends (store st) (store st')
  ∧ ∃ current, typeDefinitions st' = typeDefinitions st ++ [current]
               ∧ (imports = ["*"] → allDefinitions st = [] →
                  current = ds_definitions source).
Proof.
  unfold preapreRawModules.
  intros ([current σ] & Hfilter & (mods & _ & [= _ <-])%bind_Ok)%bind_Ok.
  apply filterImportedDefinitions_Ok in Hfilter as [Hext Hcur]. simpl.
  split; [done|]. exists current. split; [done|].
  intros Himports Hall. apply Hcur; [done|]. by rewrite Hall.
Qed.

Lemma forEachModule_extends recurse source :
  (∀ imports result st st',
     recurse imports result st = Some (Ok st') →
     extends (store st) (store st')
     ∧ ∃ more, typeDefinitions st' = typeDefinitions st ++ more) →
  ∀ rawModules st st',
    forEachModule resolveModuleFilePath files recurse source rawModules st = Some (Ok st') →
    extends (store st) (store st')
    ∧ ∃ more, typeDefinitions st' = typeDefinitions st ++ more.
Proof.
  intros IH. induction rawModules as [|m rest IHrest]; intros st st' Hrun.
  { injection Hrun as <-. split; [apply extends_refl|]. exists []. by rewrite app_nil_r. }
  simpl in Hrun. destruct m as [moduleImports moduleFrom].
  destruct (canProcess _ _ (processedFiles st)) as [can registry].
  destruct can; [|by apply IHrest in Hrun].
  destruct (load files _ (store st)) as [[result σ]|e] eqn:Hload; [|done].
  simpl in Hrun.
  destruct (recurse moduleImports result _) as [[st1|e]|] eqn:Hrec; [|done..].
  apply IH in Hrec as [Hext1 (more1 & Htd1)]. simpl in *.
  apply IHrest in Hrun as [Hext2 (more2 & Htd2)].
  split.
  - eapply extends_trans; [|exact Hext2]. eapply extends_trans; [|exact Hext1].
    unfold load, instantiate in Hload. destruct (files !! _) as [f|]; [|done].
    destruct (document f) as [nodes|]; [|done]. simpl in Hload.
    injection Hload as _ <-. apply (extends_alloc nodes).
  - exists (more1 ++ more2). by rewrite Htd2, Htd1, app_assoc.
Qed.

Lemma collectDefinitionsSync_extends fuel imports source st st' :
  collectDefinitionsSync sortFields resolveModuleFilePath files sort fuel imports source st
  = Some (Ok st') →
  extends (store st) (store st')
  ∧ ∃ current more, typeDefinitions st' = typeDefinitions st ++ current :: more
                    ∧ (imports = ["*"] → allDefinitions st = [] →
                       current = ds_definitions source).
Proof.
  revert imports source st st'. induction fuel as [|fuel IH];
    intros imports source st st' Hrun; [done|].
  simpl in Hrun.
  destruct (preapreRawModules _ _ _ _ _) as [[rawModules st1]|e] eqn:Hpre; [|done].
  apply preapreRawModules_extends in Hpre as [Hext1 (current & Htd1 & Hcur)].
  apply forEachModule_extends in Hrun as [Hext2 (more & Htd2)].
  - split; [by eapply extends_trans|]. exists current, more.
    split; [|done]. by rewrite Htd2, Htd1, <- app_assoc.
  - intros imports' result st2 st2' Hrec.
    apply IH in Hrec as [? (c & m & -> & _)]. split; [done|]. by exists (c :: m).
Qed.

Lemma mergeType_extends acc type :
  extends acc.2 (mergeType sortFields sort acc type).2.
Proof.
  destruct acc as [[names merged] σ]. simpl.
  destruct (nameOf (deref σ type)); [|apply extends_refl].
  case_bool_decide; [|apply extends_refl].
  destruct (list_find _ merged) as [[i existing]|]; [|apply extends_refl].
  destruct (fieldsOf (deref σ existing)); [|apply extends_refl].
  simpl. apply extends_setFields.
Qed.

Lemma foldl_mergeType_extends acc types :
  extends acc.2 (foldl (mergeType sortFields sort) acc types).2.
Proof.
  revert acc. induction types as [|t types IH]; intros acc; [apply extends_refl|].
  simpl. eapply extends_trans; [apply mergeType_extends | apply IH].
Qed.

(** The result of the merge and completion holds no name twice, and it
    holds the name of every node of the first filtered list. *)
Lemma process_1_names st first others res :
  typeDefinitions st = first :: others →
  process_1 sortFields sort st = Ok res →
  NoDup (nameOf <$> res)
  ∧ ∀ l, l ∈ first → l < length (store st) →
         nameOf (deref (store st) l) ∈ nameOf <$> res.
Proof.
  unfold process_1. intros ->.
  pose proof (foldl_mergeType_extends ([], [], store st)
                (flatten (first :: others) ++ first ++ flatten others)) as [_ Hnames].
  destruct (foldl _ _ _) as [[names merged] σ]. simpl in Hnames.
  intros [Hnd Hpool]%completeDefinitionPool_names. split; [done|].
  intros l Hl Hlen. rewrite <- Hnames by done. apply Hpool.
  apply list_elem_of_fmap_2. rewrite !elem_of_app. right. by left.
Qed.
End names.

(** ** The asynchronous resolution *)

Section async_facts.
Variable sortFields : list FieldEntry → list FieldEntry.
Variable resolveModuleFilePath : string → string → string.
Variable files : gmap string Source.
Variable sort : bool.
Variable U : list (string * RawModule).

Local Abbreviation pairsOf := (importPairs resolveModuleFilePath).
Local Abbreviation settleAsync := (settle sortFields resolveModuleFilePath files sort).
Local Abbreviation collectAsync :=
  (collectDefinitions sortFields resolveModuleFilePath files sort).

Hypothesis files_known :
  ∀ filepath f p, files !! filepath = Some f →
    p ∈ pairsOf (location f) (rawSDL f) → p ∈ U.

(** Starting the loads of a call leaves the store and the two totals
    alone, only adds to the registry, and starts one load for each pair
    that it registers. *)
Lemma startLoads_spec source rawModules st st' started :
  startLoads resolveModuleFilePath source rawModules st = (st', started) →
  store st' = store st ∧ typeDefinitions st' = typeDefinitions st
  ∧ allDefinitions st' = allDefinitions st
  ∧ (∀ p, processed (processedFiles st) p → processed (processedFiles st') p)
  ∧ ((∀ m, m ∈ rawModules → (resolveModuleFilePath (ds_location source) (from m), m) ∈ U) →
     pending U (processedFiles st') + length started ≤ pending U (processedFiles st)).
Proof.
  revert st st' started. induction rawModules as [|m rest IH]; intros st st' started.
  { intros [= <- <-]. split_and!; [done..|]. intros _. simpl. lia. }
  simpl. destruct (canProcess _ m (processedFiles st)) as [can registry] eqn:Hcan.
  destruct (startLoads _ _ rest _) as [st1 started1] eqn:Hrest.
  intros [= <- <-]. apply IH in Hrest as (Hσ & Htd & Hall & Hmono & Hpending).
  simpl in *. split_and!; [done..| |].
  - intros p Hp. apply Hmono. destruct can.
    + apply canProcess_true in Hcan as (_ & _ & Hkeeps). by apply Hkeeps.
    + by apply canProcess_false in Hcan as [-> _].
  - intros Hknown.
    assert (pending U (processedFiles st1) + length started1 ≤ pending U registry) as Hle.
    { apply Hpending. intros m' Hm'. apply Hknown. by right. }
    destruct can.
    + apply canProcess_true in Hcan as (Hnew & Hnow & Hkeeps).
      assert (pending U registry < pending U (processedFiles st)) as Hlt.
      { eapply pending_lt; [done| |done..]. apply Hknown. left. }
      simpl. lia.
    + apply canProcess_false in Hcan as [-> _]. lia.
Qed.

Lemma dispatch_spec imports source st st' started :
  dispatch sortFields resolveModuleFilePath sort imports source st = Ok (st', started) →
  extends (store st) (store st')
  ∧ (∃ current, typeDefinitions st' = typeDefinitions st ++ [current]
                ∧ (imports = ["*"] → allDefinitions st = [] →
                   current = ds_definitions source))
  ∧ (∀ p, processed (processedFiles st) p → processed (processedFiles st') p)
  ∧ ((∀ p, p ∈ pairsOf (ds_location source) (ds_rawSDL source) → p ∈ U) →
     pending U (processedFiles st') + length started ≤ pending U (processedFiles st)).
Proof.
  unfold dispatch. intros ([rawModules st1] & Hpre & [= Hstart])%bind_Ok.
  pose proof (preapreRawModules_Ok sortFields resolveModuleFilePath sort _ _ _ _ _ Hpre)
    as [Hreg Hpairs].
  apply preapreRawModules_extends in Hpre as [Hext (current & Htd & Hcur)].
  apply startLoads_spec in Hstart as (Hσ & Htd' & _ & Hmono & Hpending).
  rewrite Hσ, Htd'. split_and!; [done|by exists current| |].
  - intros p Hp. apply Hmono. by rewrite Hreg.
  - intros Hknown. rewrite <- Hreg. apply Hpending. intros m Hm. apply Hknown.
    rewrite Hpairs. apply list_elem_of_fmap. by exists m.
Qed.

Lemma settle_nil schedule st : settleAsync schedule [] st = Some (Ok st).
Proof. by destruct schedule. Qed.

(** Every pending load completes, whatever the schedule: each completed
    load is paid for by the pair that was registered when it started. *)
Lemma settle_terminates schedule tasks st :
  pending U (processedFiles st) + length tasks ≤ length schedule →
  ∃ r, settleAsync schedule tasks st = Some r ∧ grows st r.
Proof.
  revert tasks st. induction schedule as [|turn schedule IH]; intros tasks st Hlen.
  { destruct tasks; [|simpl in Hlen; lia].
    eexists. split; [apply settle_nil|]. by intros st' [= <-]. }
  destruct tasks as [|first tasks'].
  { eexists. split; [apply settle_nil|]. by intros st' [= <-]. }
  cbn [settle]. set (tasks := first :: tasks') in *.
  set (i := turn `mod` length tasks).
  assert (i < length tasks) as Hi.
  { subst i. apply Nat.mod_upper_bound. simpl. lia. }
  destruct (load files _ (store st)) as [[result σ]|e] eqn:Hload;
    [|eexists; split; [done|]; by intros st' [=]].
  apply load_Ok in Hload as (f & Hf & Hloc & Hsdl).
  destruct (dispatch _ _ _ _ result _) as [[st1 started]|e] eqn:Hdispatch;
    [|eexists; split; [done|]; by intros st' [=]].
  apply dispatch_spec in Hdispatch as (_ & _ & Hmono & Hpending). simpl in *.
  destruct (IH (delete i tasks ++ started) st1) as (r & -> & Hr).
  { rewrite length_app, length_delete by (by apply lookup_lt_is_Some).
    assert (pending U (processedFiles st1) + length started ≤ pending U (processedFiles st)).
    { apply Hpending. intros p. rewrite Hloc, Hsdl. by eapply files_known. }
    subst tasks. cbn [length] in *. lia. }
  eexists. split; [done|]. intros st' -> p Hp. by apply (Hr st' eq_refl), Hmono.
Qed.

Lemma collectDefinitions_terminates schedule imports source st :
  (∀ p, p ∈ pairsOf (ds_location source) (ds_rawSDL source) → p ∈ U) →
  pending U (processedFiles st) ≤ length schedule →
  ∃ r, collectAsync schedule imports source st = Some r ∧ grows st r.
Proof.
  intros Hknown Hlen. unfold collectDefinitions.
  destruct (dispatch _ _ _ _ _ _) as [[st1 started]|e] eqn:Hdispatch;
    [|eexists; split; [done|]; by intros st' [=]].
  apply dispatch_spec in Hdispatch as (_ & _ & Hmono & Hpending).
  destruct (settle_terminates schedule started st1) as (r & -> & Hr).
  { specialize (Hpending Hknown). lia. }
  eexists. split; [done|]. intros st' -> p Hp. by apply (Hr st' eq_refl), Hmono.
Qed.

Lemma settle_extends schedule tasks st st' :
  settleAsync schedule tasks st = Some (Ok st') →
  extends (store st) (store st')
  ∧ ∃ more, typeDefinitions st' = typeDefinitions st ++ more.
Proof.
  revert tasks st. induction schedule as [|turn schedule IH]; intros tasks st.
  { destruct tasks; [|done]. intros [= <-]. split; [apply extends_refl|].
    exists []. by rewrite app_nil_r. }
  destruct tasks as [|first tasks'].
  { intros [= <-]. split; [apply extends_refl|]. exists []. by rewrite app_nil_r. }
  cbn [settle].
  destruct (load files _ (store st)) as [[result σ]|e] eqn:Hload; [|done].
  destruct (dispatch _ _ _ _ result _) as [[st1 started]|e] eqn:Hdispatch; [|done].
  intros [Hext (more & Htd)]%IH.
  apply dispatch_spec in Hdispatch as (Hext1 & (current & Htd1 & _) & _). simpl in *.
  split.
  - eapply extends_trans; [|exact Hext]. eapply extends_trans; [|exact Hext1].
    unfold load, instantiate in Hload. destruct (files !! _) as [f|]; [|done].
    destruct (document f) as [nodes|]; [|done]. simpl in Hload.
    injection Hload as _ <-. apply (extends_alloc nodes).
  - exists ([current] ++ more). by rewrite Htd, Htd1, <- app_assoc.
Qed.

Lemma collectDefinitions_extends schedule imports source st st' :
  collectAsync schedule imports source st = Some (Ok st') →
  extends (store st) (store st')
  ∧ ∃ current more, typeDefinitions st' = typeDefinitions st ++ current :: more
                    ∧ (imports = ["*"] → allDefinitions st = [] →
                       current = ds_definitions source).
Proof.
  unfold collectDefinitions.
  destruct (dispatch _ _ _ _ _ _) as [[st1 started]|e] eqn:Hdispatch; [|done].
  intros [Hext (more & Htd)]%settle_extends.
  apply dispatch_spec in Hdispatch as (Hext1 & (current & Htd1 & Hcur) & _).
  split; [by eapply extends_trans|]. exists current, more.
  split; [|done]. by rewrite Htd, Htd1, <- app_assoc.
Qed.
End async_facts.

(** An asynchronous resolution from scratch returns no name twice, and
    a definition for every definition of the root file. *)
Lemma resolveImportsAsync_names sortFields resolve files sort schedule root res :
  resolveImportsAsync sortFields resolve files sort schedule root = Some (Ok res) →
  NoDup (nameOf <$> res)
  ∧ ∀ d, d ∈ default [] (document root) → nameOf d ∈ nameOf <$> res.
Proof.
  unfold resolveImportsAsync, instantiate. destruct (document root) as [defs|]; [|done].
  simpl. unfold processImportSyntax.
  destruct (collectDefinitions _ _ _ _ _ _ _ _) as [[st|e]|] eqn:Hrun; [|done..].
  intros [= Hres].
  apply (collectDefinitions_extends sortFields resolve files sort []) in Hrun
    as [[Hlen Hnames] (current & more & Htd & Hcur)].
  simpl in *. specialize (Hcur eq_refl eq_refl) as ->.
  eapply process_1_names in Hres as [Hnd Hroot]; [|exact Htd].
  split; [done|]. intros d (i & Hi)%list_elem_of_lookup_1.
  pose proof (lookup_lt_Some _ _ _ Hi) as Hlt.
  replace (nameOf d) with (nameOf (deref (store st) i)).
  - apply Hroot; [|lia]. apply elem_of_seq. lia.
  - rewrite Hnames by lia. unfold deref. by rewrite Hi.
Qed.

(** A resolution from scratch returns no name twice, and a definition for
    every definition of the root file. *)
Lemma resolveImports_names sortFields resolve files sort root res :
  resolveImports sortFields resolve files sort root = Ok res →
  NoDup (nameOf <$> res)
  ∧ ∀ d, d ∈ default [] (document root) → nameOf d ∈ nameOf <$> res.
Proof.
  unfold resolveImports, instantiate. destruct (document root) as [defs|]; [|done].
  simpl. unfold processImportSyntaxSync.
  destruct (collectDefinitionsSync _ _ _ _ _ _ _ _) as [[st|e]|] eqn:Hrun; [|done..].
  intros Hres.
  apply collectDefinitionsSync_extends in Hrun
    as [[Hlen Hnames] (current & more & Htd & Hcur)].
  simpl in *. specialize (Hcur eq_refl eq_refl) as ->.
  eapply process_1_names in Hres as [Hnd Hroot]; [|exact Htd].
  split; [done|]. intros d (i & Hi)%list_elem_of_lookup_1.
  pose proof (lookup_lt_Some _ _ _ Hi) as Hlt.
  replace (nameOf d) with (nameOf (deref (store st) i)).
  - apply Hroot; [|lia]. apply elem_of_seq. lia.
  - rewrite Hnames by lia. unfold deref. by rewrite Hi.
Qed.

(** Claim C2, as the code has it.  (a) [canProcess] answers [true] exactly
    for a pair of resolved path and import line that the registry does not
    hold, and it registers the pair; a registered pair is skipped and
    leaves the registry alone.  (b) Over any finite set of files,
    [collectDefinitionsSync] returns, whatever the files import, and so
    does [collectDefinitions], in whatever order its loads complete, once
    as many loads have completed as there are import lines; the registry
    that either returns holds every pair that it was given, so a pair
    gets the answer [true] at most once in a resolution.  (c) A
    resolution started from scratch, synchronous or not, returns no name
    twice, and it returns a definition for every definition of the root
    file. *)
Theorem import_cycles_terminate sortFields resolve files sort :
  (∀ filepath module registry,
     (canProcess filepath module registry).1 = true
       ↔ ¬ processed registry (filepath, module))
  ∧ (∀ filepath module registry,
       processed (canProcess filepath module registry).2 (filepath, module)
       ∧ (∀ p, processed registry p →
               processed (canProcess filepath module registry).2 p)
       ∧ ((canProcess filepath module registry).1 = false →
          (canProcess filepath module registry).2 = registry))
  ∧ (∀ imports source st,
       ∃ r, collectDefinitionsSync sortFields resolve files sort
              (S (length (universe resolve files source))) imports source st = Some r
            ∧ grows st r)
  ∧ (∀ schedule imports source st,
       length (universe resolve files source) ≤ length schedule →
       ∃ r, collectDefinitions sortFields resolve files sort schedule imports source st
            = Some r
            ∧ grows st r)
  ∧ (∀ root res,
       resolveImports sortFields resolve files sort root = Ok res →
       NoDup (nameOf <$> res)
       ∧ ∀ d, d ∈ default [] (document root) → nameOf d ∈ nameOf <$> res)
  ∧ (∀ schedule root res,
       resolveImportsAsync sortFields resolve files sort schedule root = Some (Ok res) →
       NoDup (nameOf <$> res)
       ∧ ∀ d, d ∈ default [] (document root) → nameOf d ∈ nameOf <$> res).
Proof.
  split_and!.
  - intros filepath module registry.
    destruct (canProcess filepath module registry) as [[] registry'] eqn:Hcan; simpl.
    + apply canProcess_true in Hcan as (Hnew & _). by split.
    + apply canProcess_false in Hcan as [_ Hold]. split; [done|]. by intros [].
  - intros filepath module registry.
    destruct (canProcess filepath module registry) as [[] registry'] eqn:Hcan; simpl.
    + apply canProcess_true in Hcan as (_ & Hnow & Hkeeps). by split_and!.
    + apply canProcess_false in Hcan as [-> Hold]. by split_and!.
  - intros imports source st.
    apply (collectDefinitionsSync_terminates sortFields resolve files sort
             (universe resolve files source)).
    + intros filepath f p. apply universe_files.
    + intros p. apply universe_root.
    + pose proof (pending_le_length (universe resolve files source) (processedFiles st)).
      lia.
  - intros schedule imports source st Hlen.
    apply (collectDefinitions_terminates sortFields resolve files sort
             (universe resolve files source)).
    + intros filepath f p. apply universe_files.
    + intros p. apply universe_root.
    + pose proof (pending_le_length (universe resolve files source) (processedFiles st)).
      lia.
  - intros root res. apply resolveImports_names.
  - intros schedule root res. apply resolveImportsAsync_names.
Qed.

(** Two files that import everything from each other, resolved from the
    first: the resolution returns, with the definition of the root file,
    and so does the asynchronous one when its two loads have completed. *)
Lemma import_cycles_terminate_witness :
  resolveImports (λ fs, fs) SampleFiles.asWritten SampleFiles.mutual false SampleFiles.a
  = Ok [Sample.A_first]
  ∧ resolveImportsAsync (λ fs, fs) SampleFiles.asWritten SampleFiles.mutual false [0; 0]
      SampleFiles.a
    = Some (Ok [Sample.A_first])
  ∧ NoDup (nameOf <$> [Sample.A_first])
  ∧ ∀ d, d ∈ default [] (document SampleFiles.a) → nameOf d ∈ nameOf <$> [Sample.A_first].
Proof.
  split; [by vm_compute|]. split; [by vm_compute|].
  destruct (import_cycles_terminate (λ fs, fs) SampleFiles.asWritten SampleFiles.mutual false)
    as (_ & _ & _ & _ & _ & Hnames).
  apply (Hnames [0; 0] SampleFiles.a [Sample.A_first]). by vm_compute.
Defined.

(** Claim C2, the mutual-import case as stated: the definition of the
    second file, reached through the wildcard import, is not in the
    result, whether the resolution is synchronous or not. *)
Lemma mutual_import_drops_imported_file :
  Sample.B ∈ default [] (document SampleFiles.b)
  ∧ ∃ res,
      resolveImports (λ fs, fs) SampleFiles.asWritten SampleFiles.mutual false SampleFiles.a
      = Ok res
      ∧ resolveImportsAsync (λ fs, fs) SampleFiles.asWritten SampleFiles.mutual false [0; 0]
          SampleFiles.a
        = Some (Ok res)
      ∧ (Sample.B ∉ res) ∧ (nameOf Sample.B ∉ nameOf <$> res).
Proof.
  split; [by left|]. exists [Sample.A_first].
  split; [by vm_compute|]. split; [by vm_compute|]. split.
  - intros [=]%list_elem_of_singleton.
  - intros [=]%list_elem_of_singleton.
Qed.

(** ** Import lines: text and the matcher *)

Lemma chars_app (a b : string) : chars (a +:+ b) = chars a ++ chars b.
Proof. induction a as [|c a IH]; [done|]. simpl. by rewrite <- IH. Qed.

Lemma text_chars (s : string) : text (chars s) = s.
Proof. apply String.string_of_list_ascii_of_string. Qed.

Lemma chars_text (l : list ascii) : chars (text l) = l.
Proof. apply String.list_ascii_of_string_of_list_ascii. Qed.

Lemma stripPrefix_app prefix rest : stripPrefix prefix (prefix ++ rest) = Some rest.
Proof.
  induction prefix as [|c prefix IH]; simpl; [by destruct rest|].
  by rewrite bool_decide_true.
Qed.

Lemma stripPrefix_Some prefix s rest : stripPrefix prefix s = Some rest → s = prefix ++ rest.
Proof.
  revert s. induction prefix as [|c prefix IH]; intros s; simpl.
  - destruct s; by intros [= ->].
  - destruct s as [|x s]; [done|]. case_bool_decide as Hc; [|done].
    intros ->%IH. by subst.
Qed.

Lemma dropWhile_stop p c s : p c = false → dropWhile p (c :: s) = c :: s.
Proof. intros Hc. simpl. by rewrite Hc. Qed.

(** Text that begins and ends with something else than white space is
    its own trim. *)
Lemma trim_id first s final :
  isWhiteSpace first = false → isWhiteSpace final = false →
  trim (first :: s ++ [final]) = first :: s ++ [final].
Proof.
  intros Hfirst Hfinal. unfold trim. rewrite dropWhile_stop by done.
  rewrite app_comm_cons, reverse_app.
  change (reverse [final]) with [final]. cbn [app].
  rewrite dropWhile_stop by done.
  by rewrite reverse_cons, reverse_involutive.
Qed.

Lemma trim_single c : isWhiteSpace c = false → trim [c] = [c].
Proof. intros Hc. unfold trim. simpl. rewrite Hc. simpl. by rewrite Hc. Qed.

Lemma trim_cons_space c s : isWhiteSpace c = true → trim (c :: s) = trim s.
Proof. intros Hc. unfold trim. simpl. by rewrite Hc. Qed.

Lemma split_no_sep sep s : sep ∉ s → split sep s = [s].
Proof.
  induction s as [|c s IH]; [done|]. intros [Hc Hs]%not_elem_of_cons.
  simpl. rewrite bool_decide_false by done. by rewrite IH.
Qed.

Lemma split_app_sep sep a b : sep ∉ a → split sep (a ++ sep :: b) = a :: split sep b.
Proof.
  induction a as [|c a IH]; intros Ha; simpl.
  - by rewrite bool_decide_true.
  - apply not_elem_of_cons in Ha as [Hc Ha].
    rewrite bool_decide_false by done. by rewrite IH.
Qed.

(** *** The matcher only finds what the pattern accepts *)

Lemma matchStar_sound {R} p input (k : list ascii → option R) x :
  matchStar p input k = Some x →
  ∃ s rest, input = s ++ rest ∧ Forall (λ c, p c = true) s ∧ k rest = Some x.
Proof.
  induction input as [|c input IH]; simpl.
  - intros Hk. by exists [], [].
  - destruct (p c) eqn:Hc; [|intros Hk; by exists [], (c :: input)].
    destruct (matchStar p input k) as [y|] eqn:Hinner.
    + intros [= ->]. destruct (IH eq_refl) as (s & rest & -> & Hs & Hk).
      exists (c :: s), rest. split_and!; [done| |done]. by constructor.
    + intros Hk. by exists [], (c :: input).
Qed.

Lemma matchRegex_sound {R} r input caps (k : list ascii → Captures → option R) x :
  matchRegex r input caps k = Some x →
  ∃ rest caps', Accepts r input rest ∧ k rest caps' = Some x.
Proof.
  revert input caps k.
  induction r as [s|p|p|p|r IH|r1 IH1 r2 IH2|r1 IH1 r2 IH2|n r IH|];
    intros input caps k; simpl.
  - destruct (stripPrefix s input) as [rest|] eqn:Hs; [|done].
    apply stripPrefix_Some in Hs. intros Hk. by exists rest, caps.
  - destruct input as [|c rest]; [done|]. destruct (p c) eqn:Hc; [|done].
    intros Hk. exists rest, caps. split; [by exists c | done].
  - intros (s & rest & -> & Hs & Hk)%matchStar_sound.
    exists rest, caps. split; [by exists s | done].
  - destruct input as [|c input]; [done|]. destruct (p c) eqn:Hc; [|done].
    intros (s & rest & -> & Hs & Hk)%matchStar_sound.
    exists rest, caps. split; [|done].
    exists (c :: s). split_and!; [done..|]. by constructor.
  - destruct (matchRegex r input caps k) as [y|] eqn:Hr.
    + intros [= ->]. apply IH in Hr as (rest & caps' & ? & ?).
      exists rest, caps'. split; [by right | done].
    + intros Hk. exists input, caps. split; [by left | done].
  - destruct (matchRegex r1 input caps k) as [y|] eqn:Hr.
    + intros [= ->]. apply IH1 in Hr as (rest & caps' & ? & ?).
      exists rest, caps'. split; [by left | done].
    + intros (rest & caps' & ? & ?)%IH2.
      exists rest, caps'. split; [by right | done].
  - intros (mid & caps1 & H1 & (rest & caps2 & H2 & Hk)%IH2)%IH1.
    exists rest, caps2. split; [by exists mid | done].
  - intros (rest & caps' & Hr & Hk)%IH. by exists rest, (<[n := consumed input rest]> caps').
  - destruct input; [|done]. intros Hk. by exists [], caps.
Qed.

(** *** What the matcher does when it is clear what comes first *)

Lemma matchStar_stop {R} p input (k : list ascii → option R) :
  (∀ c, head input = Some c → p c = false) → matchStar p input k = k input.
Proof.
  destruct input as [|c input]; [done|]. intros Hc. simpl. by rewrite (Hc c).
Qed.

(** A greedy run stops at the longest prefix after which the rest of the
    pattern succeeds. *)
Lemma matchStar_longest {R} p s rest (k : list ascii → option R) x :
  Forall (λ c, p c = true) s →
  k rest = Some x →
  (∀ s' rest', s ++ rest = s' ++ rest' → length s < length s' → k rest' = None) →
  matchStar p (s ++ rest) k = Some x.
Proof.
  intros Hs Hk. induction s as [|c s IH]; intros Hlonger.
  - simpl. destruct rest as [|c rest]; [done|]. simpl.
    destruct (p c); [|done].
    destruct (matchStar p rest k) as [y|] eqn:Hinner; [|done].
    apply matchStar_sound in Hinner as (s1 & rest1 & -> & _ & Hk1).
    rewrite (Hlonger (c :: s1) rest1) in Hk1; [done..|simpl; lia].
  - apply Forall_cons in Hs as [Hc Hs]. simpl. rewrite Hc, IH; [done..|].
    intros s' rest' Heq Hlen. apply (Hlonger (c :: s') rest'); simpl; [by f_equal | lia].
Qed.

Lemma matchPlus_one {R} p c rest caps (k : list ascii → Captures → option R) :
  p c = true → (∀ c', head rest = Some c' → p c' = false) →
  matchRegex (Plus p) (c :: rest) caps k = k rest caps.
Proof. intros Hc Hrest. simpl. rewrite Hc. by rewrite matchStar_stop. Qed.

Lemma consumed_app s rest : consumed (s ++ rest) rest = s.
Proof.
  unfold consumed. rewrite length_app.
  replace (length s + length rest - length rest) with (length s) by lia.
  by rewrite take_app_length.
Qed.

(** *** The list pattern on a rendered line *)

Lemma matchRegex_Cat {R} r1 r2 input caps (k : list ascii → Captures → option R) :
  matchRegex (Cat r1 r2) input caps k
  = matchRegex r1 input caps (λ rest caps', matchRegex r2 rest caps' k).
Proof. done. Qed.

Lemma matchRegex_Lit {R} s rest caps (k : list ascii → Captures → option R) :
  matchRegex (Lit s) (s ++ rest) caps k = k rest caps.
Proof. cbn [matchRegex]. by rewrite stripPrefix_app. Qed.

Lemma matchGroupClass {R} n p c rest caps (k : list ascii → Captures → option R) :
  p c = true →
  matchRegex (Group n (Class p)) (c :: rest) caps k = k rest (<[n := [c]]> caps).
Proof.
  intros Hc. cbn [matchRegex]. rewrite Hc.
  change (c :: rest) with ([c] ++ rest). by rewrite consumed_app.
Qed.

Lemma matchGroupStar_longest {R} n p s rest caps (k : list ascii → Captures → option R) x :
  Forall (λ c, p c = true) s →
  k rest (<[n := s]> caps) = Some x →
  (∀ s' rest', s ++ rest = s' ++ rest' → length s < length s' →
               k rest' (<[n := s']> caps) = None) →
  matchRegex (Group n (Star p)) (s ++ rest) caps k = Some x.
Proof.
  intros Hs Hk Hlonger. cbn [matchRegex]. apply matchStar_longest; [done|..].
  - by rewrite consumed_app.
  - intros s' rest' Heq Hlen. rewrite Heq, consumed_app. by apply Hlonger.
Qed.

Lemma isQuote_doubleQuote : isQuote doubleQuote = true.
Proof. done. Qed.

(** Between two runs without quotes, there is one place for a quote. *)
Lemma mid_quote u q v A P :
  u ++ q :: v = A ++ doubleQuote :: P →
  isQuote q = true → quoteFree A → quoteFree P →
  u = A ∧ v = P.
Proof.
  revert A. induction u as [|c u IH]; intros [|a A] Heq Hq HA HP; simpl in Heq.
  - by injection Heq as _ <-.
  - injection Heq as <- _. apply Forall_cons in HA as [Ha _]. congruence.
  - injection Heq as -> Heq. exfalso.
    assert (Hin : q ∈ P) by (rewrite <- Heq, elem_of_app; right; left).
    unfold quoteFree in HP. rewrite Forall_forall in HP. apply HP in Hin. congruence.
  - injection Heq as -> Heq. apply Forall_cons in HA as [_ HA].
    destruct (IH A Heq Hq HA HP) as [-> ->]. done.
Qed.

Lemma pathClause_Accepts input rest :
  Accepts pathClause input rest →
  ∃ q1 g q2 semi, input = q1 :: g ++ q2 :: semi
                  ∧ isQuote q1 = true ∧ isQuote q2 = true
                  ∧ (semi = [] ∨ semi = chars ";").
Proof.
  intros (m1 & (q1 & -> & Hq1) & m2 & (g & -> & _) & m3 & (q2 & -> & Hq2)
          & m4 & Hsemi & -> & ->).
  exists q1, g, q2, m3. split_and!; [done..|].
  destruct Hsemi as [<-| ->]; [by left | by right].
Qed.

Lemma fromClause_Accepts input rest :
  Accepts fromClause input rest →
  ∃ w2 w3 q1 g q2 semi,
    input = w2 ++ chars "from" ++ w3 ++ q1 :: g ++ q2 :: semi
    ∧ w2 ≠ [] ∧ Forall (λ c, isWhiteSpace c = true) w2
    ∧ w3 ≠ [] ∧ Forall (λ c, isWhiteSpace c = true) w3
    ∧ isQuote q1 = true ∧ isQuote q2 = true
    ∧ (semi = [] ∨ semi = chars ";").
Proof.
  intros (m1 & (w2 & -> & Hne2 & Hw2) & m2 & -> & m3 & (w3 & -> & Hne3 & Hw3)
          & (q1 & g & q2 & semi & -> & Hq1 & Hq2 & Hsemi)%pathClause_Accepts).
  by exists w2, w3, q1, g, q2, semi.
Qed.

(** If what follows the import list is accepted somewhere in a line with
    one quoted path, it is accepted right before the opening quote. *)
Lemma fromClause_before_quote g1 mid rest d P :
  Accepts fromClause mid rest →
  g1 ++ mid = d ++ doubleQuote :: P ++ [doubleQuote] →
  quoteFree d → quoteFree P →
  ∃ w2 w3, d = g1 ++ w2 ++ chars "from" ++ w3
           ∧ w2 ≠ [] ∧ Forall (λ c, isWhiteSpace c = true) w2
           ∧ w3 ≠ [] ∧ Forall (λ c, isWhiteSpace c = true) w3.
Proof.
  intros (w2 & w3 & q1 & g & q2 & semi & -> & Hne2 & Hw2 & Hne3 & Hw3
          & Hq1 & Hq2 & Hsemi)%fromClause_Accepts Heq Hd HP.
  exists w2, w3. split_and!; [|done..].
  assert (Hlast : g1 ++ w2 ++ chars "from" ++ w3 ++ q1 :: g = d ++ doubleQuote :: P).
  { destruct Hsemi as [-> | ->].
    - change (doubleQuote :: P ++ [doubleQuote]) with ((doubleQuote :: P) ++ [doubleQuote]) in Heq.
      change (q1 :: g ++ [q2]) with ((q1 :: g) ++ [q2]) in Heq.
      rewrite !app_assoc in Heq. apply app_inj_tail in Heq as [Heq _].
      by rewrite <- !app_assoc in Heq.
    - exfalso.
      change (doubleQuote :: P ++ [doubleQuote]) with ((doubleQuote :: P) ++ [doubleQuote]) in Heq.
      replace (q1 :: g ++ q2 :: chars ";") with ((q1 :: g ++ [q2]) ++ [";"%char]) in Heq
        by (simpl; by rewrite <- app_assoc).
      rewrite !app_assoc in Heq. by apply app_inj_tail in Heq as [_ [=]]. }
  rewrite !app_assoc in Hlast. apply mid_quote in Hlast as [<- _]; [|done..].
  by rewrite <- !app_assoc.
Qed.

(** The quoted path is matched as a whole. *)
Lemma matchRegex_quoted {R} a b c P caps (k : list ascii → Captures → option R) x :
  oneLine P →
  k [] (<[c := [doubleQuote]]> (<[b := P]> (<[a := [doubleQuote]]> caps))) = Some x →
  matchRegex (quoted a b c) (doubleQuote :: P ++ [doubleQuote]) caps k = Some x.
Proof.
  intros HP Hk. unfold quoted. cbn [sequence].
  rewrite matchRegex_Cat, matchGroupClass by done. cbv beta.
  rewrite matchRegex_Cat. apply matchGroupStar_longest; [done| |].
  - rewrite matchRegex_Cat, matchGroupClass by done. done.
  - intros s' rest' Heq Hlen.
    assert (rest' = []) as ->.
    { apply (f_equal length) in Heq. rewrite !length_app in Heq. simpl in Heq.
      destruct rest'; [done|]. simpl in Heq. lia. }
    done.
Qed.

(** The word from and the quoted path are matched as they stand. *)
Lemma matchRegex_fromClause {R} P caps (k : list ascii → Captures → option R) x :
  oneLine P →
  k [] (<[5 := [doubleQuote]]> (<[4 := P]> (<[3 := [doubleQuote]]> caps))) = Some x →
  matchRegex fromClause (chars " from " ++ doubleQuote :: P ++ [doubleQuote]) caps k = Some x.
Proof.
  intros HP Hk. unfold fromClause.
  change (chars " from " ++ ?t) with (" "%char :: chars "from" ++ " "%char :: t).
  rewrite matchRegex_Cat, matchPlus_one; [|done|by intros ? [= <-]].
  rewrite matchRegex_Cat, matchRegex_Lit.
  rewrite matchRegex_Cat, matchPlus_one; [|done|by intros ? [= <-]].
  by apply matchRegex_quoted.
Qed.

Lemma IMPORT_FROM_REGEX_eq :
  IMPORT_FROM_REGEX
  = Cat (Lit (chars "import")) (Cat (Plus isWhiteSpace) (Cat importList fromClause)).
Proof. done. Qed.

Lemma length_nonempty {A} (l : list A) : l ≠ [] → 0 < length l.
Proof. destruct l; [done|]. simpl. lia. Qed.

(** Past the white space that precedes the word from, it is too late for
    what follows the import list. *)
Lemma fromClause_fails_late {R} d0 rest' P caps (k : list ascii → Captures → option R) :
  d0 ≠ [] → quoteFree P →
  d0 ++ rest' = chars " from " ++ doubleQuote :: P ++ [doubleQuote] →
  matchRegex fromClause rest' caps k = None.
Proof.
  intros Hd0 HP Heq. destruct (matchRegex fromClause rest' caps k) as [x|] eqn:Hrun; [|done].
  apply matchRegex_sound in Hrun as (rest & _ & Hacc & _).
  eapply fromClause_before_quote in Hacc as (w2 & w3 & Hd & Hw2 & _ & Hw3 & _);
    [|exact Heq|by repeat constructor|done].
  apply (f_equal length) in Hd. rewrite !length_app in Hd. simpl in Hd.
  apply length_nonempty in Hd0, Hw2, Hw3. lia.
Qed.

Lemma importList_Accepts input mid :
  Accepts importList input mid → ∃ g1, input = g1 ++ mid.
Proof. intros [-> | (s & -> & _)]; eauto. Qed.

(** With the white space used up, the import list and what follows it
    find no word from with white space on both sides. *)
Lemma listClause_fails {R} P caps (k : list ascii → Captures → option R) :
  quoteFree P →
  matchRegex (Cat importList fromClause)
    (chars "from " ++ doubleQuote :: P ++ [doubleQuote]) caps k = None.
Proof.
  intros HP. destruct (matchRegex _ _ caps k) as [x|] eqn:Hrun; [|done].
  apply matchRegex_sound in Hrun as (rest & _ & (mid & [g1 Hg1]%importList_Accepts & Hacc) & _).
  eapply fromClause_before_quote in Hacc as (w2 & w3 & Hd & Hw2 & _ & Hw3 & _);
    [|symmetry; exact Hg1|by repeat constructor|done].
  apply (f_equal length) in Hd. rewrite !length_app in Hd. simpl in Hd.
  apply length_nonempty in Hw2, Hw3. lia.
Qed.

(** After a star, what follows the import list is accepted only across
    white space. *)
Lemma fromClause_after_star more P rest :
  quoteFree more → quoteFree P →
  Accepts fromClause (more ++ chars " from " ++ doubleQuote :: P ++ [doubleQuote]) rest →
  Forall (λ c, isWhiteSpace c = true) more.
Proof.
  intros Hmore HP Hacc.
  eapply (fromClause_before_quote [] _ _ (more ++ chars " from ")) in Hacc
    as (w2 & w3 & Hd & _ & Hw2 & Hne3 & Hw3);
    [|by rewrite <- app_assoc|apply Forall_app; split; [done|by repeat constructor]|done].
  simpl in Hd.
  destruct (exists_last Hne3) as (w3' & c & ->).
  change (more ++ [" "; "f"; "r"; "o"; "m"; " "]%char)
    with (more ++ [" "; "f"; "r"; "o"; "m"]%char ++ [" "%char]) in Hd.
  change ("f" :: "r" :: "o" :: "m" :: w3' ++ [c])%char
    with ([ "f"; "r"; "o"; "m"]%char ++ w3' ++ [c]) in Hd.
  rewrite !app_assoc in Hd. apply app_inj_tail in Hd as [Hd _].
  apply Forall_app in Hw3 as [Hw3' _].
  destruct w3' as [|c1 w3' _] using rev_ind.
  - rewrite app_nil_r in Hd.
    change (more ++ [" "; "f"; "r"; "o"; "m"]%char)
      with (more ++ [" "%char] ++ ["f"; "r"; "o"; "m"]%char) in Hd.
    rewrite app_assoc in Hd. apply app_inv_tail in Hd as <-.
    by apply Forall_app in Hw2 as [? _].
  - exfalso. apply Forall_app in Hw3' as [_ [Hc1 _]%Forall_cons].
    change (more ++ [" "; "f"; "r"; "o"; "m"]%char)
      with (more ++ [" "; "f"; "r"; "o"]%char ++ ["m"%char]) in Hd.
    rewrite !app_assoc in Hd. apply app_inj_tail in Hd as [_ <-]. done.
Qed.

(** The list pattern captures the import list and the path of a rendered
    line as they were written. *)
Lemma exec_importLine L P :
  quoteFree L → oneLine L → quoteFree P → oneLine P →
  (∀ c, head L = Some c → isWhiteSpace c = false) →
  (∀ w, w ≠ [] → Forall (λ c, isWhiteSpace c = true) w → L ≠ "*"%char :: w) →
  exec IMPORT_FROM_REGEX (importLine L P) = Some (capturesOf L P).
Proof.
  intros HqL HlL HqP HlP Hhead Hstar.
  unfold exec, importLine. rewrite IMPORT_FROM_REGEX_eq.
  rewrite matchRegex_Cat, matchRegex_Lit. rewrite matchRegex_Cat.
  set (tail := chars " from " ++ doubleQuote :: P ++ [doubleQuote]).
  set (k := λ (_ : list ascii) (caps : Captures), Some caps).
  assert (Hplus : matchRegex (Plus isWhiteSpace) (" "%char :: L ++ tail) ∅
                    (λ rest caps', matchRegex (Cat importList fromClause) rest caps' k)
                  = matchRegex (Cat importList fromClause) (L ++ tail) ∅ k).
  { destruct L as [|c L'].
    - cbn [matchRegex app]. change (isWhiteSpace " ") with true. cbv iota.
      unfold tail at 1. change (chars " from " ++ ?t) with (" "%char :: chars "from " ++ t).
      cbn [matchStar]. change (isWhiteSpace " ") with true. cbv iota.
      rewrite matchStar_stop by (by intros ? [= <-]).
      pose proof (listClause_fails P ∅ k HqP) as Hfails.
      rewrite matchRegex_Cat in Hfails. by rewrite Hfails.
    - rewrite matchPlus_one; [done..|]. intros c' [= <-]. by apply Hhead. }
  rewrite Hplus. clear Hplus.
  rewrite matchRegex_Cat. unfold importList at 1. cbn [matchRegex].
  assert (Hlist : matchStar notLineTerminator (L ++ tail)
            (λ rest, matchRegex fromClause rest
                       (<[1 := consumed (L ++ tail) rest]>
                          (<[2 := consumed (L ++ tail) rest]> ∅)) k)
          = Some (<[5 := [doubleQuote]]> (<[4 := P]> (<[3 := [doubleQuote]]>
                    (<[1 := L]> (<[2 := L]> ∅)))))).
  { apply matchStar_longest; [done|..].
    - rewrite consumed_app. by apply matchRegex_fromClause.
    - intros s' rest' Heq Hlen.
      assert (∃ d0, d0 ≠ [] ∧ d0 ++ rest' = tail) as (d0 & Hd0 & Hrest).
      { exists (drop (length L) s'). split.
        - intros Hnil%(f_equal length). rewrite length_drop in Hnil. simpl in Hnil. lia.
        - apply (f_equal (drop (length L))) in Heq.
          rewrite drop_app_length, drop_app_le in Heq by lia. done. }
      by eapply fromClause_fails_late. }
  destruct (stripPrefix (chars "*") (L ++ tail)) as [rest|] eqn:Hstrip.
  - apply stripPrefix_Some in Hstrip.
    destruct L as [|c more]; [by unfold tail in Hstrip|].
    injection Hstrip as -> <-.
    destruct more as [|c more].
    + change ((chars "*" ++ []) ++ tail) with (chars "*" ++ tail).
      change ([] ++ tail) with tail. rewrite consumed_app.
      unfold capturesOf. rewrite bool_decide_true by done.
      unfold tail. by erewrite matchRegex_fromClause.
    + assert (Hfails : ∀ caps, matchRegex fromClause ((c :: more) ++ tail) caps k = None).
      { intros caps.
        destruct (matchRegex fromClause _ caps k) as [x|] eqn:Hrun; [|done].
        apply matchRegex_sound in Hrun as (rest0 & _ & Hacc & _). exfalso.
        unfold tail in Hacc.
        apply fromClause_after_star in Hacc; [|by apply Forall_cons in HqL as [_ ?]|done].
        by eapply (Hstar (c :: more)). }
      rewrite Hfails, Hlist. unfold capturesOf.
      by rewrite bool_decide_false.
  - rewrite Hlist. unfold capturesOf. rewrite bool_decide_false; [done|].
    intros ->. done.
Qed.

(** *** Rendered import lists *)

Lemma joinTokens_cons t t' ts :
  chars (joinTokens (t :: t' :: ts))
  = chars t ++ ","%char :: " "%char :: chars (joinTokens (t' :: ts)).
Proof.
  unfold joinTokens. cbn [String.concat].
  change (String.append ?a ?b) with (a +:+ b). by rewrite !chars_app.
Qed.

Lemma length_dropWhile p s : length (dropWhile p s) ≤ length s.
Proof. induction s as [|c s IH]; simpl; [done|]. destruct (p c); simpl; lia. Qed.

Lemma dropWhile_all p a b :
  Forall (λ c, p c = true) a → dropWhile p (a ++ b) = dropWhile p b.
Proof. induction 1 as [|c a Hc _ IH]; simpl; [done|]. by rewrite Hc. Qed.

Lemma length_trim s : length (trim s) ≤ length (dropWhile isWhiteSpace s).
Proof.
  unfold trim. rewrite length_reverse.
  etrans; [apply length_dropWhile|]. by rewrite length_reverse.
Qed.

(** Trimmed text does not begin with white space. *)
Lemma trimmed_head c s : trimmed (c :: s) → isWhiteSpace c = false.
Proof.
  intros Ht. destruct (isWhiteSpace c) eqn:Hc; [|done]. exfalso.
  pose proof (length_trim (c :: s)) as Hlen. rewrite Ht in Hlen.
  simpl in Hlen. rewrite Hc in Hlen.
  pose proof (length_dropWhile isWhiteSpace s). lia.
Qed.

(** Trimmed text does not go on with white space only. *)
Lemma trimmed_not_padded c w :
  w ≠ [] → Forall (λ c, isWhiteSpace c = true) w → ¬ trimmed (c :: w).
Proof.
  intros Hw Hws Ht. pose proof (trimmed_head _ _ Ht) as Hc.
  unfold trimmed, trim in Ht. rewrite dropWhile_stop in Ht by done.
  rewrite reverse_cons, dropWhile_all in Ht by (by apply Forall_reverse).
  simpl in Ht. rewrite Hc in Ht. apply (f_equal length) in Ht.
  apply length_nonempty in Hw. simpl in Ht. lia.
Qed.

Lemma joinTokens_comma t t' ts : ","%char ∈ chars (joinTokens (t :: t' :: ts)).
Proof. rewrite joinTokens_cons, elem_of_app. right. left. Qed.

Lemma joinTokens_Forall (Q : ascii → Prop) tokens :
  Q ","%char → Q " "%char → Forall (λ t, Forall Q (chars t)) tokens →
  Forall Q (chars (joinTokens tokens)).
Proof.
  intros Hcomma Hspace. induction 1 as [|t ts Ht Hts IH]; [constructor|].
  destruct ts as [|t' ts]; [done|].
  rewrite joinTokens_cons. apply Forall_app. split; [done|].
  by repeat constructor.
Qed.

(** The pieces between the commas of a rendered list, trimmed, are the
    tokens. *)
Lemma split_joinTokens pre tokens :
  tokens ≠ [] → Forall plainToken tokens →
  commaFree pre → Forall (λ c, isWhiteSpace c = true) pre →
  (λ d, text (trim d)) <$> split ","%char (pre ++ chars (joinTokens tokens)) = tokens.
Proof.
  intros Hne Htokens. revert pre. induction Htokens as [|t ts Ht Hts IH]; [done|].
  intros pre Hpre Hws. destruct Ht as (Hcomma & _ & _ & Htrim).
  assert (Hpiece : text (trim (pre ++ chars t)) = t).
  { clear -Hws Htrim. induction Hws as [|c pre Hc _ IHpre]; simpl.
    - unfold trimmed in Htrim. by rewrite Htrim, text_chars.
    - by rewrite trim_cons_space. }
  destruct ts as [|t' ts].
  - unfold joinTokens. cbn [String.concat]. rewrite split_no_sep.
    + simpl. by rewrite Hpiece.
    + unfold commaFree in *. rewrite elem_of_app. tauto.
  - rewrite joinTokens_cons, app_assoc, split_app_sep.
    + simpl. rewrite Hpiece. f_equal.
      apply (IH ltac:(done) [" "%char]).
      * unfold commaFree. by intros [=]%list_elem_of_singleton.
      * by repeat constructor.
    + unfold commaFree in *. rewrite elem_of_app. tauto.
Qed.

Section rendered.
Variable tokens : list string.
Variable path : string.
Hypothesis tokens_nonempty : tokens ≠ [].
Hypothesis tokens_plain : Forall plainToken tokens.
Hypothesis path_plain : plainPath path.

Local Abbreviation L := (chars (joinTokens tokens)).
Local Abbreviation P := (chars path).

Lemma joinTokens_quoteFree : quoteFree L.
Proof.
  apply joinTokens_Forall; [done..|].
  eapply Forall_impl; [exact tokens_plain|]. by intros t (_ & ? & _).
Qed.

Lemma joinTokens_oneLine : oneLine L.
Proof.
  apply joinTokens_Forall; [done..|].
  eapply Forall_impl; [exact tokens_plain|]. by intros t (_ & _ & ? & _).
Qed.

Lemma joinTokens_head c : head L = Some c → isWhiteSpace c = false.
Proof.
  destruct tokens_plain as [|t ts (_ & _ & _ & Htrim) _]; [done|].
  destruct ts as [|t' ts].
  - unfold joinTokens. cbn [String.concat].
    destruct (chars t) as [|c0 s] eqn:Ht; [done|]. intros [= <-].
    by eapply trimmed_head.
  - rewrite joinTokens_cons.
    destruct (chars t) as [|c0 s] eqn:Ht; [by intros [= <-]|]. intros [= <-].
    by eapply trimmed_head.
Qed.

Lemma joinTokens_star w :
  w ≠ [] → Forall (λ c, isWhiteSpace c = true) w → L ≠ "*"%char :: w.
Proof.
  intros Hw Hws HL.
  destruct tokens_plain as [|t ts (_ & _ & _ & Htrim) _]; [done|].
  destruct ts as [|t' ts].
  - unfold joinTokens in HL. cbn [String.concat] in HL. rewrite HL in Htrim.
    by eapply trimmed_not_padded.
  - pose proof (joinTokens_comma t t' ts) as Hin. rewrite HL in Hin.
    apply elem_of_cons in Hin as [[=]|Hin].
    rewrite Forall_forall in Hws. by apply Hws in Hin.
Qed.

Lemma joinTokens_only_star : L = chars "*" → tokens = ["*"].
Proof.
  intros HL. destruct tokens as [|t [|t' ts]]; [done| |].
  - unfold joinTokens in HL. cbn [String.concat] in HL.
    by rewrite <- (text_chars t), HL.
  - pose proof (joinTokens_comma t t' ts) as Hin. rewrite HL in Hin.
    by apply list_elem_of_singleton in Hin.
Qed.

(** A rendered line without its comment sign parses back to the tokens
    and the path. *)
Lemma parseImportLine_rendered :
  parseImportLine (text (importLine L P)) = Ok {| imports := tokens; from := path |}.
Proof.
  destruct path_plain as (Hpath & HqP & HlP).
  unfold parseImportLine. rewrite chars_text, exec_importLine;
    [|apply joinTokens_quoteFree|apply joinTokens_oneLine|done..
     |apply joinTokens_head|apply joinTokens_star].
  unfold capturesOf, Captures.
  rewrite lookup_insert_ne, lookup_insert_eq by done.
  destruct path as [|c p]; [done|]. cbn [String.list_ascii_of_string].
  do 3 rewrite (lookup_insert_ne _ _ 1) by done. rewrite lookup_insert_eq.
  do 4 rewrite (lookup_insert_ne _ _ 2) by done.
  cbn [String.string_of_list_ascii]. rewrite text_chars. do 2 f_equal.
  case_bool_decide as Hstar.
  - injection Hstar as Hstar. symmetry. by apply joinTokens_only_star.
  - rewrite bool_decide_false by congruence. rewrite lookup_insert_eq. simpl.
    apply (split_joinTokens []); [done..|apply not_elem_of_nil|constructor].
Qed.

Lemma chars_renderImport :
  chars (renderImport tokens path)
  = "#"%char :: " "%char :: importLine L P.
Proof.
  unfold renderImport, importLine. rewrite !chars_app. simpl.
  by rewrite <- ?app_assoc.
Qed.

Lemma importLine_oneLine : oneLine (importLine L P).
Proof.
  destruct path_plain as (_ & _ & HlP). unfold importLine.
  repeat first [apply Forall_app; split | apply Forall_cons; split];
    try done; try apply joinTokens_oneLine; by repeat constructor.
Qed.

(** Rendering an import line and scanning it as a schema gives the tokens
    and the path back. *)
Lemma parseSDL_rendered :
  parseSDL (renderImport tokens path) = Ok [{| imports := tokens; from := path |}].
Proof.
  unfold parseSDL. rewrite chars_renderImport.
  rewrite split_no_sep.
  2:{ intros Hin. pose proof importLine_oneLine as Hline.
      apply elem_of_cons in Hin as [[=]|Hin]. apply elem_of_cons in Hin as [[=]|Hin].
      unfold oneLine in Hline. rewrite Forall_forall in Hline. by apply Hline in Hin. }
  assert (∃ s, importLine L P = "i"%char :: s ++ [doubleQuote]) as [s Hs].
  { exists (chars "mport " ++ L ++ chars " from " ++ doubleQuote :: P).
    unfold importLine. rewrite <- !app_assoc. done. }
  cbn [fmap list_fmap].
  replace (trim ("#"%char :: " "%char :: importLine L P))
    with ("#"%char :: " "%char :: importLine L P).
  2:{ rewrite Hs. symmetry. apply (trim_id "#"%char (" "%char :: "i"%char :: s)); done. }
  rewrite filter_cons_True by done. rewrite filter_nil. cbn [fmap list_fmap removeFirst].
  rewrite bool_decide_true by done. rewrite trim_cons_space by done.
  rewrite Hs, trim_id by done. rewrite <- Hs.
  cbn [mapM]. by rewrite parseImportLine_rendered.
Qed.
End rendered.

(** *** The bare form *)

Lemma IMPORT_DEFAULT_REGEX_eq :
  IMPORT_DEFAULT_REGEX
  = Cat (Lit (chars "import")) (Cat (Plus isWhiteSpace) (quoted 1 2 3)).
Proof. done. Qed.

(** A bare line has no room for the word from before its first quote. *)
Lemma exec_from_bareLine P : quoteFree P → exec IMPORT_FROM_REGEX (bareLine P) = None.
Proof.
  intros HP. unfold exec. rewrite IMPORT_FROM_REGEX_eq.
  destruct (matchRegex _ (bareLine P) ∅ _) as [x|] eqn:Hrun; [|done]. exfalso.
  apply matchRegex_sound in Hrun
    as (rest & _ & (m1 & Hm1 & m2 & (w1 & Hm2 & _) & m3
                    & [g Hg]%importList_Accepts & Hacc) & _).
  simpl in Hm1. subst m2 m1.
  eapply (fromClause_before_quote (chars "import" ++ w1 ++ g) _ _ (chars "import ")) in Hacc
    as (w2 & w3 & Hd & Hw2 & _ & Hw3 & _); [| |by repeat constructor|done].
  - apply (f_equal length) in Hd. rewrite !length_app in Hd. simpl in Hd. lia.
  - rewrite <- !app_assoc. symmetry. exact Hm1.
Qed.

Lemma exec_default_bareLine P :
  oneLine P →
  exec IMPORT_DEFAULT_REGEX (bareLine P)
  = Some (<[3 := [doubleQuote]]> (<[2 := P]> (<[1 := [doubleQuote]]> ∅))).
Proof.
  intros HP. unfold exec, bareLine. rewrite IMPORT_DEFAULT_REGEX_eq.
  rewrite matchRegex_Cat, matchRegex_Lit.
  rewrite matchRegex_Cat, matchPlus_one; [|done|by intros ? [= <-]].
  by apply matchRegex_quoted.
Qed.

Lemma parseImportLine_bare path :
  quoteFree (chars path) → oneLine (chars path) →
  parseImportLine (text (bareLine (chars path)))
  = Ok {| imports := ["*"]; from := path |}.
Proof.
  intros Hq Hl. unfold parseImportLine.
  rewrite chars_text, exec_from_bareLine, exec_default_bareLine by done.
  unfold Captures. rewrite lookup_insert_ne, lookup_insert_eq by done.
  simpl. by rewrite text_chars.
Qed.

Lemma parseSDL_bare path :
  quoteFree (chars path) → oneLine (chars path) →
  parseSDL (renderBareImport path) = Ok [{| imports := ["*"]; from := path |}].
Proof.
  intros Hq Hl. unfold parseSDL, renderBareImport. rewrite !chars_app.
  change (chars "# import " ++ chars (String doubleQuote path) ++ chars (String doubleQuote ""))
    with ("#"%char :: " "%char :: bareLine (chars path)).
  rewrite split_no_sep.
  2:{ intros Hin. unfold bareLine in Hin. simpl in Hin.
      repeat (apply elem_of_cons in Hin as [[=]|Hin]).
      apply elem_of_app in Hin as [Hin|[=]%list_elem_of_singleton].
      unfold oneLine in Hl. rewrite Forall_forall in Hl. by apply Hl in Hin. }
  assert (∃ s, bareLine (chars path) = "i"%char :: s ++ [doubleQuote]) as [s Hs].
  { exists (chars "mport " ++ doubleQuote :: chars path).
    unfold bareLine. rewrite <- !app_assoc. done. }
  cbn [fmap list_fmap].
  replace (trim ("#"%char :: " "%char :: bareLine (chars path)))
    with ("#"%char :: " "%char :: bareLine (chars path)).
  2:{ rewrite Hs. symmetry. apply (trim_id "#"%char (" "%char :: "i"%char :: s)); done. }
  rewrite filter_cons_True by done. rewrite filter_nil. cbn [fmap list_fmap removeFirst].
  rewrite bool_decide_true by done. rewrite trim_cons_space by done.
  rewrite Hs, trim_id by done. rewrite <- Hs.
  cbn [mapM]. by rewrite parseImportLine_bare.
Qed.

(** Claim C8, as the code has it.  A rendered import line is parsed back
    to its tokens and its path when there is at least one token, every
    token is free of commas, quotes and line terminators and has no white
    space at its ends, and the path is not empty and free of quotes and
    line terminators; the bare form of the line is then parsed to the
    wildcard and the path. *)
Theorem import_line_round_trip tokens path :
  tokens ≠ [] → Forall plainToken tokens → plainPath path →
  parseSDL (renderImport tokens path) = Ok [{| imports := tokens; from := path |}]
  ∧ parseSDL (renderBareImport path) = Ok [{| imports := ["*"]; from := path |}].
Proof.
  intros Hne Htokens Hpath. split.
  - by apply parseSDL_rendered.
  - destruct Hpath as (_ & Hq & Hl). by apply parseSDL_bare.
Qed.

(** The two lines that the claim spells out. *)
Lemma import_line_round_trip_witness :
  parseSDL (renderImport ["A"; "B.c"] "x.graphql")
  = Ok [{| imports := ["A"; "B.c"]; from := "x.graphql" |}]
  ∧ parseSDL (renderBareImport "x.graphql")
    = Ok [{| imports := ["*"]; from := "x.graphql" |}].
Proof.
  apply (import_line_round_trip ["A"; "B.c"] "x.graphql").
  - done.
  - repeat constructor; try (by vm_compute);
      apply (bool_decide_unpack _); by vm_compute.
  - repeat constructor; by vm_compute.
Defined.

(** Claim C8, the general sentence as stated: tokens and paths without
    commas and quotes that do not come back.  A token keeps no white
    space at its ends, an empty list comes back as one empty token, and
    an empty path is refused. *)
Lemma import_line_round_trip_fails :
  (commaFree (chars " A") ∧ quoteFree (chars " A")
   ∧ parseSDL (renderImport [" A"] "x.graphql")
     = Ok [{| imports := ["A"]; from := "x.graphql" |}])
  ∧ parseSDL (renderImport [] "x.graphql") = Ok [{| imports := [""]; from := "x.graphql" |}]
  ∧ (commaFree (chars "") ∧ quoteFree (chars "")
     ∧ ∃ e, parseSDL (renderImport ["A"] "") = Throw e).
Proof.
  split_and!; try (by vm_compute); try (by repeat constructor).
  - apply (bool_decide_unpack _). by vm_compute.
  - apply not_elem_of_nil.
  - eexists. by vm_compute.
Qed.

(** ** The hash of a document string *)

Lemma toInt32_range z : (- 2 ^ 31 ≤ toInt32 z < 2 ^ 31)%Z.
Proof.
  unfold toInt32. pose proof (Z.mod_pos_bound (z + 2 ^ 31) (2 ^ 32) ltac:(lia)). lia.
Qed.

Lemma toInt32_rep z : ∃ k, toInt32 z = (z + k * 2 ^ 32)%Z.
Proof.
  exists (- ((z + 2 ^ 31) `div` 2 ^ 32))%Z. unfold toInt32.
  pose proof (Z.div_mod (z + 2 ^ 31) (2 ^ 32) ltac:(lia)). lia.
Qed.

Lemma toInt32_eq a b k : a = (b + k * 2 ^ 32)%Z → toInt32 a = toInt32 b.
Proof.
  intros ->. unfold toInt32.
  replace (b + k * 2 ^ 32 + 2 ^ 31)%Z with (b + 2 ^ 31 + k * 2 ^ 32)%Z by lia.
  by rewrite Z.mod_add by lia.
Qed.

Lemma toInt32_id z : (- 2 ^ 31 ≤ z < 2 ^ 31)%Z → toInt32 z = z.
Proof. intros Hz. unfold toInt32. rewrite Z.mod_small by lia. lia. Qed.

Lemma toInt32_idemp z : toInt32 (toInt32 z) = toInt32 z.
Proof. apply toInt32_id, toInt32_range. Qed.

(** One round multiplies by 31 and adds the code unit, modulo [2 ^ 32]. *)
Lemma hashStep_spec hash char : hashStep hash char = toInt32 (31 * hash + char).
Proof.
  unfold hashStep. rewrite Z.land_diag, Z.shiftl_mul_pow2 by lia.
  destruct (toInt32_rep hash) as [k1 ->].
  destruct (toInt32_rep ((hash + k1 * 2 ^ 32) * 2 ^ 5)) as [k2 ->].
  apply (toInt32_eq _ _ (32 * k1 + k2)). lia.
Qed.

Lemma foldl_hashStep_range h codes :
  (- 2 ^ 31 ≤ h < 2 ^ 31)%Z → (- 2 ^ 31 ≤ foldl hashStep h codes < 2 ^ 31)%Z.
Proof.
  revert h. induction codes as [|c codes IH]; intros h Hh; [done|].
  simpl. apply IH. rewrite hashStep_spec. apply toInt32_range.
Qed.

Lemma foldl_hashStep_congr h h' codes :
  toInt32 h = toInt32 h' →
  toInt32 (foldl hashStep h codes) = toInt32 (foldl hashStep h' codes).
Proof.
  revert h h'. induction codes as [|c codes IH]; intros h h' Hh; [done|].
  simpl. apply IH. rewrite !hashStep_spec. f_equal.
  destruct (toInt32_rep h) as [k Hk], (toInt32_rep h') as [k' Hk'].
  apply (toInt32_eq _ _ (31 * (k' - k))). lia.
Qed.

(** Hashing on from [h] is hashing from zero, shifted by [h] times a
    power of 31. *)
Lemma foldl_hashStep_shift h codes :
  (- 2 ^ 31 ≤ h < 2 ^ 31)%Z →
  foldl hashStep h codes
  = toInt32 (h * 31 ^ Z.of_nat (length codes) + foldl hashStep 0%Z codes).
Proof.
  revert h. induction codes as [|c codes IH] using rev_ind; intros h Hh.
  - simpl. rewrite toInt32_id; lia.
  - rewrite !foldl_snoc, length_app, !hashStep_spec, IH by done. simpl length.
    destruct (toInt32_rep (h * 31 ^ Z.of_nat (length codes) + foldl hashStep 0%Z codes))
      as [k ->].
    destruct (toInt32_rep (31 * foldl hashStep 0%Z codes + c)) as [k' ->].
    apply (toInt32_eq _ _ (31 * k - k')).
    replace (Z.of_nat (length codes + 1)) with (Z.succ (Z.of_nat (length codes))) by lia.
    rewrite Z.pow_succ_r by lia. lia.
Qed.

Lemma stringToHash_foldl str : stringToHash str = foldl hashStep 0%Z (charCodes str).
Proof. unfold stringToHash. case_bool_decide as Hlen; [|done]. by destruct str. Qed.

Lemma charCodes_app a b : charCodes (a +:+ b) = charCodes a ++ charCodes b.
Proof. unfold charCodes. by rewrite chars_app, fmap_app. Qed.

Lemma length_charCodes str : length (charCodes str) = String.length str.
Proof.
  unfold charCodes. rewrite length_fmap.
  induction str as [|c str IH]; simpl; [done|]. by rewrite IH.
Qed.

(** X1.  The hash is a 32-bit integer, and zero for the empty text. *)
Theorem stringToHash_int32 str :
  (- 2 ^ 31 ≤ stringToHash str < 2 ^ 31)%Z ∧ stringToHash "" = 0%Z.
Proof.
  split; [|done]. rewrite stringToHash_foldl. apply foldl_hashStep_range. lia.
Qed.

(** X2.  The hash of a concatenation: the hash of the first text times 31 to
    the length of the second, plus the hash of the second, as a 32-bit
    integer. *)
Theorem stringToHash_app a b :
  stringToHash (a +:+ b)
  = toInt32 (stringToHash a * 31 ^ Z.of_nat (String.length b) + stringToHash b).
Proof.
  rewrite !stringToHash_foldl, charCodes_app, foldl_app, <- length_charCodes.
  apply foldl_hashStep_shift, foldl_hashStep_range. lia.
Qed.

(** X3.  Texts that differ only by [Aa] against [BB] have the same hash. *)
Theorem stringToHash_collides before after :
  stringToHash (before +:+ "Aa" +:+ after) = stringToHash (before +:+ "BB" +:+ after)
  ∧ before +:+ "Aa" +:+ after ≠ before +:+ "BB" +:+ after.
Proof.
  split.
  - rewrite !stringToHash_foldl, !charCodes_app, !foldl_app. f_equal.
    change (charCodes "Aa") with [65; 97]%Z. change (charCodes "BB") with [66; 66]%Z.
    cbn [foldl]. rewrite !hashStep_spec.
    destruct (toInt32_rep (31 * foldl hashStep 0%Z (charCodes before) + 65)) as [k ->].
    destruct (toInt32_rep (31 * foldl hashStep 0%Z (charCodes before) + 66)) as [k' ->].
    apply (toInt32_eq _ _ (31 * (k - k'))). lia.
  - induction before as [|c before IH]; [done|]. intros [=]. by apply IH.
Qed.

(** ** Patterns without captures: what [test] finds *)

Lemma matchStar_complete {R} p s rest (k : list ascii → option R) :
  Forall (λ c, p c = true) s → is_Some (k rest) → is_Some (matchStar p (s ++ rest) k).
Proof.
  intros Hs Hk. induction Hs as [|c s Hc _ IH]; simpl.
  - destruct rest as [|c rest]; [done|]. simpl. destruct (p c); [|done].
    by destruct (matchStar p rest k).
  - rewrite Hc. by destruct IH as [x ->].
Qed.

(** The matcher finds a match whenever the pattern accepts and the rest
    of the work succeeds. *)
Lemma matchRegex_complete {R} r input rest caps (k : list ascii → Captures → option R) :
  Accepts r input rest → (∀ caps', is_Some (k rest caps')) →
  is_Some (matchRegex r input caps k).
Proof.
  revert input rest caps k.
  induction r as [s|p|p|p|r IH|r1 IH1 r2 IH2|r1 IH1 r2 IH2|n r IH|];
    intros input rest caps k; simpl.
  - intros -> Hk. by rewrite stripPrefix_app.
  - intros (c & -> & Hc) Hk. by rewrite Hc.
  - intros (s & -> & Hs) Hk. by apply matchStar_complete.
  - intros (s & -> & Hne & Hs) Hk. destruct Hs as [|c s Hc Hs]; [done|].
    simpl. rewrite Hc. by apply matchStar_complete.
  - intros [->|Hr] Hk.
    + by destruct (matchRegex r input caps k).
    + by destruct (IH _ _ caps k Hr Hk) as [x ->].
  - intros [Hr|Hr] Hk.
    + by destruct (IH1 _ _ caps k Hr Hk) as [x ->].
    + destruct (matchRegex r1 input caps k); [done|]. by eapply IH2.
  - intros (mid & H1 & H2) Hk. eapply IH1; [exact H1|].
    intros caps'. by eapply IH2.
  - intros Hr Hk. eapply IH; [exact Hr|]. intros caps'. apply Hk.
  - intros [-> ->] Hk. apply Hk.
Qed.

Lemma exec_is_Some r s : is_Some (exec r s) ↔ ∃ rest, Accepts r s rest.
Proof.
  unfold exec. split.
  - intros [caps (rest & _ & Hacc & _)%matchRegex_sound]. by exists rest.
  - intros [rest Hacc]. by eapply matchRegex_complete.
Qed.

(** [test] answers whether some suffix of the text is accepted. *)
Lemma test_true r s :
  test r s = true ↔ ∃ before from rest, s = before ++ from ∧ Accepts r from rest.
Proof.
  induction s as [|c s IH]; simpl.
  - destruct (exec r []) as [caps|] eqn:Hexec.
    + split; [intros _|done].
      destruct (proj1 (exec_is_Some r [])) as [rest Hacc]; [by rewrite Hexec|].
      by exists [], [], rest.
    + split; [done|]. intros (before & from & rest & Heq & Hacc).
      symmetry in Heq. apply app_eq_nil in Heq as [-> ->].
      destruct (proj2 (exec_is_Some r [])) as [x Hx]; [by exists rest|]. congruence.
  - destruct (exec r (c :: s)) as [caps|] eqn:Hexec.
    + split; [intros _|done].
      destruct (proj1 (exec_is_Some r (c :: s))) as [rest Hacc]; [by rewrite Hexec|].
      by exists [], (c :: s), rest.
    + rewrite IH. split.
      * intros (before & from & rest & -> & Hacc). by exists (c :: before), from, rest.
      * intros ([|c' before] & from & rest & Heq & Hacc).
        -- simpl in Heq. subst from.
           destruct (proj2 (exec_is_Some r (c :: s))) as [x Hx]; [by exists rest|].
           congruence.
        -- injection Heq as -> ->. by exists before, from, rest.
Qed.

(** ** GraphQL file names *)

Lemma gqlExt_Accepts from rest :
  Accepts gqlExt from rest ↔
  rest = [] ∧ from ∈ [chars ".gql"; chars ".gqls"; chars ".graphql"; chars ".graphqls"].
Proof.
  split.
  - intros (m1 & -> & m2 & Hraph & m3 & Hql & m4 & Hs & -> & ->).
    split; [done|]. simpl in Hql. subst m2.
    destruct Hraph as [<-| ->]; destruct Hs as [<-| ->]; set_solver.
  - intros [-> Hfrom]. unfold gqlExt. cbn [sequence Accepts].
    repeat (apply elem_of_cons in Hfrom as [->|Hfrom]).
    + exists (chars "ql"). split; [done|]. exists (chars "ql"). split; [by left|].
      exists []. split; [done|]. exists []. split; [by left | done].
    + exists (chars "qls"). split; [done|]. exists (chars "qls"). split; [by left|].
      exists (chars "s"). split; [done|]. exists []. split; [by right | done].
    + exists (chars "raphql"). split; [done|]. exists (chars "ql"). split; [by right|].
      exists []. split; [done|]. exists []. split; [by left | done].
    + exists (chars "raphqls"). split; [done|]. exists (chars "qls"). split; [by right|].
      exists (chars "s"). split; [done|]. exists []. split; [by right | done].
    + by apply not_elem_of_nil in Hfrom.
Qed.

(** X4.  A file name counts as a GraphQL file exactly when it ends in [.gql],
    [.gqls], [.graphql] or [.graphqls], in lower case. *)
Theorem isGraphQLFile_extensions f :
  isGraphQLFile f = true ↔
  ∃ stem ext, f = stem +:+ ext ∧ ext ∈ [".gql"; ".gqls"; ".graphql"; ".graphqls"].
Proof.
  unfold isGraphQLFile. rewrite test_true. split.
  - intros (before & from & rest & Heq & [-> Hfrom]%gqlExt_Accepts).
    exists (text before).
    assert (∃ ext, from = chars ext ∧ ext ∈ [".gql"; ".gqls"; ".graphql"; ".graphqls"])
      as (ext & -> & Hext).
    { repeat (apply elem_of_cons in Hfrom as [->|Hfrom]);
        [eexists; split; [done|set_solver]..|by apply not_elem_of_nil in Hfrom]. }
    exists ext. split; [|done].
    rewrite <- (text_chars f), Heq, <- (text_chars (text before +:+ ext)).
    by rewrite chars_app, chars_text.
  - intros (stem & ext & -> & Hext). exists (chars stem), (chars ext), [].
    split; [by rewrite chars_app|]. apply gqlExt_Accepts. split; [done|].
    repeat (apply elem_of_cons in Hext as [->|Hext]); [set_solver..|].
    by apply not_elem_of_nil in Hext.
Qed.

(** ** Schemas line by line *)

Lemma split_nonempty sep s : split sep s ≠ [].
Proof.
  destruct s as [|c s]; [done|]. simpl. case_bool_decide; [done|].
  by destruct (split sep s).
Qed.

(** Splitting at a separator splits both sides. *)
Lemma split_app sep a b : split sep (a ++ sep :: b) = split sep a ++ split sep b.
Proof.
  induction a as [|c a IH]; simpl.
  - by rewrite bool_decide_true.
  - case_bool_decide; [by rewrite IH|]. rewrite IH.
    pose proof (split_nonempty sep a). by destruct (split sep a).
Qed.

Lemma chars_lines a b :
  chars (a +:+ nl +:+ b) = chars a ++ Ascii.ascii_of_nat 10 :: chars b.
Proof. by rewrite !chars_app. Qed.

Lemma mapM_app {A B} (f : A → Result B) l1 l2 :
  mapM f (l1 ++ l2) = (ys1 ← mapM f l1; ys2 ← mapM f l2; Ok (ys1 ++ ys2)).
Proof.
  induction l1 as [|x l1 IH]; simpl.
  - by destruct (mapM f l2).
  - destruct (f x) as [y|e]; [|done]. simpl. rewrite IH.
    destruct (mapM f l1) as [ys1|e]; [|done]. simpl.
    by destruct (mapM f l2) as [ys2|e].
Qed.

(** X5.  A schema is empty exactly when the text before and the text after
    any of its line feeds are. *)
Theorem isEmptySDL_lines a b :
  isEmptySDL (a +:+ nl +:+ b) = isEmptySDL a && isEmptySDL b.
Proof.
  unfold isEmptySDL. rewrite chars_lines, split_app, fmap_app, filter_app, length_app.
  repeat case_bool_decide; simpl; try done; lia.
Qed.

Lemma parseSDL_nl a b :
  parseSDL (a +:+ nl +:+ b)
  = (before ← parseSDL a; after ← parseSDL b; Ok (before ++ after)).
Proof.
  unfold parseSDL. by rewrite chars_lines, split_app, fmap_app, filter_app, fmap_app, mapM_app.
Qed.

(** X6.  The import lines of a schema are those of the text before a line
    feed followed by those of the text after it; the first line that does
    not parse decides the error. *)
Theorem parseSDL_lines a b :
  parseSDL (a +:+ nl +:+ b)
  = (before ← parseSDL a; after ← parseSDL b; Ok (before ++ after)).
Proof.
  unfold parseSDL. rewrite chars_lines, split_app, fmap_app, filter_app, fmap_app.
  apply mapM_app.
Qed.

(** *** Import comments that name no file *)

Lemma quoted_Accepts a b c input rest :
  Accepts (quoted a b c) input rest → ∃ q, isQuote q = true ∧ q ∈ input.
Proof.
  intros (m1 & (q1 & -> & Hq1) & _). exists q1. split; [done|left].
Qed.

Lemma IMPORT_FROM_REGEX_quote input rest :
  Accepts IMPORT_FROM_REGEX input rest → ∃ q, isQuote q = true ∧ q ∈ input.
Proof.
  rewrite IMPORT_FROM_REGEX_eq.
  intros (m1 & -> & m2 & (w1 & -> & _) & m3 & [g ->]%importList_Accepts
          & (w2 & w3 & q1 & g4 & q2 & semi & -> & _ & _ & _ & _ & Hq1 & _)%fromClause_Accepts).
  exists q1. split; [done|]. set_solver.
Qed.

Lemma IMPORT_DEFAULT_REGEX_quote input rest :
  Accepts IMPORT_DEFAULT_REGEX input rest → ∃ q, isQuote q = true ∧ q ∈ input.
Proof.
  rewrite IMPORT_DEFAULT_REGEX_eq.
  intros (m1 & -> & m2 & (w1 & -> & _) & (q & Hq & Hin)%quoted_Accepts).
  exists q. split; [done|]. set_solver.
Qed.

Lemma parseImportLine_unquoted importLine :
  quoteFree (chars importLine) →
  parseImportLine importLine = Throw (InvalidImport importLine).
Proof.
  intros Hq. unfold parseImportLine, quoteFree in *. rewrite Forall_forall in Hq.
  destruct (exec IMPORT_FROM_REGEX (chars importLine)) as [caps|] eqn:Hfrom.
  { destruct (proj1 (exec_is_Some IMPORT_FROM_REGEX (chars importLine)))
      as [rest (q & Hquote & Hin)%IMPORT_FROM_REGEX_quote]; [by rewrite Hfrom|].
    apply Hq in Hin. congruence. }
  destruct (exec IMPORT_DEFAULT_REGEX (chars importLine)) as [caps|] eqn:Hdefault; [|done].
  destruct (proj1 (exec_is_Some IMPORT_DEFAULT_REGEX (chars importLine)))
    as [rest (q & Hquote & Hin)%IMPORT_DEFAULT_REGEX_quote]; [by rewrite Hdefault|].
  apply Hq in Hin. congruence.
Qed.

(** X7.  A comment line that starts like an import and holds no quote is not
    skipped: scanning it fails, with the line in the error. *)
Theorem parseSDL_import_without_path body final :
  quoteFree (chars body ++ [final]) → Ascii.ascii_of_nat 10 ∉ chars body ++ [final] →
  isWhiteSpace final = false →
  parseSDL ("# import " +:+ body +:+ String final "")
  = Throw (InvalidImport ("import " +:+ body +:+ String final "")).
Proof.
  intros Hq Hnl Hfinal. unfold parseSDL. rewrite !chars_app.
  change (chars (String final "")) with [final].
  change (chars "# import " ++ ?t) with ("#"%char :: " "%char :: chars "import " ++ t).
  rewrite split_no_sep.
  2:{ change (chars "import " ++ ?t) with ("i" :: "m" :: "p" :: "o" :: "r" :: "t" :: " " :: t)%char.
      intros Hin. repeat (apply elem_of_cons in Hin as [[=]|Hin]). done. }
  cbn [fmap list_fmap].
  change ("#"%char :: " "%char :: chars "import " ++ chars body ++ [final])
    with ("#"%char :: (" "%char :: chars "import " ++ chars body) ++ [final]).
  rewrite trim_id by done.
  rewrite filter_cons_True by done. rewrite filter_nil. cbn [fmap list_fmap removeFirst].
  rewrite bool_decide_true by done.
  change ((" "%char :: chars "import " ++ chars body) ++ [final])
    with (" "%char :: "i"%char :: (chars "mport " ++ chars body) ++ [final]).
  rewrite trim_cons_space, trim_id by done.
  cbn [mapM]. rewrite parseImportLine_unquoted.
  - rewrite <- (text_chars ("import " +:+ body +:+ String final "")), !chars_app. done.
  - rewrite chars_text, <- app_assoc. apply Forall_cons. split; [done|].
    apply Forall_app. split; [by repeat constructor | done].
Qed.

Lemma parseSDL_import_without_path_witness :
  parseSDL "# import A from file" = Throw (InvalidImport "import A from file").
Proof.
  apply (parseSDL_import_without_path "A from fil" "e"%char).
  - unfold quoteFree. by repeat constructor.
  - by apply (bool_decide_unpack _).
  - done.
Defined.

(** ** Filtering by kind *)

Lemma filter_all {A} (P : A → Prop) `{∀ x, Decision (P x)} (l : list A) :
  Forall P l → filter P l = l.
Proof.
  induction 1 as [|x l Hx _ IH]; [done|]. by rewrite filter_cons_True, IH.
Qed.

Lemma filter_filter_and {A} (P Q : A → Prop) `{∀ x, Decision (P x)} `{∀ x, Decision (Q x)}
    (l : list A) :
  filter Q (filter P l) = filter (λ x, P x ∧ Q x) l.
Proof.
  induction l as [|x l IH]; [done|].
  destruct (decide (P x)) as [HP|HP].
  - rewrite (filter_cons_True P) by done.
    destruct (decide (Q x)) as [HQ|HQ].
    + by rewrite !filter_cons_True, IH.
    + rewrite !filter_cons_False, IH by tauto. done.
  - rewrite (filter_cons_False P), (filter_cons_False (λ x, P x ∧ Q x)) by tauto. done.
Qed.

(** With a document and a list of kinds at hand, the result is the
    document without the definitions of those kinds, in their order; the
    cases that return the document as it is (no definitions, no kinds) are
    no exception.  Without a document or without a list, nothing changes. *)
Lemma filterKind_keeps content filterKinds :
  filterKind content filterKinds
  = match content, filterKinds with
    | Some definitions, Some kinds =>
        Some (filter (λ d, ¬ kindOf d ∈ kinds) definitions)
    | _, _ => content
    end.
Proof.
  destruct content as [definitions|], filterKinds as [kinds|]; try done.
  unfold filterKind. repeat case_bool_decide; simpl; try done.
  - destruct kinds; [|simpl in *; lia]. f_equal. symmetry. apply filter_all.
    apply Forall_forall. intros d _. apply not_elem_of_nil.
  - by destruct definitions.
  - by destruct definitions.
Qed.

(** X8.  Filtering by one list of kinds and then by another is filtering by
    both at once; filtering twice by the same list changes nothing more. *)
Theorem filterKind_twice content kinds1 kinds2 :
  filterKind (filterKind content (Some kinds1)) (Some kinds2)
  = filterKind content (Some (kinds1 ++ kinds2))
  ∧ filterKind (filterKind content (Some kinds1)) (Some kinds1)
    = filterKind content (Some kinds1).
Proof.
  rewrite !filterKind_keeps. destruct content as [definitions|]; [|done].
  rewrite !filter_filter_and. split; f_equal; apply list_filter_iff; intros d.
  - rewrite elem_of_app. tauto.
  - tauto.
Qed.

Lemma Kind_values (Kind : list (string * string)) :
  foldl (λ prev v, prev ++ [v.2]) [] Kind = Kind.*2.
Proof.
  induction Kind as [|v Kind IH] using rev_ind; [done|].
  by rewrite foldl_snoc, IH, fmap_app.
Qed.

(** X9.  The two filters of the loaders split a document: filtering by the
    kinds that are no operations leaves the operations and fragments,
    filtering by the operation kinds leaves all the rest, and each
    definition is in exactly one of the two. *)
Theorem operation_kinds_split (Kind : list (string * string)) definitions :
  (∀ d, d ∈ definitions → kindOf d ∈ Kind.*2) →
  filterKind (Some definitions) (Some (NON_OPERATION_KINDS Kind))
  = Some (filter (λ d, kindOf d ∈ OPERATION_KINDS) definitions)
  ∧ filterKind (Some definitions) (Some OPERATION_KINDS)
    = Some (filter (λ d, ¬ kindOf d ∈ OPERATION_KINDS) definitions)
  ∧ definitions
    ≡ₚ filter (λ d, kindOf d ∈ OPERATION_KINDS) definitions
       ++ filter (λ d, ¬ kindOf d ∈ OPERATION_KINDS) definitions.
Proof.
  intros HKind. rewrite !filterKind_keeps. split_and!; [|done|].
  - f_equal. unfold NON_OPERATION_KINDS. rewrite Kind_values.
    induction definitions as [|d definitions IH]; [done|].
    assert (kindOf d ∈ Kind.*2) as Hd by (apply HKind; left).
    rewrite !filter_cons.
    rewrite IH by (intros x Hx; apply HKind; by right).
    destruct (decide (kindOf d ∈ OPERATION_KINDS)) as [Hop|Hop].
    + rewrite decide_True; [done|]. by intros [? _]%list_elem_of_filter.
    + rewrite decide_False; [done|]. intros Hnot. apply Hnot.
      by apply list_elem_of_filter.
  - clear HKind. induction definitions as [|d definitions IH]; [done|].
    rewrite !filter_cons. destruct (decide (kindOf d ∈ OPERATION_KINDS)).
    + rewrite decide_False by tauto. simpl. by f_equiv.
    + rewrite decide_True by done. rewrite <- Permutation_middle. by f_equiv.
Qed.

Lemma operation_kinds_split_witness :
  filterKind (Some [Sample.Query; Sample.schemaDef])
    (Some (NON_OPERATION_KINDS [("OBJECT_TYPE_DEFINITION", "ObjectTypeDefinition");
                                ("SCHEMA_DEFINITION", "SchemaDefinition");
                                ("OPERATION_DEFINITION", "OperationDefinition")]))
  = Some (filter (λ d, kindOf d ∈ OPERATION_KINDS) [Sample.Query; Sample.schemaDef]).
Proof.
  refine (proj1 (operation_kinds_split _ [Sample.Query; Sample.schemaDef] _)).
  intros d Hd. apply list_elem_of_In in Hd. simpl in Hd.
  destruct Hd as [<-|[<-|[]]]; apply (bool_decide_unpack _); by vm_compute.
Defined.

(** ** More about the completed pool *)

(** Successful runs of the loop, one iteration at a time. *)
Lemma completeLoop_Ok_ind
    (Q : list DefinitionNode → gset string → list DefinitionNode → list DefinitionNode → Prop)
    all' res :
  (∀ visited pool, res = uniqBy nameOf pool → Q all' visited pool []) →
  (∀ all visited pool d rest,
     defName d ∈ visited → Q (reverse all) visited pool rest →
     Q all visited pool (d :: rest)) →
  (∀ all visited pool d rest c,
     defName d ∉ visited →
     collectNewTypeDefinitions (reverse all) pool (keyBy defName (reverse all)) d = Ok c →
     Q (reverse all) ({[defName d]} ∪ visited) (pool ++ c) (rest ++ c) →
     Q all visited pool (d :: rest)) →
  ∀ fuel all visited pool work,
    completeLoop fuel all visited pool work = Some (Ok (all', res)) →
    Q all visited pool work.
Proof.
  intros Hnil Hskip Hprocess fuel.
  induction fuel as [|fuel IHfuel]; intros all visited pool work;
    revert all visited pool; induction work as [|d rest IHwork];
    intros all visited pool Hrun.
  1,3: rewrite completeLoop_nil in Hrun; injection Hrun as <- <-; by apply Hnil.
  - destruct (decide (defName d ∈ visited)) as [Hv|Hv].
    + rewrite completeLoop_skip in Hrun by done. apply Hskip; [done|]. by apply IHwork.
    + by rewrite completeLoop_out_of_fuel in Hrun.
  - destruct (decide (defName d ∈ visited)) as [Hv|Hv].
    + rewrite completeLoop_skip in Hrun by done. apply Hskip; [done|]. by apply IHwork.
    + rewrite completeLoop_process in Hrun by done.
      destruct (collectNewTypeDefinitions _ _ _ d) as [c|] eqn:Hc; [|done].
      eapply Hprocess; [done..|]. by apply IHfuel.
Qed.

(** What the loop returns is the pool it was given followed by
    definitions of [allDefinitions], deduplicated. *)
Lemma completeLoop_extends fuel all visited pool work all' res :
  completeLoop fuel all visited pool work = Some (Ok (all', res)) →
  ∃ extras, res = uniqBy nameOf (pool ++ extras) ∧ ∀ x, x ∈ extras → x ∈ all.
Proof.
  revert fuel all visited pool work.
  apply (completeLoop_Ok_ind
           (λ all visited pool work,
              ∃ extras, res = uniqBy nameOf (pool ++ extras) ∧ ∀ x, x ∈ extras → x ∈ all)).
  - intros visited pool ->. exists []. split; [by rewrite app_nil_r|].
    by intros x ?%not_elem_of_nil.
  - intros all visited pool d rest _ (extras & -> & Hextras).
    exists extras. split; [done|]. intros x Hx. by apply elem_of_reverse, Hextras.
  - intros all visited pool d rest c _ Hc (extras & -> & Hextras).
    apply collect_Ok in Hc as (Hc & _); [|apply keyBy_defName_sound].
    exists (c ++ extras). split; [by rewrite app_assoc|].
    intros x [Hx|Hx]%elem_of_app; apply elem_of_reverse; [|by apply Hextras].
    rewrite Forall_forall in Hc. by apply Hc.
Qed.

(** X10.  On input that no definition of [allDefinitions] or of the
    worklist bears or looks up an inherited name, the completed pool holds
    no name twice; it never holds a definition that is neither in the pool
    it was given nor in [allDefinitions]; and it begins with the given
    pool, deduplicated: a definition that was first of its name in the pool
    is never replaced. *)
Theorem completeDefinitionPool_conservative all pool work res :
  Forall ordinary (all ++ work) →
  completeDefinitionPool all pool work = Ok res →
  NoDup (nameOf <$> res)
  ∧ (∀ d, d ∈ res → d ∈ pool ∨ d ∈ all)
  ∧ uniqBy nameOf pool `prefix_of` res.
Proof.
  intros _ (all' & (extras & -> & Hextras)%completeLoop_extends)%completeDefinitionPool_Ok.
  split_and!.
  - apply uniqBy_NoDup.
  - intros d [Hd|Hd]%elem_of_uniqBy%elem_of_app; [by left | right; by apply Hextras].
  - unfold uniqBy. rewrite uniqByFrom_app. by eexists.
Qed.

Lemma completeDefinitionPool_conservative_witness :
  NoDup (nameOf <$> [Sample.Query; Sample.A_first])
  ∧ (∀ d, d ∈ [Sample.Query; Sample.A_first] →
          d ∈ [Sample.Query] ∨ d ∈ [Sample.A_first; Sample.B])
  ∧ uniqBy nameOf [Sample.Query] `prefix_of` [Sample.Query; Sample.A_first].
Proof.
  apply (completeDefinitionPool_conservative [Sample.A_first; Sample.B]
           [Sample.Query] [Sample.Query]).
  - apply (bool_decide_unpack _). by vm_compute.
  - by vm_compute.
Defined.

Lemma completeLoop_more_fuel fuel all visited pool work r :
  completeLoop fuel all visited pool work = Some r →
  completeLoop (S fuel) all visited pool work = Some r.
Proof.
  revert all visited pool work.
  induction fuel as [|fuel IHfuel]; intros all visited pool work;
    revert all visited pool; induction work as [|d rest IHwork];
    intros all visited pool Hrun.
  1,3: by rewrite completeLoop_nil in *.
  - destruct (decide (defName d ∈ visited)) as [Hv|Hv].
    + rewrite completeLoop_skip in * by done. by apply IHwork.
    + by rewrite completeLoop_out_of_fuel in Hrun.
  - destruct (decide (defName d ∈ visited)) as [Hv|Hv].
    + rewrite completeLoop_skip in * by done. by apply IHwork.
    + rewrite completeLoop_process in Hrun by done.
      rewrite (completeLoop_process (S fuel)) by done.
      destruct (collectNewTypeDefinitions _ _ _ d) as [c|]; [|done].
      by apply IHfuel.
Qed.

(** X11.  The loop always comes to an end: it processes at most one definition
    for each name of [allDefinitions] and of the worklist, however much
    the worklist grows on the way; allowing it more rounds than that
    changes nothing. *)
Theorem completeDefinitionPool_terminates all pool work fuel :
  length all + length work ≤ fuel →
  completeLoop fuel all ∅ pool work = Some (completeDefinitionPoolState all pool work).
Proof.
  intros Hfuel.
  assert (is_Some (completeLoop (length all + length work) all ∅ pool work)) as [r Hr].
  { apply completeLoop_is_Some.
    etrans; [apply subseteq_size; apply subseteq_difference_l; reflexivity|].
    etrans; [apply size_list_to_set_le|]. by rewrite length_fmap, length_app. }
  assert (∀ n, completeLoop (n + (length all + length work)) all ∅ pool work = Some r)
    as Hmore.
  { intros n. induction n as [|n IH]; [done|]. by apply completeLoop_more_fuel. }
  rewrite <- completeDefinitionPoolState_loop. unfold completeFuel.
  change (S (length all + length work)) with (1 + (length all + length work)).
  rewrite (Hmore 1).
  replace fuel with ((fuel - (length all + length work)) + (length all + length work)) by lia.
  apply Hmore.
Qed.

Lemma completeDefinitionPool_terminates_witness :
  completeLoop 5 [Sample.I; Sample.T] ∅ [Sample.I] [Sample.I]
  = Some (completeDefinitionPoolState [Sample.I; Sample.T] [Sample.I] [Sample.I]).
Proof.
  apply (completeDefinitionPool_terminates [Sample.I; Sample.T] [Sample.I] [Sample.I] 5).
  simpl. lia.
Defined.

(** *** Interfaces bring their implementations *)

Lemma completeLoop_implementations d fuel all visited pool work all' res :
  completeLoop fuel all visited pool work = Some (Ok (all', res)) →
  ∀ before after, work = before ++ d :: after →
    defName d ∉ visited → defName d ∉ defName <$> before →
    ∀ x, x ∈ implementations all d → nameOf x ∈ nameOf <$> res.
Proof.
  intros Hrun.
  cut ((∀ x, x ∈ pool → nameOf x ∈ nameOf <$> res)
       ∧ ∀ before after, work = before ++ d :: after →
           defName d ∉ visited → defName d ∉ defName <$> before →
           ∀ x, x ∈ implementations all d → nameOf x ∈ nameOf <$> res); [tauto|].
  revert fuel all visited pool work Hrun.
  apply (completeLoop_Ok_ind
           (λ all visited pool work,
              (∀ x, x ∈ pool → nameOf x ∈ nameOf <$> res)
              ∧ ∀ before after, work = before ++ d :: after →
                  defName d ∉ visited → defName d ∉ defName <$> before →
                  ∀ x, x ∈ implementations all d → nameOf x ∈ nameOf <$> res)).
  - intros visited pool ->. split.
    + intros x Hx. by apply uniqBy_keys, list_elem_of_fmap_2.
    + intros before after Hwork. by destruct before.
  - intros all visited pool h rest Hv [Hpool IH]. split; [done|].
    intros before after Hwork Hd Hbefore x Hx.
    destruct before as [|b before]; simpl in Hwork; injection Hwork as -> ->; [done|].
    eapply (IH before after); [done..| |].
    + rewrite fmap_cons in Hbefore. set_solver.
    + eapply implementations_same_elements; [|exact Hx].
      intros y. by rewrite elem_of_reverse.
  - intros all visited pool h rest c Hv Hc [Hpool IH]. split.
    { intros x Hx. apply Hpool, elem_of_app. by left. }
    intros before after Hwork Hd Hbefore x Hx.
    destruct before as [|b before]; simpl in Hwork; injection Hwork as -> ->.
    + apply collect_Ok in Hc as (_ & _ & Himpl); [|apply keyBy_defName_sound].
      apply Hpool, elem_of_app. right. apply Himpl.
      eapply implementations_same_elements; [|exact Hx].
      intros y. by rewrite elem_of_reverse.
    + eapply (IH before (after ++ c)); [by rewrite <- app_assoc|..].
      * rewrite fmap_cons in Hbefore. set_solver.
      * rewrite fmap_cons in Hbefore. set_solver.
      * eapply implementations_same_elements; [|exact Hx].
        intros y. by rewrite elem_of_reverse.
Qed.

(** X12.  On input that no definition of [allDefinitions] or of the
    worklist bears or looks up an inherited name: when the worklist holds
    an interface, first of its name there, the completed pool names every
    object type of [allDefinitions] that implements it. *)
Theorem interface_brings_implementations all pool before name directives fields after
    res x :
  Forall ordinary
    (all ++ before ++ InterfaceTypeDefinition name directives fields :: after) →
  defName (InterfaceTypeDefinition name directives fields) ∉ defName <$> before →
  completeDefinitionPool all pool
    (before ++ InterfaceTypeDefinition name directives fields :: after) = Ok res →
  x ∈ all → implementsInterface name x = true →
  nameOf x ∈ nameOf <$> res.
Proof.
  intros _ Hfirst (all' & Hrun)%completeDefinitionPool_Ok Hx Himpl.
  eapply completeLoop_implementations; [exact Hrun|done|set_solver|done|].
  apply elem_of_implementations. split; [done|]. by eexists _, _, _.
Qed.

Lemma interface_brings_implementations_witness :
  nameOf Sample.T ∈ nameOf <$> [Sample.I; Sample.T].
Proof.
  apply (interface_brings_implementations [Sample.I; Sample.T] [Sample.I] []
           "I" [] [Sample.field "id" "ID"] [] [Sample.I; Sample.T] Sample.T).
  - apply (bool_decide_unpack _). by vm_compute.
  - apply not_elem_of_nil.
  - by vm_compute.
  - set_solver.
  - by vm_compute.
Defined.

(** ** More about a resolution *)

Section resolution_steps.
Variable sortFields : list FieldEntry → list FieldEntry.
Variable resolveModuleFilePath : string → string → string.
Variable files : gmap string Source.
Variable sort : bool.

(** A relation that every step of a resolution respects holds from the
    beginning of [collectDefinitionsSync] to its end. *)
Lemma collectDefinitionsSync_steps (R : Resolution → Resolution → Prop) :
  (∀ st, R st st) → (∀ st1 st2 st3, R st1 st2 → R st2 st3 → R st1 st3) →
  (∀ source imports st rawModules st',
     preapreRawModules sortFields sort source imports st = Ok (rawModules, st') → R st st') →
  (∀ filepath module st,
     R st {| store := store st;
             processedFiles := (canProcess filepath module (processedFiles st)).2;
             typeDefinitions := typeDefinitions st; allDefinitions := allDefinitions st |}) →
  (∀ nodes st,
     R st {| store := store st ++ nodes; processedFiles := processedFiles st;
             typeDefinitions := typeDefinitions st; allDefinitions := allDefinitions st |}) →
  ∀ fuel imports source st st',
    collectDefinitionsSync sortFields resolveModuleFilePath files sort fuel imports source st
    = Some (Ok st') →
    R st st'.
Proof.
  intros Hrefl Htrans Hpre Hcan Hload fuel.
  induction fuel as [|fuel IH]; intros imports source st st' Hrun; [done|].
  simpl in Hrun.
  destruct (preapreRawModules _ _ _ _ _) as [[rawModules st1]|e] eqn:Hprepare; [|done].
  eapply Htrans; [by eapply Hpre|]. clear Hprepare st.
  revert st1 Hrun. induction rawModules as [|m rest IHrest]; intros st Hrun.
  { injection Hrun as <-. apply Hrefl. }
  simpl in Hrun. destruct m as [moduleImports moduleFrom].
  pose proof (Hcan (resolveModuleFilePath (ds_location source) moduleFrom)
                {| imports := moduleImports; from := moduleFrom |} st) as Hstep.
  destruct (canProcess _ _ (processedFiles st)) as [can registry].
  simpl in Hstep. eapply Htrans; [exact Hstep|]. clear Hstep.
  destruct can; [|by apply IHrest].
  destruct (load files _ (store st)) as [[result σ]|e] eqn:Hloaded; [|done].
  simpl in Hrun.
  destruct (collectDefinitionsSync _ _ _ _ fuel moduleImports result _)
    as [[st1|e]|] eqn:Hrec; [|done..].
  apply IH in Hrec. apply IHrest in Hrun.
  eapply Htrans; [|eapply Htrans; [exact Hrec | exact Hrun]].
  unfold load, instantiate in Hloaded. destruct (files !! _) as [f|]; [|done].
  destruct (document f) as [nodes|]; [|done]. simpl in Hloaded.
  injection Hloaded as _ <-. apply (Hload nodes).
Qed.

Lemma canProcess_registryWf filepath module registry :
  registryWf registry → registryWf (canProcess filepath module registry).2.
Proof.
  intros Hwf. unfold canProcess.
  destruct (registry !! filepath) as [processedFile|] eqn:Hfile.
  - case_bool_decide as Hin; [done|]. simpl.
    intros path l. destruct (decide (path = filepath)) as [->|Hne].
    + rewrite lookup_insert_eq. intros [= <-].
      apply NoDup_app. split_and!; [by eapply Hwf| |apply NoDup_singleton].
      intros x Hx ->%list_elem_of_singleton. done.
    + rewrite lookup_insert_ne by done. apply Hwf.
  - simpl. intros path l. destruct (decide (path = filepath)) as [->|Hne].
    + rewrite lookup_insert_eq. intros [= <-]. apply NoDup_singleton.
    + rewrite lookup_insert_ne by done. apply Hwf.
Qed.

(** X13.  The registry never lists an import line twice for a file: if that
    holds when a resolution starts, it holds when the resolution ends. *)
Theorem registry_lists_no_line_twice fuel imports source st st' :
  registryWf (processedFiles st) →
  collectDefinitionsSync sortFields resolveModuleFilePath files sort fuel imports source st
  = Some (Ok st') →
  registryWf (processedFiles st').
Proof.
  intros Hwf Hrun. revert Hwf.
  eapply (collectDefinitionsSync_steps
            (λ st st', registryWf (processedFiles st) → registryWf (processedFiles st')));
    [done|auto| | |done|exact Hrun].
  - intros source' imports' st0 rawModules st1 Hpre. unfold preapreRawModules in Hpre.
    by apply bind_Ok in Hpre as ([current σ] & _ & (mods & _ & [= _ <-])%bind_Ok).
  - intros filepath module st0. simpl. apply canProcess_registryWf.
Qed.

Lemma inStep_refl st : inStep st st.
Proof. exists [], []. by rewrite !app_nil_r. Qed.

Lemma inStep_trans st1 st2 st3 : inStep st1 st2 → inStep st2 st3 → inStep st1 st3.
Proof.
  intros (f1 & u1 & Ht1 & Ha1 & H1) (f2 & u2 & Ht2 & Ha2 & H2).
  exists (f1 ++ f2), (u1 ++ u2). rewrite Ht2, Ht1, Ha2, Ha1, !app_assoc.
  split_and!; [done..|]. by apply Forall2_app.
Qed.

Lemma filterImportedDefinitions_sublist imports defs all σ current σ' :
  filterImportedDefinitions sortFields sort imports defs all σ = Ok (current, σ') →
  current `sublist_of` defs.
Proof.
  unfold filterImportedDefinitions. case_bool_decide.
  - destruct (_ && _ && _); intros [= <- _]; [apply sublist_filter | done].
  - intros (σ1 & _ & [= <- _])%bind_Ok. apply sublist_filter.
Qed.

(** X14.  The two running totals grow together: whenever an array of
    definitions is pushed onto [allDefinitions], one array is pushed onto
    [typeDefinitions], holding some of the same nodes in the same order and
    nothing else. *)
Theorem totals_grow_together fuel imports source st st' :
  collectDefinitionsSync sortFields resolveModuleFilePath files sort fuel imports source st
  = Some (Ok st') →
  ∃ filtered unfiltered,
    typeDefinitions st' = typeDefinitions st ++ filtered
    ∧ allDefinitions st' = allDefinitions st ++ unfiltered
    ∧ Forall2 sublist filtered unfiltered.
Proof.
  apply (collectDefinitionsSync_steps inStep);
    [apply inStep_refl | apply inStep_trans | |
     intros; exists [], []; simpl; by rewrite !app_nil_r..].
  intros source' imports' st0 rawModules st1 Hpre. unfold preapreRawModules in Hpre.
  apply bind_Ok in Hpre as ([current σ] & Hfilter & (mods & _ & [= _ <-])%bind_Ok).
  exists [current], [ds_definitions source']. simpl. split_and!; [done..|].
  constructor; [|constructor]. by eapply filterImportedDefinitions_sublist.
Qed.
End resolution_steps.

(** Two files that import each other, resolved from the first: the
    import line of each is registered when it is first met, and the line
    of the first file is skipped when the file is loaded again. *)
Lemma registry_lists_no_line_twice_witness :
  registryWf
    (processedFiles
       {| store := [Sample.A_first; Sample.B; Sample.A_first];
          processedFiles :=
            <["a.graphql" := [{| imports := ["*"]; from := "a.graphql" |}]]>
              {[ "b.graphql" := [{| imports := ["*"]; from := "b.graphql" |}] ]};
          typeDefinitions := [[0]; []; [2]]; allDefinitions := [[0]; [1]; [2]] |}).
Proof.
  apply (registry_lists_no_line_twice (λ fs, fs) SampleFiles.asWritten SampleFiles.mutual
           false 3 ["*"]
           {| ds_location := "a.graphql"; ds_definitions := [0];
              ds_rawSDL := rawSDL SampleFiles.a |}
           (emptyResolution [Sample.A_first])).
  - intros path l. simpl. by rewrite lookup_empty.
  - by vm_compute.
Defined.

Lemma totals_grow_together_witness :
  ∃ filtered unfiltered,
    [[0]] = [] ++ filtered ∧ [[0]] = [] ++ unfiltered
    ∧ Forall2 (sublist (A := nat)) filtered unfiltered.
Proof.
  apply (totals_grow_together (λ fs, fs) SampleFiles.asWritten ∅ false 1 ["*"]
           {| ds_location := "a.graphql"; ds_definitions := [0];
              ds_rawSDL := Some "type A { x: Int }" |}
           (emptyResolution [Sample.A_first])
           {| store := [Sample.A_first]; processedFiles := ∅;
              typeDefinitions := [[0]]; allDefinitions := [[0]] |}).
  by vm_compute.
Defined.

(** ** Resolutions that share the registry and the running total *)

Lemma canProcess_processed filepath module registry :
  processed registry (filepath, module) →
  canProcess filepath module registry = (false, registry).
Proof.
  intros (l & Hl & Hin). unfold canProcess. simpl in *. rewrite Hl.
  by rewrite bool_decide_true.
Qed.

Lemma Resolution_eta st :
  {| store := store st; processedFiles := processedFiles st;
     typeDefinitions := typeDefinitions st; allDefinitions := allDefinitions st |} = st.
Proof. by destruct st. Qed.

Lemma filter_none {A} (P : A → Prop) `{∀ x, Decision (P x)} (l : list A) :
  Forall (λ x, ¬ P x) l → filter P l = [].
Proof. induction 1 as [|x l Hx _ IH]; [done|]. by rewrite filter_cons_False. Qed.

Section later_sources.
Variable sortFields : list FieldEntry → list FieldEntry.
Variable resolveModuleFilePath : string → string → string.
Variable files : gmap string Source.
Variable sort : bool.

Lemma forEachModule_processed recurse source rawModules st :
  (∀ m, m ∈ rawModules →
        processed (processedFiles st)
          (resolveModuleFilePath (ds_location source) (from m), m)) →
  forEachModule resolveModuleFilePath files recurse source rawModules st = Some (Ok st).
Proof.
  induction rawModules as [|m rest IH]; intros Hall; [done|].
  simpl. destruct m as [moduleImports moduleFrom].
  rewrite canProcess_processed by (apply (Hall {| imports := moduleImports |}); left).
  rewrite Resolution_eta. apply IH. intros m Hm. apply Hall. by right.
Qed.

(** X15.  When the registry already holds every import line of a file, as it
    does when an earlier source of the same call imported the same lines
    from the same place, nothing is loaded and nothing is registered: the
    resolution only pushes the file's own definitions. *)
Theorem registered_imports_load_nothing fuel imports source st :
  (∀ p, p ∈ importPairs resolveModuleFilePath (ds_location source) (ds_rawSDL source) →
        processed (processedFiles st) p) →
  collectDefinitionsSync sortFields resolveModuleFilePath files sort (S fuel) imports source st
  = Some (snd <$> preapreRawModules sortFields sort source imports st).
Proof.
  intros Hpairs. simpl.
  destruct (preapreRawModules _ _ _ _ _) as [[rawModules st1]|e] eqn:Hpre; [|done].
  pose proof Hpre as Hpre'. unfold preapreRawModules in Hpre'.
  apply bind_Ok in Hpre' as ([current σ] & _ & (mods & Hmods & [= -> <-])%bind_Ok).
  simpl. apply forEachModule_processed. intros m Hm. simpl. apply Hpairs.
  unfold importPairs. destruct (ds_rawSDL source) as [sdl|]; [|done].
  rewrite Hmods. apply list_elem_of_fmap. by exists m.
Qed.

(** X16.  A resolution that starts with definitions already in the running
    total, as every source after the first of a call does, treats its own
    root file like a wildcard import: of the root's definitions it keeps
    the object types that bear a name met before.  When the root has no
    import lines and none of its definitions is such an object type, nor
    an object type that bears an inherited name, the resolution returns no
    definition at all. *)
Theorem later_source_loses_definitions source st sdl :
  allDefinitions st ≠ [] →
  ds_rawSDL source = Some sdl → parseSDL sdl = Ok [] →
  (∀ l, l ∈ ds_definitions source →
        isObjectTypeDefinition (deref (store st) l) = true →
        nameOf (deref (store st) l)
          ∉ (λ l', nameOf (deref (store st) l')) <$> flatten (allDefinitions st)) →
  (∀ l, l ∈ ds_definitions source →
        isObjectTypeDefinition (deref (store st) l) = true →
        defName (deref (store st) l) ∉ inheritedNames) →
  processImportSyntaxSync sortFields resolveModuleFilePath files sort source st = Ok [].
Proof.
  intros Hall Hsdl Hparse Hnames _. unfold processImportSyntaxSync.
  cbn [collectDefinitionsSync]. unfold preapreRawModules. cbn [store allDefinitions].
  unfold filterImportedDefinitions. rewrite bool_decide_true by (by left).
  rewrite !bool_decide_true; [|rewrite length_app; simpl; destruct (allDefinitions st);
                                [done|simpl; lia]|done..].
  cbn [andb]. rewrite length_app. cbn [length].
  replace (length (allDefinitions st) + 1 - 1) with (length (allDefinitions st)) by lia.
  rewrite take_app_length.
  assert (filter
            (λ l, isObjectTypeDefinition (deref (store st) l) = true
                  ∧ nameOf (deref (store st) l)
                    ∈ Some <$> omap (λ l0, nameOf (deref (store st) l0))
                                 (flatten (allDefinitions st)))
            (ds_definitions source) = []) as ->.
  { apply filter_none. apply Forall_forall. intros l Hl [Hobj Hin].
    eapply Hnames; [done..|].
    apply list_elem_of_fmap in Hin as (n & Hn & Hin).
    apply list_elem_of_omap in Hin as (l' & Hl' & Hn').
    apply list_elem_of_fmap. exists l'. by rewrite Hn, Hn'. }
  rewrite Ok_bind, Hsdl, Hparse. rewrite Ok_bind. cbn [forEachModule].
  unfold process_1. cbn [typeDefinitions app flatten List.concat foldl store allDefinitions].
  unfold completeDefinitionPool, completeDefinitionPoolState.
  by rewrite completeLoop_nil.
Qed.
End later_sources.

Lemma registered_imports_load_nothing_witness :
  collectDefinitionsSync (λ fs, fs) SampleFiles.asWritten SampleFiles.mutual false 1 ["*"]
    {| ds_location := "b.graphql"; ds_definitions := [0]; ds_rawSDL := rawSDL SampleFiles.b |}
    {| store := [Sample.B];
       processedFiles := {[ "a.graphql" := [{| imports := ["*"]; from := "a.graphql" |}] ]};
       typeDefinitions := []; allDefinitions := [] |}
  = Some (Ok {| store := [Sample.B];
                processedFiles :=
                  {[ "a.graphql" := [{| imports := ["*"]; from := "a.graphql" |}] ]};
                typeDefinitions := [[0]]; allDefinitions := [[0]] |}).
Proof.
  rewrite (registered_imports_load_nothing (λ fs, fs) SampleFiles.asWritten
             SampleFiles.mutual false 0).
  - by vm_compute.
  - intros p Hp. vm_compute in Hp. apply list_elem_of_In in Hp.
    destruct Hp as [<-|[]]. eexists. split; [by vm_compute|]. left.
Defined.

Lemma later_source_loses_definitions_witness :
  processImportSyntaxSync (λ fs, fs) SampleFiles.asWritten ∅ false
    {| ds_location := "b.graphql"; ds_definitions := [1];
       ds_rawSDL := Some "type B { id: ID }" |}
    {| store := [Sample.A_first; Sample.B]; processedFiles := ∅;
       typeDefinitions := []; allDefinitions := [[0]] |}
  = Ok [].
Proof.
  apply (later_source_loses_definitions (λ fs, fs) SampleFiles.asWritten ∅ false _ _
           "type B { id: ID }"); [done|done|by vm_compute| |].
  - intros l Hl _. apply list_elem_of_singleton in Hl as ->.
    vm_compute. intros Hin. apply list_elem_of_In in Hin. simpl in Hin.
    destruct Hin as [[=]|[]].
  - intros l Hl _. apply list_elem_of_singleton in Hl as ->.
    apply (bool_decide_unpack _). by vm_compute.
Defined.

(** ** Loaders and the pointer cache *)

(** X17.  The loaders are asked in order: those that decline are passed over,
    and the first one able to load the pointer decides the outcome; what
    comes after it is never asked. *)
Theorem first_capable_loader_wins pointer declining canLoad load rest :
  Forall (declines pointer) declining →
  canLoad pointer = Ok true →
  tryLoaders pointer
    (declining ++ {| canLoadSync := Some canLoad; loadSync := Some load |} :: rest)
  = load pointer.
Proof.
  intros Hdeclining Hcan. induction Hdeclining as [|l ls Hl _ IH]; simpl.
  - by rewrite Hcan.
  - unfold declines in Hl. destruct (canLoadSync l) as [can|]; [|done].
    destruct (loadSync l); [|done]. by rewrite Hl.
Qed.

Lemma first_capable_loader_wins_witness :
  tryLoaders "a.graphql"
    ([{| canLoadSync := None; loadSync := Some (λ _, Throw TypeError) |}]
     ++ SampleSources.fileLoader :: [])
  = Ok (Some (SampleSources.fileSource "a.graphql")).
Proof.
  apply (first_capable_loader_wins "a.graphql" [_] (λ _, Ok true)
           (λ pointer, Ok (Some (SampleSources.fileSource pointer))) []).
  - by repeat constructor.
  - done.
Defined.

(** When no loader takes the pointer, nothing is loaded and nothing is
    thrown. *)
Lemma tryLoaders_all_decline pointer loaders :
  Forall (declines pointer) loaders → tryLoaders pointer loaders = Ok None.
Proof.
  induction 1 as [|l ls Hl _ IH]; [done|]. simpl. unfold declines in Hl.
  destruct (canLoadSync l) as [can|]; [|done].
  destruct (loadSync l); [|done]. by rewrite Hl.
Qed.

(** X18.  What the fallback chain loads for a pointer is served from the cache
    from then on, whatever the loaders would say, and the entries of other
    pointers stay as they were. *)
Theorem fallback_source_is_served_from_cache pointer loaders source st st' :
  cache st !! pointer = None →
  tryLoaders pointer loaders = Ok (Some source) →
  collectFallbackSync pointer loaders st = Ok st' →
  sources st' = sources st ++ [source]
  ∧ (∀ others, loadFileSync pointer others (cache st') = Ok (Some source))
  ∧ (∀ other, other ≠ pointer → cache st' !! other = cache st !! other).
Proof.
  intros Hfresh Hload. unfold collectFallbackSync, loadFileSync at 1.
  rewrite Hfresh, Hload, Ok_bind. intros [= <-]. simpl. split_and!; [done| |].
  - intros others. unfold loadFileSync. by rewrite lookup_insert_eq.
  - intros other Hother. by rewrite lookup_insert_ne.
Qed.

Lemma fallback_source_is_served_from_cache_witness :
  ∃ st', collectFallbackSync "a.graphql" [SampleSources.fileLoader] SampleSources.nothing
         = Ok st'
         ∧ ∀ others, loadFileSync "a.graphql" others (cache st')
                     = Ok (Some (SampleSources.fileSource "a.graphql")).
Proof.
  eexists. split; [reflexivity|].
  eapply (fallback_source_is_served_from_cache "a.graphql" [SampleSources.fileLoader]
            _ SampleSources.nothing); [by vm_compute| |]; reflexivity.
Defined.

(** ** Stacks of collectors *)

(** X19.  The members of a stack are tried in order: while a member only hands
    over to [next], the following one gets the input, and the member after
    the last one does nothing. *)
Theorem useStack_chain {I S} (passing : list (Handler I S)) fn rest input :
  Forall (λ member, ∀ next, member input next = next) passing →
  useStack (passing ++ fn :: rest) input = fn input (createNext rest input)
  ∧ (Forall (λ member, ∀ next, member input next = next) (fn :: rest) →
     ∀ s, useStack (passing ++ fn :: rest) input s = Ok s).
Proof.
  intros Hpassing.
  assert (∀ fns, Forall (λ member : Handler I S, ∀ next, member input next = next) fns →
                 createNext fns input = Ok) as Hnoop.
  { induction 1 as [|member fns Hm _ IH]; [done|]. simpl. by rewrite Hm. }
  assert (createNext (passing ++ fn :: rest) input = fn input (createNext rest input))
    as Hnext.
  { induction Hpassing as [|member fns Hm _ IH]; [done|]. simpl. by rewrite Hm. }
  assert (useStack (passing ++ fn :: rest) input = fn input (createNext rest input))
    as Hstack.
  { destruct Hpassing as [|member fns Hm Hfns]; [done|].
    change (member input (createNext (fns ++ fn :: rest) input)
            = fn input (createNext rest input)).
    rewrite Hm. clear Hm Hnext.
    induction Hfns as [|m fns' Hm' _ IH]; [done|]. simpl. by rewrite Hm'. }
  split; [done|]. intros Hall s. rewrite Hstack.
  apply Forall_cons in Hall as [Hfn Hrest]. by rewrite Hfn, Hnoop.
Qed.

Lemma useStack_chain_witness :
  useStack ([(λ (_ : unit) next, next)] ++ (λ _ _ (s : nat), Ok (S s)) :: []) () 0
  = Ok 1.
Proof.
  destruct (useStack_chain [(λ (_ : unit) (next : nat → Result nat), next)]
              (λ _ _ (s : nat), Ok (S s)) [] ()) as [-> _]; [|done].
  by repeat constructor.
Defined.

Lemma collectFromGlobs_custom loader loaders pointer st :
  collectFromGlobs (Some loader) loaders pointer st
  = collectCustomLoaderSync pointer (Some loader) Ok st.
Proof. done. Qed.

(** X20.  A path whose options name a custom loader never reaches the fallback
    chain: what is collected for it is what the custom loader gives, even
    when that is nothing. *)
Theorem custom_loader_replaces_fallback filepaths loader loaders loaders' st :
  collectSourcesFromGlobalsSync filepaths (Some loader) loaders st
  = collectSourcesFromGlobalsSync filepaths (Some loader) loaders' st
  ∧ ((∀ pointer, pointer ∈ filepaths → loader pointer = Ok Falsy) →
     collectSourcesFromGlobalsSync filepaths (Some loader) loaders st = Ok st).
Proof.
  unfold collectSourcesFromGlobalsSync. split.
  - revert st. induction filepaths as [|pointer filepaths IH]; intros st; [done|].
    rewrite !forEach_cons, !collectFromGlobs_custom.
    destruct (collectCustomLoaderSync pointer (Some loader) Ok st) as [st1|e]; [|done].
    rewrite !Ok_bind. apply IH.
  - revert st. induction filepaths as [|pointer filepaths IH]; intros st Hfalsy; [done|].
    rewrite forEach_cons, collectFromGlobs_custom. unfold collectCustomLoaderSync.
    rewrite Hfalsy by left. rewrite !Ok_bind. apply IH. intros p Hp. apply Hfalsy. by right.
Qed.

Lemma custom_loader_replaces_fallback_witness :
  collectSourcesFromGlobalsSync ["a.graphql"] (Some (λ _, Ok Falsy))
    [SampleSources.fileLoader] SampleSources.nothing
  = Ok SampleSources.nothing.
Proof.
  apply (proj2 (custom_loader_replaces_fallback ["a.graphql"] (λ _, Ok Falsy)
                  [SampleSources.fileLoader] [] SampleSources.nothing)).
  done.
Defined.

(** ** The options of an input *)

(** X21.  The options under which a source is parsed are the options of the
    call, with those collected from the globs laid over them when the
    location of the source is one of the pointers.  What the caller gave
    for a pointer is never among them. *)
Theorem prepareInput_ignores_pointer_options {V} source (options globOptions : gmap string V)
    pointerOptionMap :
  prepareInput source options globOptions pointerOptionMap
  = (source, if bool_decide (location source ∈ dom pointerOptionMap)
             then globOptions ∪ options else options)
  ∧ ∀ pointerOptionMap' : gmap string (gmap string V),
      dom pointerOptionMap' = dom pointerOptionMap →
      prepareInput source options globOptions pointerOptionMap'
      = prepareInput source options globOptions pointerOptionMap.
Proof.
  assert (∀ pom : gmap string (gmap string V),
            prepareInput source options globOptions pom
            = (source, if bool_decide (location source ∈ dom pom)
                       then globOptions ∪ options else options)) as Hshape.
  { intros pom. unfold prepareInput.
    destruct (pom !! location source) as [specific|] eqn:Hlookup.
    - rewrite bool_decide_true by done.
      rewrite bool_decide_true; [done|]. apply elem_of_dom. by exists specific.
    - rewrite bool_decide_false by (by intros [? ?]).
      rewrite bool_decide_false; [done|]. by apply not_elem_of_dom. }
  split; [apply Hshape|]. intros pom' Hdom. by rewrite !Hshape, Hdom.
Qed.

(** ** When imports are processed *)

Lemma importComment_Accepts input rest :
  Accepts importComment input rest ↔
  ∃ comment word,
    input = "#"%char :: comment ++ word ++ " "%char :: rest
    ∧ oneLine comment ∧ spellsImport word.
Proof.
  unfold importComment. cbn [sequence Accepts]. split.
  - intros (m0 & -> & m1 & (comment & -> & Hcomment) & m2 & (i & -> & Hi)
            & m3 & (m & -> & Hm) & m4 & (p & -> & Hp) & m5 & (o & -> & Ho)
            & m6 & (r & -> & Hr) & m7 & (t & -> & Ht) & ->).
    exists comment, [i; m; p; o; r; t]. split_and!; [done..|].
    by repeat constructor.
  - intros (comment & word & -> & Hcomment & Hword).
    repeat (apply Forall2_cons_inv_r in Hword as (? & ? & ? & Hword & ->)).
    apply Forall2_nil_inv_r in Hword as ->. simpl in *.
    eexists. split; [done|]. eexists. split; [by exists comment|].
    repeat (eexists; split; [eexists; split; [done|done]|]). done.
Qed.

Lemma hasImportComment_true sdl :
  hasImportComment sdl = true ↔
  ∃ comment word rest,
    dropWhile isWhiteSpace (chars sdl) = "#"%char :: comment ++ word ++ " "%char :: rest
    ∧ oneLine comment ∧ spellsImport word.
Proof.
  unfold hasImportComment. rewrite bool_decide_eq_true, exec_is_Some. split.
  - intros (rest & (comment & word & Heq & Hc & Hw)%importComment_Accepts).
    by exists comment, word, rest.
  - intros (comment & word & rest & Heq & Hc & Hw). exists rest.
    apply importComment_Accepts. by exists comment, word.
Qed.

(** X22.  Import processing is asked for exactly when the text, white space at
    its start aside, begins with a hash sign and its first line goes on
    with the word import, in any case, and a space.  Nothing below the
    first line is looked at. *)
Theorem hasImportComment_first_line sdl :
  hasImportComment sdl = true ↔
  ∃ comment word rest,
    dropWhile isWhiteSpace (chars sdl) = "#"%char :: comment ++ word ++ " "%char :: rest
    ∧ oneLine comment ∧ spellsImport word.
Proof.
  unfold hasImportComment. rewrite bool_decide_eq_true, exec_is_Some.
  setoid_rewrite importComment_Accepts. split.
  - intros (rest & comment & word & Heq & Hc & Hw). by exists comment, word, rest.
  - intros (comment & word & rest & Heq & Hc & Hw). by exists rest, comment, word.
Qed.

Lemma dropWhile_app_stop p a c s :
  Forall (λ x, p x = true) a → p c = false → dropWhile p (a ++ c :: s) = c :: s.
Proof. intros Ha Hc. rewrite dropWhile_all by done. by apply dropWhile_stop. Qed.

Lemma elem_of_dropWhile p x s : x ∈ dropWhile p s → x ∈ s.
Proof.
  induction s as [|c s IH]; [done|]. simpl. destruct (p c); [|done].
  intros Hx. right. by apply IH.
Qed.

Lemma elem_of_trim x s : x ∈ trim s → x ∈ s.
Proof.
  unfold trim. intros Hx. apply elem_of_reverse, elem_of_dropWhile in Hx.
  by apply elem_of_reverse, elem_of_dropWhile in Hx.
Qed.

Lemma elem_of_split sep x piece s : piece ∈ split sep s → x ∈ piece → x ∈ s.
Proof.
  revert piece. induction s as [|c s IH]; intros piece; simpl.
  - intros ->%list_elem_of_singleton. done.
  - case_bool_decide.
    + intros [->|Hpiece]%elem_of_cons Hx; [by apply not_elem_of_nil in Hx|].
      right. by eapply IH.
    + destruct (split sep s) as [|first pieces] eqn:Hsplit.
      * intros ->%list_elem_of_singleton Hx. apply list_elem_of_singleton in Hx as ->. left.
      * intros [->|Hpiece]%elem_of_cons Hx.
        -- apply elem_of_cons in Hx as [->|Hx]; [left|right]. eapply IH; [left|done].
        -- right. eapply IH; [by right|done].
Qed.

(** A text without a hash sign has no import lines. *)
Lemma parseSDL_no_hash sdl : "#"%char ∉ chars sdl → parseSDL sdl = Ok [].
Proof.
  intros Hhash. unfold parseSDL. rewrite filter_none; [done|].
  apply Forall_forall. intros l (piece & -> & Hpiece)%list_elem_of_fmap.
  unfold isImportLine.
  destruct (trim piece) as [|c l] eqn:Htrim; [done|].
  assert (c ≠ "#"%char) as Hc.
  { intros ->. apply Hhash. eapply elem_of_split; [exact Hpiece|].
    apply elem_of_trim. rewrite Htrim. left. }
  unfold startsWith. simpl. rewrite !(bool_decide_false ("#"%char = c)) by congruence.
  rewrite !bool_decide_false; [done|by intros [? ?]..].
Qed.

(** X23.  Import lines below a first line that is no comment are found by the
    scan of the schema, and yet import processing is not asked for. *)
Theorem imports_below_first_line first c tokens path :
  head (dropWhile isWhiteSpace (chars first)) = Some c → c ≠ "#"%char →
  "#"%char ∉ chars first →
  tokens ≠ [] → Forall plainToken tokens → plainPath path →
  parseSDL (first +:+ nl +:+ renderImport tokens path)
  = Ok [{| imports := tokens; from := path |}]
  ∧ hasImportComment (first +:+ nl +:+ renderImport tokens path) = false.
Proof.
  intros Hhead Hc Hhash Htokens Hplain Hpath. split.
  - rewrite parseSDL_nl, (parseSDL_no_hash first), parseSDL_rendered by done.
    by rewrite !Ok_bind.
  - apply not_true_is_false. intros (comment & word & rest & Heq & _)%hasImportComment_true.
    rewrite chars_app in Heq.
    destruct (dropWhile isWhiteSpace (chars first)) as [|c' s] eqn:Hdrop; [done|].
    injection Hhead as ->.
    assert (∃ indent, chars first = indent ++ c :: s
                      ∧ Forall (λ x, isWhiteSpace x = true) indent
                      ∧ isWhiteSpace c = false) as (indent & Hfirst & Hindent & Hws).
    { clear -Hdrop. induction (chars first) as [|x l IH]; [done|]. simpl in Hdrop.
      destruct (isWhiteSpace x) eqn:Hx.
      - destruct (IH Hdrop) as (indent & -> & ? & ?). exists (x :: indent).
        split_and!; [done| |done]. by constructor.
      - injection Hdrop as -> ->. by exists []. }
    rewrite Hfirst, <- app_assoc in Heq. simpl in Heq.
    rewrite dropWhile_app_stop in Heq by done. by injection Heq as ->.
Qed.

Lemma imports_below_first_line_witness :
  parseSDL ("type A { x: Int }" +:+ nl +:+ renderImport ["B"] "b.graphql")
  = Ok [{| imports := ["B"]; from := "b.graphql" |}]
  ∧ hasImportComment ("type A { x: Int }" +:+ nl +:+ renderImport ["B"] "b.graphql") = false.
Proof.
  apply (imports_below_first_line "type A { x: Int }" "t" ["B"] "b.graphql");
    try done.
  - apply (bool_decide_unpack _). by vm_compute.
  - repeat constructor; try (by vm_compute); apply (bool_decide_unpack _); by vm_compute.
  - repeat constructor; by vm_compute.
Defined.

(** A schema that begins with a rendered import line asks for import
    processing, whatever the line imports and whatever follows it. *)
Lemma rendered_import_asks_for_processing tokens path rest :
  hasImportComment (renderImport tokens path +:+ rest) = true.
Proof.
  apply hasImportComment_true.
  exists [" "%char], (chars "import").
  eexists. split_and!; [|by repeat constructor..].
  unfold renderImport. rewrite !chars_app. simpl. reflexivity.
Qed.

(** ** Parsing the sources of a call *)

Lemma filterKind_empty kinds : filterKind (Some []) kinds = Some [].
Proof. by destruct kinds. Qed.

Lemma useGraphQLImport_location input source source' :
  useGraphQLImport input source = Ok source' → location source' = location source.
Proof.
  unfold useGraphQLImport. intros (process & _ & H)%bind_Ok.
  destruct process; [|by injection H as <-].
  by apply bind_Ok in H as (definitions & _ & [= <-]).
Qed.

Lemma parseSchema_location input source :
  location (parseSchema input source) = location source.
Proof. unfold parseSchema. by destruct (schema source). Qed.

Lemma parseRawSDL_location input source source' :
  parseRawSDL input source = Ok source' → location source' = location source.
Proof.
  unfold parseRawSDL. destruct (rawSDL source) as [sdl|]; [|by intros [= <-]].
  destruct (truthy (Some sdl)); [|by intros [= <-]].
  by intros (definitions & _ & [= <-])%bind_Ok.
Qed.

(** X24.  Parsing a source adds at most one source to the valid ones, at the
    end, under the location it came with and with a document that holds
    at least one definition. *)
Theorem parseSourceSync_adds_valid input partialSource validSources validSources' :
  parseSourceSync input partialSource validSources = Ok validSources' →
  validSources' = validSources
  ∨ ∃ given source definitions,
      partialSource = Some given ∧ validSources' = validSources ++ [source]
      ∧ location source = location given
      ∧ document source = Some definitions ∧ definitions ≠ [].
Proof.
  unfold parseSourceSync. destruct partialSource as [given|]; [|intros [= <-]; by left].
  intros (parsed & Hparsed & Hrest)%bind_Ok.
  destruct (document parsed) as [d|]; [|injection Hrest as <-; by left].
  apply bind_Ok in Hrest as (source & Himport & Hvalid).
  unfold collectValidSources in Hvalid.
  destruct (document source) as [definitions|] eqn:Hdoc; [|done].
  injection Hvalid as <-. case_bool_decide as Hlen; [|by left].
  right. exists given, source, definitions. split_and!; [done..| |done|].
  - apply useGraphQLImport_location in Himport. rewrite Himport.
    apply parseRawSDL_location in Hparsed. rewrite parseSchema_location in Hparsed.
    rewrite <- Hparsed.
    unfold useComments, useKindsFilter.
    by destruct (filterKinds input), (truthy _).
  - intros ->. simpl in Hlen. lia.
Qed.

Lemma parseSourceSync_adds_valid_witness :
  ∃ given source definitions,
    Some (SampleSources.fileSource "a.graphql") = Some given
    ∧ [SampleSources.fileSource "a.graphql"] = [] ++ [source]
    ∧ location source = location given
    ∧ document source = Some definitions ∧ definitions ≠ [].
Proof.
  destruct (parseSourceSync_adds_valid
              {| fixSchemaAst := λ s, s; printSchemaWithDirectives := λ _, "";
                 parse := λ _ _, Ok SampleSources.helloDocument;
                 printWithComments := λ _, ""; filterKinds := None;
                 forceGraphQLImport := false; skipGraphQLImport := false;
                 definitionsGetter := λ _, Ok [] |}
              (Some (SampleSources.fileSource "a.graphql")) []
              [SampleSources.fileSource "a.graphql"]) as [[=]|H]; [by vm_compute|].
  exact H.
Defined.

Lemma parseSourceSync_blank input partialSource validSources :
  blankSource input partialSource →
  parseSourceSync input partialSource validSources = Ok validSources.
Proof.
  intros (source & sdl & -> & Hschema & Hsdl & Hne & Hempty & Hforce & Hskip).
  unfold parseSourceSync, parseSchema, parseRawSDL. rewrite Hschema, Hsdl. simpl.
  rewrite bool_decide_false by done. simpl. rewrite Hempty, Ok_bind. simpl.
  assert (truthy (Some sdl) = true) as Htruthy by (simpl; by rewrite bool_decide_false).
  assert (useComments input
            (useKindsFilter input
               {| location := location source; document := Some [];
                  rawSDL := Some sdl; schema := schema source |})
          = {| location := location source; document := Some [];
               rawSDL := Some sdl; schema := schema source |}) as ->.
  { unfold useComments, useKindsFilter.
    destruct (filterKinds input) as [kinds|]; cbn [rawSDL document]; by rewrite Htruthy. }
  unfold useGraphQLImport. rewrite Hforce. cbn [rawSDL].
  destruct Hskip as [-> | Hnone]; [|destruct (skipGraphQLImport input); [|rewrite Hnone]];
    by rewrite !Ok_bind.
Qed.

(** X25.  A call whose sources all hold nothing but blank lines and comments,
    and ask for no import processing, fails with the error that lists the
    pointers; the parser of the graphql package is not even consulted. *)
Theorem loadTypedefsSync_blank_sources inputOf sortSources sort pointerList sources :
  pointerList ≠ [] →
  Forall (λ partialSource, blankSource (inputOf partialSource) partialSource) sources →
  loadTypedefsSync inputOf sortSources sort pointerList sources
  = Throw (NoTypeDefinitions pointerList).
Proof.
  intros Hpointers Hblank. unfold loadTypedefsSync.
  assert (∀ valid, forEach (λ partialSource,
                               parseSourceSync (inputOf partialSource) partialSource)
                     sources valid = Ok valid) as ->.
  { induction Hblank as [|partialSource sources Hb _ IH]; intros valid; [done|].
    rewrite forEach_cons, parseSourceSync_blank by done. by rewrite Ok_bind. }
  rewrite Ok_bind. unfold prepareResult. by destruct pointerList.
Qed.

Lemma loadTypedefsSync_blank_sources_witness :
  loadTypedefsSync
    (λ _, {| fixSchemaAst := λ s, s; printSchemaWithDirectives := λ _, "";
             parse := λ _ _, Throw TypeError;
             printWithComments := λ _, ""; filterKinds := None;
             forceGraphQLImport := false; skipGraphQLImport := false;
             definitionsGetter := λ _, Ok [] |})
    (λ l, l) true ["empty.graphql"]
    [Some {| location := "empty.graphql"; document := None;
             rawSDL := Some "# nothing here"; schema := None |}]
  = Throw (NoTypeDefinitions ["empty.graphql"]).
Proof.
  apply loadTypedefsSync_blank_sources; [done|].
  repeat constructor. eexists _, "# nothing here".
  split_and!; try done. right. by vm_compute.
Defined.

Lemma isEmptySDL_rendered tokens path :
  tokens ≠ [] → Forall plainToken tokens → plainPath path →
  isEmptySDL (renderImport tokens path) = true.
Proof.
  intros Htokens Hplain Hpath. unfold isEmptySDL.
  rewrite chars_renderImport, split_no_sep.
  2:{ intros Hin. pose proof (importLine_oneLine tokens path Hplain Hpath) as Hline.
      apply elem_of_cons in Hin as [[=]|Hin]. apply elem_of_cons in Hin as [[=]|Hin].
      unfold oneLine in Hline. rewrite Forall_forall in Hline. by apply Hline in Hin. }
  assert (∃ s, importLine (chars (joinTokens tokens)) (chars path)
               = "i"%char :: s ++ [doubleQuote]) as [s Hs].
  { exists (chars "mport " ++ chars (joinTokens tokens) ++ chars " from "
            ++ doubleQuote :: chars path).
    unfold importLine. rewrite <- !app_assoc. done. }
  cbn [fmap list_fmap]. rewrite Hs.
  change ("#"%char :: " "%char :: "i"%char :: s ++ [doubleQuote])
    with ("#"%char :: (" "%char :: "i"%char :: s) ++ [doubleQuote]).
  rewrite trim_id by done.
  by rewrite filter_cons_False.
Qed.

(** X26.  A source whose text is one rendered import line has no definitions
    of its own, and yet is not dropped: the line asks for import
    processing, and the document of the source becomes what the
    resolution of its imports returns. *)
Theorem import_only_source input given tokens path definitions validSources :
  schema given = None → rawSDL given = Some (renderImport tokens path) →
  tokens ≠ [] → Forall plainToken tokens → plainPath path →
  skipGraphQLImport input = false →
  definitionsGetter input
    {| location := location given; document := Some [];
       rawSDL := rawSDL given; schema := None |} = Ok definitions →
  definitions ≠ [] →
  parseSourceSync input (Some given) validSources
  = Ok (validSources ++ [{| location := location given; document := Some definitions;
                            rawSDL := rawSDL given; schema := None |}]).
Proof.
  intros Hschema Hsdl Htokens Hplain Hpath Hskip Hget Hne.
  destruct given as [loc doc raw sch]. simpl in Hschema, Hsdl, Hget. subst sch raw.
  unfold parseSourceSync, parseSchema, parseRawSDL. cbn [schema rawSDL location].
  assert (truthy (Some (renderImport tokens path)) = true) as Htruthy by done.
  rewrite Htruthy, isEmptySDL_rendered by done. rewrite !Ok_bind. cbn [document].
  assert (useComments input
            (useKindsFilter input
               {| location := loc; document := Some [];
                  rawSDL := Some (renderImport tokens path); schema := None |})
          = {| location := loc; document := Some [];
               rawSDL := Some (renderImport tokens path); schema := None |}) as ->.
  { unfold useComments, useKindsFilter.
    destruct (filterKinds input) as [kinds|]; cbn [rawSDL document location schema];
      by rewrite ?filterKind_empty, Htruthy. }
  unfold useGraphQLImport. cbn [rawSDL location schema]. rewrite Hskip.
  rewrite <- (string_app_nil_r (renderImport tokens path)) at 1.
  rewrite rendered_import_asks_for_processing.
  destruct (forceGraphQLImport input); rewrite Ok_bind, Hget, !Ok_bind;
    unfold collectValidSources; cbn [document];
    (rewrite bool_decide_true; [done|destruct definitions; [done|simpl; lia]]).
Qed.

Lemma import_only_source_witness :
  parseSourceSync
    {| fixSchemaAst := λ s, s; printSchemaWithDirectives := λ _, "";
       parse := λ _ _, Throw TypeError;
       printWithComments := λ _, ""; filterKinds := None;
       forceGraphQLImport := false; skipGraphQLImport := false;
       definitionsGetter := λ _, Ok [Sample.B] |}
    (Some {| location := "root.graphql"; document := None;
             rawSDL := Some (renderImport ["B"] "b.graphql"); schema := None |}) []
  = Ok ([] ++ [{| location := "root.graphql"; document := Some [Sample.B];
                  rawSDL := Some (renderImport ["B"] "b.graphql"); schema := None |}]).
Proof.
  apply (import_only_source _ {| location := "root.graphql" |} ["B"] "b.graphql");
    try done.
  - repeat constructor; try (by vm_compute); apply (bool_decide_unpack _); by vm_compute.
  - repeat constructor; by vm_compute.
Defined.

(** ** Merging the definitions of one name *)

Lemma setFields_setFields a b d : setFields a (setFields b d) = setFields a d.
Proof. by destruct d. Qed.

Lemma setFields_own d own : fieldsOf d = Some own → setFields own d = d.
Proof. destruct d; simpl; intros [=]; by subst. Qed.

Lemma fieldsOf_setFields_Some fs d own :
  fieldsOf d = Some own → fieldsOf (setFields fs d) = Some fs.
Proof. intros Hd. apply fieldsOf_setFields. by rewrite Hd. Qed.

Lemma deref_named_valid (σ : list DefinitionNode) l N :
  nameOf (deref σ l) = Some N → l < length σ.
Proof.
  unfold deref. destruct (σ !! l) eqn:Hl; [|done]. intros _. by eapply lookup_lt_Some.
Qed.

Lemma occurrences_snoc σ N L y :
  occurrences σ N (L ++ [y])
  = occurrences σ N L ++ (if decide (nameOf (deref σ y) = Some N) then [y] else []).
Proof.
  unfold occurrences. by rewrite filter_app.
Qed.

Lemma occurrences_snoc_other σ N L y :
  nameOf (deref σ y) ≠ Some N → occurrences σ N (L ++ [y]) = occurrences σ N L.
Proof. intros Hy. rewrite occurrences_snoc, decide_False by done. apply app_nil_r. Qed.

Lemma occurrences_named σ N L l : l ∈ occurrences σ N L → nameOf (deref σ l) = Some N.
Proof. by intros [? _]%list_elem_of_filter. Qed.

Lemma head_occurrences_named σ N L X :
  head (occurrences σ N L) = Some X → nameOf (deref σ X) = Some N.
Proof. intros HX. eapply occurrences_named, head_Some_elem_of, HX. Qed.

Lemma head_snoc {A} (l : list A) y x : head l = Some x → head (l ++ [y]) = Some x.
Proof. by destruct l. Qed.

(** Replacing the front of a list by a permutation of it without equal
    keys permutes what [uniqBy] keeps. *)
Lemma uniqBy_app_perm {A K} `{EqDecision K} (key : A → K) l1 l2 c :
  l1 ≡ₚ l2 → NoDup (key <$> l1) → uniqBy key (l1 ++ c) ≡ₚ uniqBy key (l2 ++ c).
Proof.
  intros Hperm Hnd. unfold uniqBy. rewrite !uniqByFrom_app, !app_nil_r.
  assert (NoDup (key <$> l2)) as Hnd2 by (by rewrite <- Hperm).
  fold (uniqBy key l1) (uniqBy key l2). rewrite !uniqBy_id by done.
  rewrite (uniqByFrom_proper key (key <$> l1) (key <$> l2)).
  - by rewrite Hperm.
  - intros k. by rewrite Hperm.
Qed.

Section merge.
Variable sortFields : list FieldEntry → list FieldEntry.
Variable sort : bool.
Variable σ : list DefinitionNode.
Hypothesis sortFields_perm : ∀ fs, sortFields fs ≡ₚ fs.

Lemma sorted_perm fs : (if sort then sortFields fs else fs) ≡ₚ fs.
Proof. by destruct sort. Qed.

Lemma MergeInv_initial : MergeInv σ [] ([], [], σ).
Proof.
  unfold MergeInv. simpl. split_and!; try done.
  - intros N. split; [by intros ?%not_elem_of_nil | done].
  - by intros t ?%not_elem_of_nil.
Qed.

Lemma MergeInv_unnamed L acc y :
  nameOf (deref σ y) = None → MergeInv σ L acc → MergeInv σ (L ++ [y]) acc.
Proof.
  intros Hy (I1 & I2 & I3 & I4 & I5 & I6 & I7).
  assert (∀ N, occurrences σ N (L ++ [y]) = occurrences σ N L) as Hocc.
  { intros N. apply occurrences_snoc_other. by rewrite Hy. }
  unfold MergeInv. split_and!; try done.
  - intros N. by rewrite Hocc.
  - intros N X. rewrite Hocc. apply I5.
  - intros l Hl. apply I6. intros N. rewrite <- Hocc. apply Hl.
  - intros N X. unfold mergedFields. rewrite !Hocc. apply I7.
Qed.

Lemma MergeInv_new L names merged σt y N :
  nameOf (deref σ y) = Some N → N ∉ names →
  MergeInv σ L (names, merged, σt) →
  MergeInv σ (L ++ [y]) (names ++ [N], merged ++ [y], σt).
Proof.
  intros Hy Hnew (I1 & I2 & I3 & I4 & I5 & I6 & I7). simpl in *.
  assert (occurrences σ N L = []) as Hnone.
  { destruct (occurrences σ N L) eqn:Hocc; [done|]. exfalso. apply Hnew, I3. by rewrite Hocc. }
  assert (occurrences σ N (L ++ [y]) = [y]) as Hone.
  { by rewrite occurrences_snoc, Hnone, decide_True. }
  assert (∀ N', N' ≠ N → occurrences σ N' (L ++ [y]) = occurrences σ N' L) as Hother.
  { intros N' HN'. apply occurrences_snoc_other. rewrite Hy. congruence. }
  assert (∀ N', head (occurrences σ N' L) ≠ Some y) as Hfresh.
  { intros N' Hhead. pose proof (head_occurrences_named _ _ _ _ Hhead) as Hname.
    rewrite Hy in Hname. injection Hname as <-. by rewrite Hnone in Hhead. }
  unfold MergeInv. simpl. split_and!; try done.
  - intros N'. rewrite elem_of_app, list_elem_of_singleton.
    destruct (decide (N' = N)) as [->|HN'].
    + rewrite Hone. split; [done|by right].
    + rewrite Hother, <- I3 by done. split; [by intros [?|?]|by left].
  - intros t [Ht|Ht%list_elem_of_singleton]%elem_of_app; [|subst t].
    + destruct (I4 t Ht) as (N' & HN' & Hin). exists N'. split; [done|].
      apply elem_of_app. by left.
    + exists N. split; [done|]. apply elem_of_app. right. left.
  - intros N' X. destruct (decide (N' = N)) as [->|HN'].
    + rewrite Hone. intros [= <-]. exists (length merged + 0).
      apply list_find_app_Some. right. split_and!; [lia| |].
      * apply list_find_None. apply Forall_forall. intros t Ht Hname.
        destruct (I4 t Ht) as (N' & HN' & Hin). rewrite Hname in HN'.
        injection HN' as <-. done.
      * replace (length merged + 0 - length merged) with 0 by lia.
        simpl. by rewrite decide_True.
    + rewrite Hother by done. intros HX. destruct (I5 N' X HX) as [i Hi].
      exists i. apply list_find_app_Some. by left.
  - intros l Hl. apply I6. intros N'. destruct (decide (N' = N)) as [->|HN'].
    + by rewrite Hnone.
    + rewrite <- Hother by done. apply Hl.
  - intros N' X. destruct (decide (N' = N)) as [->|HN'].
    + rewrite Hone. intros [= <-]. rewrite I6 by done.
      destruct (fieldsOf (deref σ y)) as [own|] eqn:Hown; [|done].
      exists own. split; [by rewrite setFields_own|done].
    + unfold mergedFields. rewrite Hother by done. apply I7.
Qed.

Lemma MergeInv_again L names merged σt y N :
  nameOf (deref σ y) = Some N → N ∈ names →
  MergeInv σ L (names, merged, σt) →
  MergeInv σ (L ++ [y]) (mergeType sortFields sort (names, merged, σt) y).
Proof.
  intros Hy Hin (I1 & I2 & I3 & I4 & I5 & I6 & I7). simpl in *.
  destruct (occurrences σ N L) as [|X rest] eqn:Hocc; [by apply I3 in Hin|].
  assert (occurrences σ N (L ++ [y]) = X :: rest ++ [y]) as Hocc'.
  { by rewrite occurrences_snoc, Hocc, decide_True. }
  assert (∀ N', N' ≠ N → occurrences σ N' (L ++ [y]) = occurrences σ N' L) as Hother.
  { intros N' HN'. apply occurrences_snoc_other. rewrite Hy. congruence. }
  assert (∀ N', head (occurrences σ N' (L ++ [y])) = head (occurrences σ N' L)) as Hhead.
  { intros N'. destruct (decide (N' = N)) as [->|HN'].
    - by rewrite Hocc, Hocc'.
    - by rewrite Hother. }
  assert (head (occurrences σ N L) = Some X) as HX by (by rewrite Hocc).
  pose proof (head_occurrences_named _ _ _ _ HX) as HXname.
  assert (X < length σt) as HXvalid.
  { rewrite I1. by eapply deref_named_valid. }
  assert (∀ N', N' ∈ names ↔ occurrences σ N' (L ++ [y]) ≠ []) as I3'.
  { intros N'. destruct (decide (N' = N)) as [->|HN'].
    - by rewrite Hocc'.
    - rewrite Hother by done. apply I3. }
  destruct (I5 N X HX) as [i Hfind].
  unfold mergeType. rewrite I2, Hy, bool_decide_eq_true_2 by done.
  rewrite (list_find_ext _ (λ t, nameOf (deref σ t) = Some N))
    by (intros t; by rewrite I2).
  rewrite Hfind. pose proof (I7 N X HX) as HXfields.
  destruct (fieldsOf (deref σ X)) as [own|] eqn:Hown.
  - destruct HXfields as (fs & HXnow & Hfs).
    rewrite HXnow, (fieldsOf_setFields_Some _ _ _ Hown), setFields_setFields.
    set (B := (X :: rest) ≫= fieldsIn σ).
    set (added := default [UndefinedEntry] (fieldsOf (deref σt y))).
    unfold mergedFields in Hfs. rewrite Hocc in Hfs. fold B in Hfs.
    assert (∀ c, uniqBy entryName (fs ++ c) ≡ₚ uniqBy entryName (B ++ c)) as Hstar.
    { intros c. case_bool_decide as Hlen.
      - subst fs. destruct rest; [|simpl in Hlen; lia].
        subst B. simpl. unfold fieldsIn at 1. rewrite Hown. simpl.
        by rewrite app_nil_r.
      - rewrite (uniqBy_app_perm entryName fs (uniqBy entryName B)).
        + by rewrite (uniqBy_app_congr entryName (uniqBy entryName B) B)
            by apply uniqBy_idemp.
        + done.
        + rewrite Hfs. apply uniqBy_NoDup. }
    assert (∀ x, x ∈ fs → x ∈ B) as Hsub.
    { intros x Hx. case_bool_decide as Hlen.
      - subst fs B. simpl. apply elem_of_app. left. unfold fieldsIn. by rewrite Hown.
      - rewrite Hfs in Hx.
        by apply elem_of_uniqBy in Hx. }
    unfold MergeInv. simpl. split_and!; try done.
    + by rewrite length_insert.
    + intros l. destruct (decide (l = X)) as [->|Hl].
      * by rewrite deref_insert_eq, nameOf_setFields.
      * rewrite deref_insert_ne by done. apply I2.
    + intros N' X'. rewrite Hhead. apply I5.
    + intros l Hl. rewrite deref_insert_ne.
      * apply I6. intros N'. rewrite <- Hhead. apply Hl.
      * intros <-. apply (Hl N). by rewrite Hhead.
    + intros N' X'. rewrite Hhead. intros HX'.
      destruct (decide (N' = N)) as [->|HN'].
      * rewrite HX in HX'. injection HX' as <-. rewrite Hown.
        eexists. split; [by rewrite deref_insert_eq|].
        rewrite Hocc'. rewrite bool_decide_eq_false_2
          by (simpl; rewrite length_app; simpl; lia).
        rewrite sorted_perm, Hstar. unfold mergedFields. rewrite Hocc'.
        change (X :: rest ++ [y]) with ((X :: rest) ++ [y]).
        rewrite bind_app. fold B. simpl. rewrite app_nil_r.
        destruct (decide (y = X)) as [->|HyX].
        -- subst added. rewrite HXnow, (fieldsOf_setFields_Some _ _ _ Hown). simpl.
           rewrite !uniqBy_app_seen; [done| |].
           ++ intros x Hx. apply list_elem_of_fmap_2. subst B. simpl.
              apply elem_of_app. left. unfold fieldsIn in *. by rewrite Hown in *.
           ++ intros x Hx. by apply list_elem_of_fmap_2, Hsub.
        -- subst added. rewrite I6; [done|].
           intros N' Hhd. pose proof (head_occurrences_named _ _ _ _ Hhd) as Hname.
           rewrite Hy in Hname. injection Hname as <-. congruence.
      * assert (X' ≠ X) as Hne.
        { intros ->. apply head_occurrences_named in HX'. congruence. }
        rewrite deref_insert_ne by done. unfold mergedFields.
        rewrite Hother by done. by apply I7.
  - rewrite HXfields, Hown.
    unfold MergeInv. simpl. split_and!; try done.
    + intros N' X'. rewrite Hhead. apply I5.
    + intros l Hl. apply I6. intros N'. rewrite <- Hhead. apply Hl.
    + intros N' X'. rewrite Hhead. intros HX'.
      destruct (decide (N' = N)) as [->|HN'].
      * rewrite HX in HX'. injection HX' as <-. by rewrite Hown.
      * unfold mergedFields. rewrite Hother by done. by apply I7.
Qed.

Lemma MergeInv_step L acc y :
  MergeInv σ L acc → MergeInv σ (L ++ [y]) (mergeType sortFields sort acc y).
Proof.
  destruct acc as [[names merged] σt]. intros HI.
  destruct (nameOf (deref σ y)) as [N|] eqn:Hy.
  - destruct (decide (N ∈ names)) as [Hin|Hnew].
    + by eapply MergeInv_again.
    + pose proof HI as (_ & I2 & _). simpl in I2.
      unfold mergeType. rewrite I2, Hy, bool_decide_eq_false_2 by done.
      by apply MergeInv_new.
  - pose proof HI as (_ & I2 & _). simpl in I2.
    unfold mergeType. rewrite I2, Hy. by apply MergeInv_unnamed.
Qed.

Lemma MergeInv_foldl L acc types :
  MergeInv σ L acc → MergeInv σ (L ++ types) (foldl (mergeType sortFields sort) acc types).
Proof.
  revert L acc. induction types as [|y types IH]; intros L acc HI.
  - by rewrite app_nil_r.
  - simpl. replace (L ++ y :: types) with ((L ++ [y]) ++ types)
      by (by rewrite <- app_assoc).
    apply IH. by apply MergeInv_step.
Qed.
End merge.

Lemma head_filter_split {A} (P : A → Prop) `{∀ x, Decision (P x)} (l : list A) x :
  head (filter P l) = Some x →
  ∃ l1 l2, l = l1 ++ x :: l2 ∧ Forall (λ y, ¬ P y) l1.
Proof.
  induction l as [|y l IH]; [done|].
  destruct (decide (P y)) as [Hy|Hy].
  - rewrite filter_cons_True by done. intros [= ->]. by exists [], l.
  - rewrite filter_cons_False by done. intros (l1 & l2 & -> & Hl1)%IH.
    exists (y :: l1), l2. split; [done|]. by constructor.
Qed.

Lemma uniqBy_first {A K} `{EqDecision K} (key : A → K) l1 x l2 :
  key x ∉ key <$> l1 → x ∈ uniqBy key (l1 ++ x :: l2).
Proof.
  intros Hx. unfold uniqBy. rewrite uniqByFrom_app. apply elem_of_app. right.
  simpl. rewrite app_nil_r, bool_decide_eq_false_2 by done. left.
Qed.

(** X27.  When the resolution succeeds and [sortFields] only reorders,
    the result holds, for every name borne by a collected root definition
    that has fields, the first such definition with its fields replaced
    by the fields of all collected definitions of that name, one per
    field name, up to their order. *)
Theorem same_named_types_are_merged sortFields sort st res N X own :
  (∀ fs, sortFields fs ≡ₚ fs) →
  process_1 sortFields sort st = Ok res →
  head (occurrences (store st) N (flatten (typeDefinitions st))) = Some X →
  fieldsOf (deref (store st) X) = Some own →
  ∃ fs, setFields fs (deref (store st) X) ∈ res
        ∧ fs ≡ₚ mergedFields (store st) N (flatten (typeDefinitions st)).
Proof.
  intros Hperm Hrun HX Hown. unfold process_1 in Hrun.
  destruct (typeDefinitions st) as [|first others] eqn:Htd; [done|].
  set (F := flatten (first :: others)) in *.
  assert (F ++ first ++ flatten others = F ++ F) as HF by done.
  rewrite HF in Hrun.
  pose proof (MergeInv_foldl sortFields sort (store st) Hperm [] ([], [], store st)
                (F ++ F) (MergeInv_initial _)) as HI.
  destruct (foldl _ _ _) as [[names merged] σ'].
  destruct HI as (_ & I2 & _ & _ & _ & _ & I7). simpl in I2, I7.
  apply completeDefinitionPool_Ok in Hrun as (all' & (extras & ->)%completeLoop_pool).
  assert (occurrences (store st) N (F ++ F)
          = occurrences (store st) N F ++ occurrences (store st) N F) as Hocc.
  { unfold occurrences. by rewrite filter_app. }
  destruct (occurrences (store st) N F) as [|X' rest] eqn:HoccF; [done|].
  injection HX as ->.
  specialize (I7 N X). rewrite Hocc, Hown in I7.
  destruct I7 as (fs & HXnow & Hfs); [done|].
  rewrite bool_decide_eq_false_2 in Hfs
    by (simpl; rewrite length_app; simpl; lia).
  exists fs. split.
  - rewrite <- HXnow.
    assert (head (filter (λ l, nameOf (deref (store st) l) = Some N) F) = Some X)
      as (l1 & l2 & HFsplit & Hl1)%head_filter_split.
    { fold (occurrences (store st) N F). by rewrite HoccF. }
    assert (F ++ F = l1 ++ X :: (l2 ++ F)) as ->
      by (rewrite HFsplit at 1; by rewrite <- app_assoc).
    rewrite fmap_app, fmap_cons, <- app_assoc.
    simpl. apply uniqBy_first. rewrite I2.
    assert (nameOf (deref (store st) X) = Some N) as ->.
    { eapply occurrences_named. rewrite HoccF. left. }
    intros (d & Hd & (l & -> & Hl)%list_elem_of_fmap)%list_elem_of_fmap.
    rewrite Forall_forall in Hl1. apply (Hl1 l Hl). by rewrite <- I2.
  - rewrite Hfs. unfold mergedFields. rewrite Hocc, HoccF, bind_app.
    rewrite uniqBy_app_seen; [done|]. intros x Hx. by apply list_elem_of_fmap_2.
Qed.

Lemma same_named_types_are_merged_witness :
  let query fields := ObjectTypeDefinition "Query" [] [] fields in
  let a := FieldDefinition "a" [] (NamedType "Int") [] in
  let b := FieldDefinition "b" [] (NamedType "Int") [] in
  let st := {| store := [query [a]; ScalarTypeDefinition "Int" []; query [b; a]];
               processedFiles := ∅;
               typeDefinitions := [[0]; [2]];
               allDefinitions := [[0; 1]; [2]] |} in
  ∃ fs, setFields fs (query [a]) ∈ [query [a; b]] ∧ fs ≡ₚ [a; b].
Proof.
  intros query a b st.
  apply (same_named_types_are_merged (λ fs, fs) false st [query [a; b]] "Query" 0 [a]);
    [done | by vm_compute | done | done].
Defined.

(** ** Imports in single file *)

Section single_file.
Variable sortFields : list FieldEntry → list FieldEntry.
Variable resolveModuleFilePath : string → string → string.
Variable files : gmap string Source.
Variable sort : bool.
Variable U : list (string * RawModule).

Local Abbreviation pairsOf := (importPairs resolveModuleFilePath).

Hypothesis files_known :
  ∀ filepath f p, files !! filepath = Some f →
    p ∈ pairsOf (location f) (rawSDL f) → p ∈ U.
Hypothesis files_single :
  ∀ filepath f, files !! filepath = Some f → singleImport (rawSDL f).

(** When no file has more than one import line, at most one load is
    pending at a time, and the asynchronous resolution does what the
    synchronous one does, whatever the schedule. *)
Lemma single_file_collect fuel schedule tokens source st r :
  singleImport (ds_rawSDL source) →
  (∀ p, p ∈ pairsOf (ds_location source) (ds_rawSDL source) → p ∈ U) →
  pending U (processedFiles st) ≤ length schedule →
  collectDefinitionsSync sortFields resolveModuleFilePath files sort fuel tokens source st
  = Some r →
  collectDefinitions sortFields resolveModuleFilePath files sort schedule tokens source st
  = Some r.
Proof.
  revert schedule tokens source st r. induction fuel as [|fuel IH];
    intros schedule tokens source st r Hsingle Hknown Hlen Hrun; [done|].
  simpl in Hrun. unfold collectDefinitions, dispatch.
  destruct (preapreRawModules _ _ _ _ _) as [[rawModules st1]|e] eqn:Hpre; [|done].
  rewrite Ok_bind.
  pose proof (preapreRawModules_Ok sortFields resolveModuleFilePath sort _ _ _ _ _ Hpre)
    as [Hreg Hpairs].
  assert (length rawModules ≤ 1) as Hone.
  { unfold preapreRawModules in Hpre.
    apply bind_Ok in Hpre as ([current σ] & _ & (mods & Hparse & [= <- _])%bind_Ok).
    destruct (ds_rawSDL source) as [sdl|]; [|done]. by eapply Hsingle. }
  destruct rawModules as [|m [|m' rest]]; [| |simpl in Hone; lia].
  { simpl in Hrun. injection Hrun as <-. cbn [startLoads]. apply settle_nil. }
  assert ((resolveModuleFilePath (ds_location source) (from m), m) ∈ U) as Hm.
  { apply Hknown. rewrite Hpairs. left. }
  cbn [forEachModule] in Hrun. cbn [startLoads]. destruct m as [moduleImports moduleFrom].
  cbn [from imports] in *.
  destruct (canProcess _ _ (processedFiles st1)) as [can registry] eqn:Hcan.
  destruct can; [|injection Hrun as <-; apply settle_nil].
  apply canProcess_true in Hcan as (Hnew & Hnow & Hkeeps).
  assert (pending U registry < pending U (processedFiles st1)) as Hlt
    by (by eapply pending_lt).
  destruct schedule as [|turn schedule]; [rewrite Hreg in Hlt; simpl in Hlen; lia|].
  cbn [settle].
  cbn [id task_filepath task_imports store processedFiles typeDefinitions allDefinitions]
    in *.
  destruct (load files _ (store st1)) as [[result σ]|e] eqn:Hload; [|done].
  pose proof (load_Ok _ _ _ _ _ Hload) as (f & Hf & Hloc & Hsdl).
  set (st2 := {| store := σ; processedFiles := registry;
                 typeDefinitions := typeDefinitions st1;
                 allDefinitions := allDefinitions st1 |}) in *.
  destruct (collectDefinitionsSync _ _ _ _ fuel moduleImports result st2)
    as [r'|] eqn:Hrec; [|done].
  apply (IH schedule) in Hrec.
  - unfold collectDefinitions in Hrec. cbn [delete list_delete app].
    destruct r' as [st3|e]; [|by injection Hrun as <-].
    simpl in Hrun. by injection Hrun as <-.
  - rewrite Hsdl. by eapply files_single.
  - intros p. rewrite Hloc, Hsdl. by eapply files_known.
  - simpl. rewrite Hreg in Hlt. simpl in Hlen. lia.
Qed.
End single_file.

(** ** The sources of an asynchronous call *)

Section completion_order.
Variable inputOf : option Source → Input.

Local Abbreviation parseOne :=
  (λ partialSource, parseSourceSync (inputOf partialSource) partialSource).
Local Abbreviation contributed := (contribution inputOf).

(** What parsing a source adds does not depend on what was added
    before. *)
Lemma parseSourceSync_acc partialSource validSources :
  parseOne partialSource validSources
  = (added ← parseOne partialSource []; Ok (validSources ++ added)).
Proof.
  unfold parseSourceSync. destruct partialSource as [given|];
    [|by rewrite Ok_bind, app_nil_r].
  destruct (parseRawSDL _ _) as [parsed|e]; [|done]. rewrite !Ok_bind.
  destruct (document parsed); [|by rewrite Ok_bind, app_nil_r].
  destruct (useGraphQLImport _ _) as [source|e]; [|done]. rewrite !Ok_bind.
  unfold collectValidSources. destruct (document source); [|done].
  rewrite Ok_bind. case_bool_decide; by rewrite ?app_nil_r.
Qed.

Lemma contribution_Ok partialSource added :
  parseOne partialSource [] = Ok added → contributed partialSource = added.
Proof. unfold contribution. by intros ->. Qed.

Lemma contribution_location partialSource :
  contributed partialSource = []
  ∨ ∃ given source, partialSource = Some given ∧ contributed partialSource = [source]
                    ∧ location source = location given.
Proof.
  unfold contribution, parseSourceSync. destruct partialSource as [given|]; [|by left].
  destruct (parseRawSDL _ _) as [parsed|e] eqn:Hparsed; [|by left]. rewrite Ok_bind.
  destruct (document parsed); [|by left].
  destruct (useGraphQLImport _ _) as [source|e] eqn:Himport; [|by left]. rewrite Ok_bind.
  unfold collectValidSources. destruct (document source); [|by left].
  case_bool_decide; [|by left]. right. exists given, source. split_and!; [done..|].
  apply useGraphQLImport_location in Himport. rewrite Himport.
  apply parseRawSDL_location in Hparsed. rewrite parseSchema_location in Hparsed.
  rewrite <- Hparsed. unfold useComments, useKindsFilter.
  by destruct (filterKinds _), (truthy _).
Qed.

Lemma forEach_parse_Ok sources validSources result :
  forEach parseOne sources validSources = Ok result →
  result = validSources ++ (sources ≫= contributed)
  ∧ Forall (λ partialSource, ∃ added, parseOne partialSource [] = Ok added) sources.
Proof.
  revert validSources. induction sources as [|p sources IH]; intros validSources.
  { intros [= <-]. by rewrite app_nil_r. }
  rewrite forEach_cons, parseSourceSync_acc.
  intros (after & (added & Hadded & [= <-])%bind_Ok & Hrest)%bind_Ok.
  apply IH in Hrest as [-> Hall]. split; [|constructor; eauto].
  cbn [mbind list_bind]. by rewrite (contribution_Ok _ _ Hadded), app_assoc.
Qed.

Lemma forEach_parse_all sources validSources :
  Forall (λ partialSource, ∃ added, parseOne partialSource [] = Ok added) sources →
  forEach parseOne sources validSources = Ok (validSources ++ (sources ≫= contributed)).
Proof.
  revert validSources. induction sources as [|p sources IH]; intros validSources Hall.
  { by rewrite app_nil_r. }
  apply Forall_cons in Hall as [[added Hadded] Hall].
  rewrite forEach_cons, parseSourceSync_acc. cbv beta in *.
  rewrite Hadded, !Ok_bind, IH by done.
  cbn [mbind list_bind]. by rewrite (contribution_Ok _ _ Hadded), app_assoc.
Qed.

(** Parsing in the order of completion is parsing the sources in that
    order. *)
Lemma forEach_completion (sources : list (option Source)) completion validSources :
  (∀ i, i ∈ completion → i < length sources) →
  forEach (λ i, match sources !! i with
                | Some partialSource => parseSource (inputOf partialSource) partialSource
                | None => Ok
                end) completion validSources
  = forEach parseOne (omap (λ i, sources !! i) completion) validSources.
Proof.
  revert validSources. induction completion as [|i completion IH];
    intros validSources Hvalid; [done|].
  destruct (lookup_lt_is_Some_2 sources i) as [p Hp]; [apply Hvalid; left|].
  cbn [omap list_omap]. rewrite Hp, !forEach_cons. rewrite Hp. unfold parseSource.
  destruct (parseSourceSync _ _ _); [|done]. rewrite !Ok_bind.
  apply IH. intros j Hj. apply Hvalid. by right.
Qed.

Lemma omap_lookup_seq {A} (l pre : list A) :
  omap (λ i, (pre ++ l) !! i) (seq (length pre) (length l)) = l.
Proof.
  revert pre. induction l as [|x l IH]; intros pre; [done|].
  cbn [length seq omap list_omap]. rewrite list_lookup_middle by done.
  f_equal. replace (pre ++ x :: l) with ((pre ++ [x]) ++ l) by (by rewrite <- app_assoc).
  replace (S (length pre)) with (length (pre ++ [x])) by (rewrite length_app; simpl; lia).
  apply IH.
Qed.

Lemma omap_lookup_all {A} (l : list A) : omap (λ i, l !! i) (seq 0 (length l)) = l.
Proof. exact (omap_lookup_seq l []). Qed.

Lemma contribution_locations (sources : list (option Source)) :
  (location <$> (sources ≫= contributed)) `sublist_of` (location <$> omap id sources).
Proof.
  induction sources as [|p sources IH]; [done|].
  cbn [mbind list_bind]. rewrite fmap_app.
  destruct (contribution_location p) as [->|(given & source & -> & -> & Hloc)].
  - simpl. destruct p; simpl; [by apply sublist_cons|done].
  - simpl. rewrite Hloc. by apply sublist_skip.
Qed.

(** With sorting on and sources of distinct locations, the order in
    which the sources complete does not show in the result. *)
Lemma loadTypedefs_sorted sortSources pointerList sources completion res :
  completion ≡ₚ seq 0 (length sources) →
  NoDup (location <$> omap id sources) →
  (∀ l l', l ≡ₚ l' → NoDup (location <$> l) → sortSources l = sortSources l') →
  loadTypedefsSync inputOf sortSources true pointerList sources = Ok res →
  loadTypedefs inputOf sortSources true pointerList sources completion = Ok res.
Proof.
  intros Hperm Hlocations Hsort. unfold loadTypedefsSync, loadTypedefs.
  intros (valid & [-> Hall]%forEach_parse_Ok & Hres)%bind_Ok.
  rewrite forEach_completion.
  2: { intros i Hi. rewrite Hperm in Hi. apply elem_of_seq in Hi. lia. }
  assert (omap (λ i, sources !! i) completion ≡ₚ sources) as Hsources.
  { by rewrite Hperm, omap_lookup_all. }
  rewrite forEach_parse_all by (by rewrite Hsources). rewrite Ok_bind.
  assert (omap (λ i, sources !! i) completion ≫= contributed ≡ₚ sources ≫= contributed)
    as Hvalid by (by rewrite Hsources).
  simpl in *. unfold prepareResult in *. rewrite (Permutation_length Hvalid).
  destruct (_ && _); [done|]. rewrite <- Hres. f_equal. apply Hsort; [done|].
  rewrite Hvalid. eapply sublist_NoDup; [done|apply contribution_locations].
Qed.

(** When the sources complete in the order in which they were
    collected, there is no difference at all. *)
Lemma loadTypedefs_in_order sortSources sort pointerList sources :
  loadTypedefs inputOf sortSources sort pointerList sources (seq 0 (length sources))
  = loadTypedefsSync inputOf sortSources sort pointerList sources.
Proof.
  unfold loadTypedefs, loadTypedefsSync. rewrite forEach_completion.
  - by rewrite omap_lookup_all.
  - intros i Hi. apply elem_of_seq in Hi. lia.
Qed.
End completion_order.

(** ** The two execution models side by side *)

Lemma NoDup_fmap_eq {A B} (f : A → B) (l : list A) x y :
  NoDup (f <$> l) → x ∈ l → y ∈ l → f x = f y → x = y.
Proof.
  induction l as [|a l IH]; [by intros _ ?%elem_of_nil|].
  rewrite fmap_cons, NoDup_cons. intros [Ha Hl] Hx Hy Heq.
  apply elem_of_cons in Hx as [->|Hx]; apply elem_of_cons in Hy as [->|Hy].
  - done.
  - destruct Ha. rewrite Heq. by apply list_elem_of_fmap_2.
  - destruct Ha. rewrite <- Heq. by apply list_elem_of_fmap_2.
  - by apply IH.
Qed.

#[local] Instance byLocation_total : Total byLocation.
Proof. intros s1 s2. unfold byLocation. lia. Qed.

#[local] Instance byLocation_trans : Transitive byLocation.
Proof. intros s1 s2 s3. unfold byLocation. lia. Qed.

(** Sources of distinct locations are sorted the same way in whatever
    order they arrive. *)
Lemma sortByLocation_Permutation l l' :
  l ≡ₚ l' → NoDup (location <$> l) → sortByLocation l = sortByLocation l'.
Proof.
  intros Hperm Hlocations. unfold sortByLocation.
  apply (Sorted_unique_strong byLocation).
  - intros s1 s2 H1 H2 Hle Hge.
    rewrite merge_sort_Permutation in H1. rewrite merge_sort_Permutation, <- Hperm in H2.
    apply (NoDup_fmap_eq location l); [done..|].
    unfold byLocation in *. apply (inj encode). lia.
  - apply (Sorted_merge_sort byLocation).
  - apply (Sorted_merge_sort byLocation).
  - by rewrite !merge_sort_Permutation.
Qed.



